(** * ACPathfinder: routing of air-conditioning pipes through a building grid

    A shallow embedding of the core of [ACpathfinder.py] (class
    [ACPathfinder]): the grid queries, the energy-cost model, the
    breadth-first router, the greedy waypoint simplifier and the path
    densifier, followed by the properties proved about them.

    Modelling conventions.
    - Python integers are [Z]; a position [(f, r, c)] is a triple of [Z].
    - A cell of the building matrix is a Python [str], here a [string].
    - Indexing a Python list may raise [IndexError] and accepts negative
      indices; [py_getitem] spells both out and the code that indexes the
      building runs in the error monad [result].
    - The Python [set] of visited positions is a [gset position]; the
      [deque] is a list popped at its head and extended at its end.
    - Energy is a Python [float], an IEEE 754 binary64 number built from
      the constants 0.1, 0.5, 1.0, 2.0 and 3.0 by addition, subtraction
      and comparison. [Module Float64] has the cost function and the
      optimiser on Rocq's primitive [float], which rounds as the
      interpreter does; what is stated about the numbers themselves is
      stated there. Outside that module energy is an exact rational [Q],
      the number the cost table denotes, without rounding: the router's
      records, the main program and the legend are stated over it.
    - The [while queue] loop of the router is iterated by [bfs_loop] under
      an explicit iteration budget; [bfs_budget] is shown sufficient.
    - Console output ([print]) is not modelled. *)

From Stdlib Require Import PrimFloat ZArith QArith Lia Lqa.
From stdpp Require Import base option list gmap sets strings.

#[local] Set Warnings "-clear-no-such-hyp".
#[local] Set Warnings "-inexact-float".

Open Scope Z_scope.

(** ** Exceptions and the error monad *)

Inductive exn : Type := IndexError.

Inductive result (A : Type) : Type :=
| Ok (a : A)
| Raise (e : exn).
Arguments Ok {A} a.
Arguments Raise {A} e.

#[global] Instance result_ret : MRet result := fun A a => Ok a.

#[global] Instance result_bind : MBind result := fun A B k m =>
  match m with
  | Ok a => k a
  | Raise e => Raise e
  end.

(** ** Python list primitives *)

(** [l[i]]: negative indices count from the end, anything else out of
    range raises [IndexError]. *)
Definition py_getitem {A : Type} (l : list A) (i : Z) : result A :=
  let n := Z.of_nat (length l) in
  let j := if i <? 0 then i + n else i in
  if (0 <=? j) && (j <? n)
  then match l !! Z.to_nat j with
       | Some x => Ok x
       | None => Raise IndexError
       end
  else Raise IndexError.

(** [range(start, stop)] *)
Definition py_range (start stop : Z) : list Z := seqZ start (stop - start).

(** [range(start, stop, step)] for the two steps the program uses, [1] and
    [-1]. *)
Definition py_range_step (start stop step : Z) : list Z :=
  if 0 <? step
  then seqZ start (stop - start)
  else (fun k => start - k) <$> seqZ 0 (start - stop).

(** ** Positions and the building *)

Definition position : Type := Z * Z * Z.

Definition matrix : Type := list (list (list string)).

(** [building[f][r][c]] *)
Definition building_at (b : matrix) (f r c : Z) : result string :=
  fl ← py_getitem b f;
  rw ← py_getitem fl r;
  py_getitem rw c.

Record ACPathfinder : Type := {
  building : matrix;
  floors : Z;
  rows : Z;
  cols : Z;
  source : option position;
  targets : list position;
  stairs : list position
}.

(** The positions in the order of the three nested loops
    [for f in range(floors): for r in range(rows): for c in range(cols)]. *)
Definition scan_order (nf nr nc : Z) : list position :=
  f ← py_range 0 nf; r ← py_range 0 nr; c ← py_range 0 nc; [(f, r, c)].

Fixpoint find_position_in (b : matrix) (symbol : string) (ps : list position)
  : result (option position) :=
  match ps with
  | [] => Ok None
  | (f, r, c) :: ps' =>
      cell ← building_at b f r c;
      if String.eqb cell symbol then Ok (Some (f, r, c))
      else find_position_in b symbol ps'
  end.

Fixpoint find_all_positions_in (b : matrix) (symbol : string)
  (ps : list position) (positions : list position) : result (list position) :=
  match ps with
  | [] => Ok positions
  | (f, r, c) :: ps' =>
      cell ← building_at b f r c;
      find_all_positions_in b symbol ps'
        (if String.eqb cell symbol then positions ++ [(f, r, c)] else positions)
  end.

Definition _find_position (b : matrix) (nf nr nc : Z) (symbol : string)
  : result (option position) :=
  find_position_in b symbol (scan_order nf nr nc).

Definition _find_all_positions (b : matrix) (nf nr nc : Z) (symbol : string)
  : result (list position) :=
  find_all_positions_in b symbol (scan_order nf nr nc) [].

(** [ACPathfinder.__init__] *)
Definition init (building_matrix : matrix) : result ACPathfinder :=
  let nf := Z.of_nat (length building_matrix) in
  let nr := match building_matrix with
            | [] => 0
            | fl0 :: _ => Z.of_nat (length fl0)
            end in
  let nc := match building_matrix with
            | (rw0 :: _) :: _ => Z.of_nat (length rw0)
            | _ => 0
            end in
  src ← _find_position building_matrix nf nr nc "S";
  tgts ← _find_all_positions building_matrix nf nr nc "R";
  strs ← _find_all_positions building_matrix nf nr nc "T";
  Ok {| building := building_matrix; floors := nf; rows := nr; cols := nc;
        source := src; targets := tgts; stairs := strs |}.

Definition directions : list (Z * Z) := [(-1, 0); (1, 0); (0, -1); (0, 1)].

Definition in_bounds (pf : ACPathfinder) (f r c : Z) : bool :=
  (0 <=? f) && (f <? floors pf) &&
  (0 <=? r) && (r <? rows pf) &&
  (0 <=? c) && (c <? cols pf).

Definition _is_valid_position (pf : ACPathfinder) (f r c : Z) : result bool :=
  if in_bounds pf f r c
  then cell ← building_at (building pf) f r c;
       Ok (negb (String.eqb cell "W"))
  else Ok false.

(** ** Cost model *)

(** The dictionary [self.energy_costs], with the numbers its literals
    denote; [Float64.energy_costs] has their binary64 values. *)
Module energy_costs.

Definition horizontal : Q := 1.
Definition vertical_up : Q := 3.
Definition vertical_down : Q := 2.
Definition turn : Q := 1 # 2.
Definition base_pressure : Q := 1 # 10.

End energy_costs.

Definition direction_of (p q : position) : position :=
  let '(f1, r1, c1) := p in
  let '(f2, r2, c2) := q in
  (f2 - f1, r2 - r1, c2 - c1).

Definition _is_turn (pos1 pos2 pos3 : position) : bool :=
  let dir1 := direction_of pos1 pos2 in
  let dir2 := direction_of pos2 pos3 in
  negb (bool_decide (dir1 = dir2)).

(** The body of the loop of [_calculate_energy_cost] for one index [i]:
    [prev_prev] is [path[i-2]] when [i >= 2]. *)
Definition energy_step (prev_prev : option position) (prev_pos curr_pos : position)
  (total_energy : Q) : Q :=
  let '(prev_f, _, _) := prev_pos in
  let '(curr_f, _, _) := curr_pos in
  let total_energy := (total_energy + energy_costs.base_pressure)%Q in
  let total_energy :=
    if negb (curr_f =? prev_f)
    then if curr_f >? prev_f
         then (total_energy + energy_costs.vertical_up)%Q
         else (total_energy + energy_costs.vertical_down)%Q
    else (total_energy + energy_costs.horizontal)%Q in
  match prev_prev with
  | Some prev_prev_pos =>
      if _is_turn prev_prev_pos prev_pos curr_pos
      then (total_energy + energy_costs.turn)%Q
      else total_energy
  | None => total_energy
  end.

(** The loop [for i in range(1, len(path))], walking the path with the two
    previous elements at hand. *)
Fixpoint energy_loop (prev_prev : option position) (prev_pos : position)
  (rest : list position) (total_energy : Q) : Q :=
  match rest with
  | [] => total_energy
  | curr_pos :: rest' =>
      energy_loop (Some prev_pos) curr_pos rest'
        (energy_step prev_prev prev_pos curr_pos total_energy)
  end.

(** The cost of a path with unrounded additions;
    [Float64._calculate_energy_cost] adds in binary64. *)
Definition _calculate_energy_cost (path : list position) : Q :=
  match path with
  | p0 :: ((_ :: _) as rest) => energy_loop None p0 rest 0%Q
  | _ => 0%Q
  end.

(** ** Path densifier *)

(** The cells appended for one waypoint pair [(start_pos, end_pos)] of
    [_expand_path]: the omitted collinear intermediates, then [end_pos]. *)
Definition expand_segment (start_pos end_pos : position) : list position :=
  let '(f1, r1, c1) := start_pos in
  let '(f2, r2, c2) := end_pos in
  if negb (f1 =? f2) then [end_pos]
  else if c1 =? c2 then
    let step := if r2 >? r1 then 1 else -1 in
    ((fun r => (f1, r, c1)) <$> py_range_step (r1 + step) r2 step) ++ [end_pos]
  else if r1 =? r2 then
    let step := if c2 >? c1 then 1 else -1 in
    ((fun c => (f1, r1, c)) <$> py_range_step (c1 + step) c2 step) ++ [end_pos]
  else [end_pos].

(** The loop [for i in range(len(path) - 1)] over the pairs
    [(path[i], path[i+1])]; [dense_path] is the list built so far. *)
Fixpoint expand_loop (dense_path : list position) (start_pos : position)
  (rest : list position) : list position :=
  match rest with
  | [] => dense_path
  | end_pos :: rest' =>
      expand_loop (dense_path ++ expand_segment start_pos end_pos) end_pos rest'
  end.

Definition _expand_path (path : list position) : list position :=
  match path with
  | p0 :: ((_ :: _) as rest) => expand_loop [p0] p0 rest
  | _ => path
  end.

(** ** Path simplifier *)

(** The early-exit loop [for x in ...: if not self._is_valid_position(..):
    return False] of [_can_go_direct], followed by [return True]. *)
Fixpoint all_valid (pf : ACPathfinder) (cells : list position) : result bool :=
  match cells with
  | [] => Ok true
  | (f, r, c) :: cells' =>
      v ← _is_valid_position pf f r c;
      if (v : bool) then all_valid pf cells' else Ok false
  end.

Definition _can_go_direct (pf : ACPathfinder) (pos1 pos2 : position) : result bool :=
  let '(f1, r1, c1) := pos1 in
  let '(f2, r2, c2) := pos2 in
  if negb (f1 =? f2) then Ok false
  else if negb (r1 =? r2) && negb (c1 =? c2) then Ok false
  else if r1 =? r2 then
    let start_c := Z.min c1 c2 in
    let end_c := Z.max c1 c2 in
    all_valid pf ((fun c => (f1, r1, c)) <$> py_range (start_c + 1) end_c)
  else
    let start_r := Z.min r1 r2 in
    let end_r := Z.max r1 r2 in
    all_valid pf ((fun r => (f1, r, c1)) <$> py_range (start_r + 1) end_r).

(** The loop [for i in range(1, len(path) - 1)] of [_optimize_path_turns]
    and the final [optimized.append(path[-1])]: [prev_pos] is
    [optimized[-1]], [rest] is [path[i:]]. *)
Fixpoint optimize_loop (pf : ACPathfinder) (optimized : list position)
  (prev_pos : position) (rest : list position) : result (list position) :=
  match rest with
  | [] => Ok optimized
  | [last_pos] => Ok (optimized ++ [last_pos])
  | curr_pos :: ((next_pos :: _) as rest') =>
      direct ← _can_go_direct pf prev_pos next_pos;
      if (direct : bool) then optimize_loop pf optimized prev_pos rest'
      else optimize_loop pf (optimized ++ [curr_pos]) curr_pos rest'
  end.

Definition _optimize_path_turns (pf : ACPathfinder) (path : list position)
  : result (list position) :=
  match path with
  | p0 :: ((_ :: _ :: _) as rest) => optimize_loop pf [p0] p0 rest
  | _ => Ok path
  end.

(** The dictionary built by [bfs_pathfinding] for one target; the key
    ['energy_saved'] is absent until [optimize_energy_usage] sets it. *)
Record path_info : Type := {
  target_index : nat;
  target_position : position;
  path : list position;
  steps : nat;
  energy_cost : Q;
  energy_saved : option Q
}.

(** The body of the loop of [optimize_energy_usage] on unrounded costs;
    [Float64.optimize_one] compares and subtracts in binary64. *)
Definition optimize_one (pf : ACPathfinder) (info : path_info) : result path_info :=
  let original_path := path info in
  let original_energy := energy_cost info in
  optimized_path ← _optimize_path_turns pf original_path;
  let optimized_energy := _calculate_energy_cost optimized_path in
  if Qlt_le_dec optimized_energy original_energy
  then Ok {| target_index := target_index info;
             target_position := target_position info;
             path := optimized_path;
             steps := length optimized_path;
             energy_cost := optimized_energy;
             energy_saved := Some (original_energy - optimized_energy)%Q |}
  else Ok {| target_index := target_index info;
             target_position := target_position info;
             path := path info;
             steps := steps info;
             energy_cost := energy_cost info;
             energy_saved := Some 0%Q |}.

Fixpoint optimize_energy_usage (pf : ACPathfinder) (path_info_list : list path_info)
  : result (list path_info) :=
  match path_info_list with
  | [] => Ok []
  | info :: infos =>
      optimized_info ← optimize_one pf info;
      optimized_paths ← optimize_energy_usage pf infos;
      Ok (optimized_info :: optimized_paths)
  end.

(** ** Breadth-first router *)

(** The loop state of one target's search: the [deque] of
    [(position, path so far)] entries and the [visited] set. *)
Record bfs_state : Type := {
  queue : list (position * list position);
  visited : gset position
}.

(** [visited.add(new_pos); queue.append((new_pos, path + [new_pos]))] *)
Definition enqueue (path : list position) (new_pos : position) (st : bfs_state)
  : bfs_state :=
  {| queue := queue st ++ [(new_pos, path ++ [new_pos])];
     visited := visited st ∪ {[new_pos]} |}.

(** Option 1: [for dr, dc in self.directions], same floor. *)
Fixpoint explore_horizontal (pf : ACPathfinder) (f r c : Z) (path : list position)
  (dirs : list (Z * Z)) (st : bfs_state) : result bfs_state :=
  match dirs with
  | [] => Ok st
  | (dr, dc) :: dirs' =>
      let new_r := r + dr in
      let new_c := c + dc in
      let new_pos := (f, new_r, new_c) in
      valid ← _is_valid_position pf f new_r new_c;
      if (valid : bool) && bool_decide (new_pos ∉ visited st)
      then explore_horizontal pf f r c path dirs' (enqueue path new_pos st)
      else explore_horizontal pf f r c path dirs' st
  end.

(** Option 2: [for new_f in range(self.floors)], entered only on a stair
    cell. *)
Fixpoint explore_vertical (pf : ACPathfinder) (f r c : Z) (path : list position)
  (new_floors : list Z) (st : bfs_state) : result bfs_state :=
  match new_floors with
  | [] => Ok st
  | new_f :: new_floors' =>
      if negb (new_f =? f)
      then cell ← building_at (building pf) new_f r c;
           if String.eqb cell "T"
           then let new_pos := (new_f, r, c) in
                if bool_decide (new_pos ∉ visited st)
                then explore_vertical pf f r c path new_floors' (enqueue path new_pos st)
                else explore_vertical pf f r c path new_floors' st
           else explore_vertical pf f r c path new_floors' st
      else explore_vertical pf f r c path new_floors' st
  end.

(** What one evaluation of [while queue: ...] does. *)
Inductive step_outcome : Type :=
| Continue (st : bfs_state)
| Found (info : path_info)
| Exhausted.

Definition bfs_step (pf : ACPathfinder) (target_idx : nat) (target : position)
  (st : bfs_state) : result step_outcome :=
  match queue st with
  | [] => Ok Exhausted
  | (current_pos, path) :: queue' =>
      if bool_decide (current_pos = target)
      then Ok (Found {| target_index := target_idx;
                        target_position := target;
                        path := path;
                        steps := length path;
                        energy_cost := _calculate_energy_cost path;
                        energy_saved := None |})
      else
        let '(f, r, c) := current_pos in
        st1 ← explore_horizontal pf f r c path directions
                {| queue := queue'; visited := visited st |};
        cell ← building_at (building pf) f r c;
        st2 ← (if String.eqb cell "T"
               then explore_vertical pf f r c path (py_range 0 (floors pf)) st1
               else Ok st1);
        Ok (Continue st2)
  end.

(** The [while] loop under an iteration budget: [None] when the budget is
    used up before the loop ends; otherwise the path found, if any, or the
    exception raised. *)
Fixpoint bfs_loop (fuel : nat) (pf : ACPathfinder) (target_idx : nat)
  (target : position) (st : bfs_state) : option (result (option path_info)) :=
  match fuel with
  | O => None
  | S fuel' =>
      match bfs_step pf target_idx target st with
      | Raise e => Some (Raise e)
      | Ok Exhausted => Some (Ok None)
      | Ok (Found info) => Some (Ok (Some info))
      | Ok (Continue st') => bfs_loop fuel' pf target_idx target st'
      end
  end.

(** [queue = deque([(self.source, [self.source])]); visited = {self.source}] *)
Definition bfs_init (src : position) : bfs_state :=
  {| queue := [(src, [src])]; visited := {[src]} |}.

(** The loop [for target_idx, target in enumerate(self.targets)]. *)
Fixpoint bfs_targets (fuel : nat) (pf : ACPathfinder) (src : position)
  (target_idx : nat) (tgts : list position) (paths_to_all_targets : list path_info)
  : option (result (list path_info)) :=
  match tgts with
  | [] => Some (Ok paths_to_all_targets)
  | target :: tgts' =>
      match bfs_loop fuel pf target_idx target (bfs_init src) with
      | None => None
      | Some (Raise e) => Some (Raise e)
      | Some (Ok (Some path_info)) =>
          bfs_targets fuel pf src (S target_idx) tgts'
            (paths_to_all_targets ++ [path_info])
      | Some (Ok None) =>
          bfs_targets fuel pf src (S target_idx) tgts' paths_to_all_targets
      end
  end.

Definition bfs_pathfinding (fuel : nat) (pf : ACPathfinder)
  : option (result (list path_info)) :=
  match source pf, targets pf with
  | None, _ => Some (Ok [])
  | _, [] => Some (Ok [])
  | Some src, tgts => bfs_targets fuel pf src 0%nat tgts []
  end.

(** Iterations that always suffice for one target's search. *)
Definition bfs_budget (pf : ACPathfinder) : nat :=
  S (Z.to_nat (floors pf * rows pf * cols pf)).

(** ** Vocabulary for costs *)


Definition floor_of (p : position) : Z := p.1.1.


(** ** Dense paths *)

(** What [expand_loop] appends to [dense_path]. *)
Fixpoint expand_tail (start_pos : position) (rest : list position) : list position :=
  match rest with
  | [] => []
  | end_pos :: rest' => expand_segment start_pos end_pos ++ expand_tail end_pos rest'
  end.

(** Two consecutive positions leave no cell out: on one floor and in one
    column they are at most one row apart, on one floor and in one row at
    most one column apart. *)
Definition dense_pair (a b : position) : bool :=
  let '(f1, r1, c1) := a in
  let '(f2, r2, c2) := b in
  negb (f1 =? f2)
  || (if c1 =? c2 then Z.abs (r2 - r1) <=? 1
      else if r1 =? r2 then Z.abs (c2 - c1) <=? 1
      else true).

Fixpoint dense (path : list position) : bool :=
  match path with
  | a :: ((b :: _) as path') => dense_pair a b && dense path'
  | _ => true
  end.

(** ** Vocabulary for paths *)

(** Every two consecutive elements of [l] are related by [P]. *)
Fixpoint chain {A : Type} (P : A → A → Prop) (l : list A) : Prop :=
  match l with
  | a :: ((b :: _) as l') => P a b ∧ chain P l'
  | _ => True
  end.

(** [a] is immediately followed by [b] somewhere in [l]. *)
Definition adjacent_in {A : Type} (l : list A) (a b : A) : Prop :=
  ∃ l1 l2, l = l1 ++ a :: b :: l2.

(** In bounds and not a wall. *)
Definition valid_cell (pf : ACPathfinder) (p : position) : Prop :=
  let '(f, r, c) := p in
  in_bounds pf f r c = true ∧
  ∃ cell, building_at (building pf) f r c = Ok cell ∧ cell ≠ "W"%string.

(** [p] lies strictly between [a] and [b] on the straight line that joins
    them on their floor. *)
Definition strictly_between (a b p : position) : Prop :=
  let '(f1, r1, c1) := a in
  let '(f2, r2, c2) := b in
  let '(f, r, c) := p in
  f = f1 ∧
  ((r1 = r2 ∧ r = r1 ∧ Z.min c1 c2 < c < Z.max c1 c2) ∨
   (c1 = c2 ∧ c = c1 ∧ Z.min r1 r2 < r < Z.max r1 r2)).

(** Same floor, same row or same column, and nothing but valid cells
    strictly in between. *)
Definition straight_clear (pf : ACPathfinder) (a b : position) : Prop :=
  let '(f1, r1, c1) := a in
  let '(f2, r2, c2) := b in
  f1 = f2 ∧ (r1 = r2 ∨ c1 = c2) ∧
  ∀ p, strictly_between a b p → valid_cell pf p.

(** What [optimize_loop] appends to [optimized]. *)
Fixpoint optimize_tail (pf : ACPathfinder) (prev_pos : position)
  (rest : list position) : result (list position) :=
  match rest with
  | [] => Ok []
  | [last_pos] => Ok [last_pos]
  | curr_pos :: ((next_pos :: _) as rest') =>
      direct ← _can_go_direct pf prev_pos next_pos;
      if (direct : bool) then optimize_tail pf prev_pos rest'
      else out ← optimize_tail pf curr_pos rest'; Ok (curr_pos :: out)
  end.

(** ** Vocabulary for path records *)

(** The stored cost is the cost of the stored path. *)
Definition consistent (info : path_info) : Prop :=
  energy_cost info = _calculate_energy_cost (path info).

(** What [optimize_energy_usage] does to one record [r], giving [o]:
    [optimized_path] is the simplified path of [r]. *)
Definition replaced_by (r o : path_info) (optimized_path : list position) : Prop :=
  target_index o = target_index r ∧
  target_position o = target_position r ∧
  path o = optimized_path ∧
  steps o = length optimized_path ∧
  energy_cost o = _calculate_energy_cost optimized_path ∧
  energy_saved o
  = Some (energy_cost r - _calculate_energy_cost optimized_path)%Q.

Definition kept_as (r o : path_info) : Prop :=
  target_index o = target_index r ∧
  target_position o = target_position r ∧
  path o = path r ∧
  steps o = steps r ∧
  energy_cost o = energy_cost r ∧
  energy_saved o = Some 0%Q.

(** Every cell inside the bounds can be read. *)
Definition grid_ok (pf : ACPathfinder) : Prop :=
  ∀ f r c, in_bounds pf f r c = true →
           ∃ cell, building_at (building pf) f r c = Ok cell.

(** ** Vocabulary for the router *)

Definition in_box (pf : ACPathfinder) (p : position) : Prop :=
  let '(f, r, c) := p in in_bounds pf f r c = true.

(** A step to a valid neighbour on the same floor, in one of the four
    [directions]. *)
Definition horizontal_step (pf : ACPathfinder) (a b : position) : Prop :=
  let '(f, r, c) := a in
  ∃ dr dc, (dr, dc) ∈ directions ∧ b = (f, r + dr, c + dc) ∧ valid_cell pf b.

(** A floor change between two stair cells at the same row and column. *)
Definition stair_step (pf : ACPathfinder) (a b : position) : Prop :=
  let '(f, r, c) := a in
  let '(f', r', c') := b in
  f' ≠ f ∧ r' = r ∧ c' = c ∧ 0 ≤ f' < floors pf ∧
  building_at (building pf) f r c = Ok "T"%string ∧
  building_at (building pf) f' r c = Ok "T"%string.

Definition bfs_move (pf : ACPathfinder) (a b : position) : Prop :=
  horizontal_step pf a b ∨ stair_step pf a b.

Definition reachable (pf : ACPathfinder) (src target : position) : Prop :=
  rtc (bfs_move pf) src target.

(** The queue entry built by [enqueue]. *)
Definition entry_of (path : list position) (new_pos : position)
  : position * list position :=
  (new_pos, path ++ [new_pos]).

(** [st'] is [st] after enqueuing the fresh positions [news], in order. *)
Definition extends_by (path : list position) (news : list position)
  (st st' : bfs_state) : Prop :=
  NoDup news ∧
  (∀ p, p ∈ news → p ∉ visited st) ∧
  queue st' = queue st ++ (entry_of path <$> news) ∧
  visited st' = visited st ∪ list_to_set news.

(** A queue entry carries a walk from the source to its position that
    repeats no position and stays inside the visited set. *)
Definition good_entry (pf : ACPathfinder) (src : position)
  (vis : gset position) (e : position * list position) : Prop :=
  head e.2 = Some src ∧
  last e.2 = Some e.1 ∧
  chain (bfs_move pf) e.2 ∧
  NoDup e.2 ∧
  ∀ p, p ∈ e.2 → p ∈ vis.

(** The loop invariant of one target's search. *)
Record bfs_inv (pf : ACPathfinder) (src target : position) (st : bfs_state)
  : Prop := {
  inv_entries : Forall (good_entry pf src (visited st)) (queue st);
  inv_box : ∀ p, p ∈ visited st → in_box pf p;
  inv_src : src ∈ visited st;
  inv_closed : ∀ p, p ∈ visited st → p ∉ (queue st).*1 →
               p ≠ target ∧ ∀ q, bfs_move pf p q → q ∈ visited st;
  inv_nodup : NoDup (queue st).*1
}.

(** What the router promises about a record it emits for [target]. *)
Definition good_result (pf : ACPathfinder) (src : position) (target_idx : nat)
  (target : position) (info : path_info) : Prop :=
  target_index info = target_idx ∧
  target_position info = target ∧
  head (path info) = Some src ∧
  last (path info) = Some target ∧
  chain (bfs_move pf) (path info) ∧
  NoDup (path info) ∧
  steps info = length (path info) ∧
  energy_cost info = _calculate_energy_cost (path info) ∧
  energy_saved info = None.

(** All positions inside the bounds. *)
Definition box_set (pf : ACPathfinder) : gset position :=
  list_to_set (scan_order (floors pf) (rows pf) (cols pf)).

(** The results of searching the targets [tgts], numbered from
    [target_idx] on: one record for each target that can be reached from
    [src], in order, and nothing for the others. *)
Inductive search_results (pf : ACPathfinder) (src : position)
  : nat → list position → list path_info → Prop :=
| search_done (target_idx : nat) :
    search_results pf src target_idx [] []
| search_found (target_idx : nat) (target : position) (tgts : list position)
    (info : path_info) (infos : list path_info) :
    reachable pf src target →
    good_result pf src target_idx target info →
    search_results pf src (S target_idx) tgts infos →
    search_results pf src target_idx (target :: tgts) (info :: infos)
| search_unreachable (target_idx : nat) (target : position)
    (tgts : list position) (infos : list path_info) :
    ¬ reachable pf src target →
    search_results pf src (S target_idx) tgts infos →
    search_results pf src target_idx (target :: tgts) infos.

(** The loop state after [k] full iterations of [while queue], if the loop
    runs that long. *)
Fixpoint bfs_iter (k : nat) (pf : ACPathfinder) (target_idx : nat)
  (target : position) (st : bfs_state) : option bfs_state :=
  match k with
  | O => Some st
  | S k' =>
      match bfs_step pf target_idx target st with
      | Ok (Continue st') => bfs_iter k' pf target_idx target st'
      | _ => None
      end
  end.

(** ** Concrete buildings and pathfinders *)

(** The scenario of the specification: source, one room, a wall across. *)
Definition corridor : matrix :=
  [[["S"; "."; "R"];
    ["W"; "W"; "W"];
    ["."; "."; "."]]]%string.

Definition two_floors : matrix :=
  [[["S"; "."; "."];
    ["."; "T"; "."];
    ["."; "."; "."]];
   [["."; "."; "."];
    ["."; "T"; "."];
    ["."; "."; "R"]]]%string.

Definition corridor_pf : ACPathfinder :=
  {| building := corridor; floors := 1; rows := 3; cols := 3;
     source := Some (0, 0, 0); targets := [(0, 0, 2)]; stairs := [] |}.

Definition corridor_path : list position := [(0, 0, 0); (0, 0, 1); (0, 0, 2)].

Definition corridor_info : path_info :=
  {| target_index := 0; target_position := (0, 0, 2); path := corridor_path;
     steps := 3; energy_cost := _calculate_energy_cost corridor_path;
     energy_saved := None |}.

Definition two_floors_pf : ACPathfinder :=
  {| building := two_floors; floors := 2; rows := 3; cols := 3;
     source := Some (0, 0, 0); targets := [(1, 2, 2)];
     stairs := [(0, 1, 1); (1, 1, 1)] |}.

(** A room behind a wall, and a room within reach. *)
Definition walled : matrix := [[["R"; "W"; "S"; "."; "R"]]]%string.

Definition walled_pf : ACPathfinder :=
  {| building := walled; floors := 1; rows := 1; cols := 5;
     source := Some (0, 0, 2); targets := [(0, 0, 0); (0, 0, 4)]; stairs := [] |}.

Definition walled_path : list position := [(0, 0, 2); (0, 0, 3); (0, 0, 4)].

Definition walled_info : path_info :=
  {| target_index := 1; target_position := (0, 0, 4); path := walled_path;
     steps := 3; energy_cost := _calculate_energy_cost walled_path;
     energy_saved := None |}.

(** A building without source. *)
Definition no_source : matrix := [[["."; "R"]]]%string.

Definition no_source_pf : ACPathfinder :=
  {| building := no_source; floors := 1; rows := 1; cols := 2;
     source := None; targets := [(0, 0, 1)]; stairs := [] |}.

(** A straight run of five cells, which the simplifier shortens. *)
Definition hall : matrix := [[["S"; "."; "."; "."; "R"]]]%string.

Definition hall_pf : ACPathfinder :=
  {| building := hall; floors := 1; rows := 1; cols := 5;
     source := Some (0, 0, 0); targets := [(0, 0, 4)]; stairs := [] |}.

Definition hall_path : list position :=
  [(0, 0, 0); (0, 0, 1); (0, 0, 2); (0, 0, 3); (0, 0, 4)].

Definition hall_info : path_info :=
  {| target_index := 0; target_position := (0, 0, 4); path := hall_path;
     steps := 5; energy_cost := _calculate_energy_cost hall_path;
     energy_saved := None |}.

Definition hall_short : list position := [(0, 0, 0); (0, 0, 4)].

Definition hall_optimized : path_info :=
  {| target_index := 0; target_position := (0, 0, 4); path := hall_short;
     steps := 2; energy_cost := _calculate_energy_cost hall_short;
     energy_saved :=
       Some (_calculate_energy_cost hall_path - _calculate_energy_cost hall_short)%Q |}.

(** The search state of [corridor_pf] after one iteration. *)
Definition corridor_after_one : bfs_state :=
  {| queue := [((0, 0, 1), [(0, 0, 0); (0, 0, 1)])];
     visited := {[(0, 0, 0)]} ∪ {[(0, 0, 1)]} |}.

Definition two_floors_path : list position :=
  [(0, 0, 0); (0, 1, 0); (0, 1, 1); (1, 1, 1); (1, 2, 1); (1, 2, 2)].

Definition two_floors_info : path_info :=
  {| target_index := 0; target_position := (1, 2, 2); path := two_floors_path;
     steps := 6; energy_cost := _calculate_energy_cost two_floors_path;
     energy_saved := None |}.

(** A record whose stored cost is not the cost of its path. *)
Definition stale_info : path_info :=
  {| target_index := 0; target_position := (0, 0, 1);
     path := [(0, 0, 0); (0, 0, 1)]; steps := 2; energy_cost := 0;
     energy_saved := None |}.

(** * Energy in binary64 *)

(** The cost function and the optimiser once more, with the arithmetic of
    the interpreter: [float] is binary64, a literal is the nearest
    binary64 number, and [+], [-] and [<] are those of IEEE 754. *)
Module Float64.

(** The dictionary [self.energy_costs]. *)
Module energy_costs.

Definition horizontal : float := 1.0.
Definition vertical_up : float := 3.0.
Definition vertical_down : float := 2.0.
Definition turn : float := 0.5.
Definition base_pressure : float := 0.1.

End energy_costs.

(** The body of the loop of [_calculate_energy_cost] for one index [i]:
    [prev_prev] is [path[i-2]] when [i >= 2]. *)
Definition energy_step (prev_prev : option position) (prev_pos curr_pos : position)
  (total_energy : float) : float :=
  let '(prev_f, _, _) := prev_pos in
  let '(curr_f, _, _) := curr_pos in
  let total_energy := (total_energy + energy_costs.base_pressure)%float in
  let total_energy :=
    if negb (curr_f =? prev_f)
    then if curr_f >? prev_f
         then (total_energy + energy_costs.vertical_up)%float
         else (total_energy + energy_costs.vertical_down)%float
    else (total_energy + energy_costs.horizontal)%float in
  match prev_prev with
  | Some prev_prev_pos =>
      if _is_turn prev_prev_pos prev_pos curr_pos
      then (total_energy + energy_costs.turn)%float
      else total_energy
  | None => total_energy
  end.

(** The loop [for i in range(1, len(path))]. *)
Fixpoint energy_loop (prev_prev : option position) (prev_pos : position)
  (rest : list position) (total_energy : float) : float :=
  match rest with
  | [] => total_energy
  | curr_pos :: rest' =>
      energy_loop (Some prev_pos) curr_pos rest'
        (energy_step prev_prev prev_pos curr_pos total_energy)
  end.

Definition _calculate_energy_cost (path : list position) : float :=
  match path with
  | p0 :: ((_ :: _) as rest) => energy_loop None p0 rest 0.0
  | _ => 0.0
  end.

(** The dictionary of one route. *)
Record path_info : Type := {
  target_index : nat;
  target_position : position;
  path : list position;
  steps : nat;
  energy_cost : float;
  energy_saved : option float
}.

(** The body of the loop of [optimize_energy_usage]. *)
Definition optimize_one (pf : ACPathfinder) (info : path_info) : result path_info :=
  let original_path := path info in
  let original_energy := energy_cost info in
  optimized_path ← _optimize_path_turns pf original_path;
  let optimized_energy := _calculate_energy_cost optimized_path in
  if (optimized_energy <? original_energy)%float
  then Ok {| target_index := target_index info;
             target_position := target_position info;
             path := optimized_path;
             steps := length optimized_path;
             energy_cost := optimized_energy;
             energy_saved := Some (original_energy - optimized_energy)%float |}
  else Ok {| target_index := target_index info;
             target_position := target_position info;
             path := path info;
             steps := steps info;
             energy_cost := energy_cost info;
             energy_saved := Some 0.0%float |}.

Fixpoint optimize_energy_usage (pf : ACPathfinder) (path_info_list : list path_info)
  : result (list path_info) :=
  match path_info_list with
  | [] => Ok []
  | info :: infos =>
      optimized_info ← optimize_one pf info;
      optimized_paths ← optimize_energy_usage pf infos;
      Ok (optimized_info :: optimized_paths)
  end.

(** *** The cost model as the specification words it *)






(** *** Vocabulary for the optimiser *)

(** The stored cost is the cost of the stored path. *)
Definition consistent (info : path_info) : Prop :=
  energy_cost info = _calculate_energy_cost (path info).


(** What [optimize_energy_usage] does to one record [r], giving [o]:
    [optimized_path] is the simplified path of [r]. *)
Definition replaced_by (r o : path_info) (optimized_path : list position) : Prop :=
  target_index o = target_index r ∧
  target_position o = target_position r ∧
  path o = optimized_path ∧
  steps o = length optimized_path ∧
  energy_cost o = _calculate_energy_cost optimized_path ∧
  energy_saved o
  = Some (energy_cost r - _calculate_energy_cost optimized_path)%float.

Definition kept_as (r o : path_info) : Prop :=
  target_index o = target_index r ∧
  target_position o = target_position r ∧
  path o = path r ∧
  steps o = steps r ∧
  energy_cost o = energy_cost r ∧
  energy_saved o = Some 0.0%float.

End Float64.

(** ** Records and paths for the examples in binary64 *)

(** The route through the hall, stored with the cost of its path as the
    router stores it. *)
Definition hall_info64 : Float64.path_info :=
  {| Float64.target_index := 0; Float64.target_position := (0, 0, 4);
     Float64.path := hall_path; Float64.steps := 5;
     Float64.energy_cost := Float64._calculate_energy_cost hall_path;
     Float64.energy_saved := None |}.

(** An open floor of five rows and five columns. *)
Definition terrace : matrix :=
  [[["S"; "."; "."; "."; "."];
    ["."; "."; "."; "."; "."];
    ["."; "."; "."; "."; "."];
    ["."; "."; "."; "."; "."];
    ["."; "."; "."; "."; "R"]]]%string.

Definition terrace_pf : ACPathfinder :=
  {| building := terrace; floors := 1; rows := 5; cols := 5;
     source := Some (0, 0, 0); targets := [(0, 4, 4)]; stairs := [] |}.

(** Eight moves down a staircase: a turn at every move but the first. *)
Definition staircase : list position :=
  [(0, 0, 0); (0, 0, 1); (0, 1, 1); (0, 1, 2); (0, 2, 2); (0, 2, 3);
   (0, 3, 3); (0, 3, 4); (0, 4, 4)].

(** A record of the staircase with the cost written by hand as 12.3, the
    exact sum of its sixteen base and move terms and seven turns. *)
Definition staircase_info64 : Float64.path_info :=
  {| Float64.target_index := 0; Float64.target_position := (0, 4, 4);
     Float64.path := staircase; Float64.steps := 9;
     Float64.energy_cost := 12.3;
     Float64.energy_saved := None |}.

(** Three and ten moves along a line. *)
Definition three_moves : list position :=
  [(0, 0, 0); (0, 0, 1); (0, 0, 2); (0, 0, 3)].

Definition ten_moves : list position :=
  (λ c, (0, 0, c)) <$> seqZ 0 11.

(** * Further parts of the program *)

(** ** Floor changes *)

(** [_can_change_floor]: a stair under the current position, or a stair at
    the same row and column of the target floor. *)
Definition _can_change_floor (pf : ACPathfinder) (current_pos : position)
  (target_floor : Z) : result bool :=
  let '(f, r, c) := current_pos in
  cell ← building_at (building pf) f r c;
  if String.eqb cell "T" then Ok true
  else if in_bounds pf target_floor r c
       then cell' ← building_at (building pf) target_floor r c;
            Ok (String.eqb cell' "T")
       else Ok false.

(** ** Vocabulary for the grid scans *)

(** The cell at [p] reads as [symbol]. *)
Definition has_symbol (b : matrix) (symbol : string) (p : position) : bool :=
  let '(f, r, c) := p in
  match building_at b f r c with
  | Ok cell => String.eqb cell symbol
  | Raise _ => false
  end.

(** The matrix has a cell wherever the three loops look: every floor has
    at least [nr] rows and each of its first [nr] rows at least [nc]
    columns. *)
Definition covers (b : matrix) (nr nc : Z) : Prop :=
  Forall (fun fl : list (list string) =>
            nr ≤ Z.of_nat (length fl) ∧
            Forall (fun rw : list string => nc ≤ Z.of_nat (length rw))
                   (take (Z.to_nat nr) fl)) b.

(** [self.rows] and [self.cols] as [__init__] computes them. *)
Definition rows_of (b : matrix) : Z :=
  match b with
  | [] => 0
  | fl0 :: _ => Z.of_nat (length fl0)
  end.

Definition cols_of (b : matrix) : Z :=
  match b with
  | (rw0 :: _) :: _ => Z.of_nat (length rw0)
  | _ => 0
  end.

(** A matrix whose second floor is shorter than the first. *)
Definition short_floor : matrix := [[["S"]; ["R"]]; [["."]]]%string.

(** ** Vocabulary for shortest walks *)

(** [w] is a walk of the router from [src] to [p]. *)
Definition walk (pf : ACPathfinder) (src p : position) (w : list position)
  : Prop :=
  head w = Some src ∧ last w = Some p ∧ chain (bfs_move pf) w.

(** The queue holds the entries of one level [L] (paths of [L] positions)
    followed by entries of the next level; each entry carries a shortest
    walk to its position; every position within [L] positions of the
    source has been visited. *)
Definition level_inv (pf : ACPathfinder) (src : position) (st : bfs_state)
  : Prop :=
  ∃ (L : nat) (qa qb : list (position * list position)),
    queue st = qa ++ qb ∧
    (qa = [] → qb = []) ∧
    Forall (fun e => length e.2 = L) qa ∧
    Forall (fun e => length e.2 = S L) qb ∧
    (∀ e w, e ∈ queue st → walk pf src e.1 w → (length e.2 ≤ length w)%nat) ∧
    (∀ p w, walk pf src p w → (length w ≤ L)%nat → p ∈ visited st).

(** ** The main program *)

(** The data flow of the [__main__] block after the building has been
    read: nothing to do for an empty matrix; otherwise construct the
    pathfinder, route, and, when there are routes, simplify them and attach
    to each record its dense ['visual_path']. *)
Definition main_routes (fuel : nat) (building_matrix : matrix)
  : option (result (list (path_info * list position))) :=
  match building_matrix with
  | [] => Some (Ok [])
  | _ =>
      match init building_matrix with
      | Raise e => Some (Raise e)
      | Ok pathfinder =>
          match bfs_pathfinding fuel pathfinder with
          | None => None
          | Some (Raise e) => Some (Raise e)
          | Some (Ok []) => Some (Ok [])
          | Some (Ok bfs_paths) =>
              match optimize_energy_usage pathfinder bfs_paths with
              | Raise e => Some (Raise e)
              | Ok optimized_paths_info =>
                  Some (Ok ((fun info => (info, _expand_path (path info)))
                            <$> optimized_paths_info))
              end
          end
      end
  end.

(** A walk that wanders before it reaches the room of [corridor]. *)
Definition corridor_detour : list position :=
  [(0, 0, 0); (0, 0, 1); (0, 0, 0); (0, 0, 1); (0, 0, 2)].

(** [a] comes before [b] on [path]. *)
Definition before_on {A : Type} (path : list A) (a b : A) : Prop :=
  ∃ l1 mid l2, path = l1 ++ a :: mid ++ b :: l2.

(** The stretch of [path] that starts at [a] is the dense run from [a] to
    [b]. *)
Definition dense_section (path : list position) (a b : position) : Prop :=
  ∃ l1 l2, path = l1 ++ a :: expand_segment a b ++ l2.

(** [shifts shift n p]: the [n] positions reached from [p] by repeating
    [shift]. *)
Fixpoint shifts (shift : position → position) (n : nat) (p : position)
  : list position :=
  match n with
  | O => []
  | S n' => shift p :: shifts shift n' (shift p)
  end.

(** ** Helpers of the drawing routines *)

(** [l.index(x)]: the index of the first occurrence, [None] for the
    [ValueError] that the callers catch on the spot. *)
Fixpoint py_index {A : Type} `{EqDecision A} (l : list A) (x : A) : option nat :=
  match l with
  | [] => None
  | y :: l' => if decide (y = x) then Some 0%nat else S <$> py_index l' x
  end.

(** The loop [for i, path in enumerate(paths)] of [_get_path_info]. *)
Fixpoint get_path_info_loop (pos : position) (i : nat)
  (paths : list (list position)) (path_indices : list nat) : list nat :=
  match paths with
  | [] => path_indices
  | path :: paths' =>
      get_path_info_loop pos (S i) paths'
        (if bool_decide (pos ∈ path) then path_indices ++ [i] else path_indices)
  end.

Definition _get_path_info (floor_idx row col : Z) (paths : list (list position))
  : option (list nat) :=
  match get_path_info_loop (floor_idx, row, col) 0 paths [] with
  | [] => None
  | path_indices => Some path_indices
  end.

(** [abs(i - j) == 1] on two list indices. *)
Definition index_distance_is_one (i j : nat) : bool :=
  Z.abs (Z.of_nat i - Z.of_nat j) =? 1.

Fixpoint has_vertical_connection_loop (current_pos target_pos : position)
  (paths : list (list position)) : bool :=
  match paths with
  | [] => false
  | path :: paths' =>
      match py_index path current_pos with
      | None => has_vertical_connection_loop current_pos target_pos paths'
      | Some current_pos_index =>
          match py_index path target_pos with
          | None => has_vertical_connection_loop current_pos target_pos paths'
          | Some target_pos_index =>
              if index_distance_is_one current_pos_index target_pos_index
              then true
              else has_vertical_connection_loop current_pos target_pos paths'
          end
      end
  end.

Definition _has_vertical_connection (floor_idx row col : Z)
  (paths : list (list position)) (is_top : bool) : bool :=
  let target_row := if is_top then row - 1 else row + 1 in
  has_vertical_connection_loop (floor_idx, row, col)
    (floor_idx, target_row, col) paths.

(** The four flags of [_get_path_char_for_pos]. *)
Record connections : Type := {
  has_up : bool;
  has_down : bool;
  has_left : bool;
  has_right : bool
}.

Definition no_connection : connections :=
  {| has_up := false; has_down := false; has_left := false; has_right := false |}.

(** The four [if]s that compare a neighbour [(qf, qr, qc)] on the path with
    the position [(f, r, c)], run only when both are on one floor. *)
Definition connect (pos neighbour : position) (k : connections) : connections :=
  let '(f, r, c) := pos in
  let '(qf, qr, qc) := neighbour in
  if f =? qf then
    {| has_up := if qr <? r then true else has_up k;
       has_down := if qr >? r then true else has_down k;
       has_left := if qc <? c then true else has_left k;
       has_right := if qc >? c then true else has_right k |}
  else k.

(** The final cascade of [return]s. *)
Definition path_char_of (k : connections) : string :=
  if has_up k && has_down k then "│"
  else if has_left k && has_right k then "─"
  else if has_down k && has_right k then "┌"
  else if has_down k && has_left k then "┐"
  else if has_up k && has_right k then "└"
  else if has_up k && has_left k then "┘"
  else if (has_up k || has_down k) && (has_left k || has_right k) then "┼"
  else if has_up k || has_down k then "│"
  else if has_left k || has_right k then "─"
  else "·".

(** The flags after the look at the position before and the position
    after index [idx] of the path. *)
Definition path_connections (pos : position) (path : list position)
  (idx : nat) : connections :=
  let k := no_connection in
  let k := if (0 <? idx)%nat
           then match path !! (idx - 1)%nat with
                | Some prev => connect pos prev k
                | None => k
                end
           else k in
  let k := if (idx <? length path - 1)%nat
           then match path !! (idx + 1)%nat with
                | Some next => connect pos next k
                | None => k
                end
           else k in
  k.

Definition _get_path_char_for_pos (pf : ACPathfinder) (pos : position)
  (path : list position) : result string :=
  let '(f, r, c) := pos in
  symbol ← building_at (building pf) f r c;
  if String.eqb symbol "S" || String.eqb symbol "R" || String.eqb symbol "T"
  then Ok symbol
  else
    match py_index path pos with
    | None => Ok "·"%string
    | Some idx => Ok (path_char_of (path_connections pos path idx))
    end.

(** ** The blueprint *)

(** [l[i] = x] *)
Definition py_setitem {A : Type} (l : list A) (i : Z) (x : A) : result (list A) :=
  let n := Z.of_nat (length l) in
  let j := if i <? 0 then i + n else i in
  if (0 <=? j) && (j <? n)
  then Ok (<[Z.to_nat j := x]> l)
  else Raise IndexError.

(** The canvas of one floor: a list of rows of one-character cells. *)
Abbreviation canvas := (list (list string)) (only parsing).

(** [canvas[r][c] = char] *)
Definition canvas_set (cv : canvas) (r c : Z) (char : string) : result canvas :=
  row ← py_getitem cv r;
  row' ← py_setitem row c char;
  py_setitem cv r row'.

(** A record as the drawing routines see it: the dictionary of the route
    and its key ['visual_path'], when it has been set. *)
Definition blueprint_info : Type := path_info * option (list position).

(** [info.get('visual_path', info['path'])] *)
Definition path_to_use (info : blueprint_info) : list position :=
  default (path info.1) info.2.

(** The pairs of the loops [for r in range(rows): for c in range(cols)]. *)
Definition grid_cells (nr nc : Z) : list (Z * Z) :=
  r ← py_range 0 nr; c ← py_range 0 nc; [(r, c)].

(** What the first pass writes for a cell, if it writes. *)
Definition base_char (symbol : string) (on_path : bool) : option string :=
  if String.eqb symbol "W" then Some "█"%string
  else if String.eqb symbol "S" then Some "S"%string
  else if String.eqb symbol "R" then Some "R"%string
  else if String.eqb symbol "T" then Some "T"%string
  else if negb on_path then Some "·"%string
  else None.

(** The first pass of [_draw_floor_blueprint_revised]. *)
Fixpoint draw_building (pf : ACPathfinder) (floor_idx : Z)
  (all_path_coords : gset position) (cells : list (Z * Z)) (cv : canvas)
  : result canvas :=
  match cells with
  | [] => Ok cv
  | (r, c) :: cells' =>
      symbol ← building_at (building pf) floor_idx r c;
      cv' ← match base_char symbol
                    (bool_decide ((floor_idx, r, c) ∈ all_path_coords)) with
            | Some char => canvas_set cv r c char
            | None => Ok cv
            end;
      draw_building pf floor_idx all_path_coords cells' cv'
  end.

(** The loop [for i, pos in enumerate(path)] of the second pass; [rest] is
    what is left of [path]. *)
Fixpoint draw_path (pf : ACPathfinder) (floor_idx : Z) (path rest : list position)
  (cv : canvas) : result canvas :=
  match rest with
  | [] => Ok cv
  | (f, r, c) :: rest' =>
      if f =? floor_idx then
        path_char ← _get_path_char_for_pos pf (f, r, c) path;
        cv' ← canvas_set cv r c path_char;
        draw_path pf floor_idx path rest' cv'
      else draw_path pf floor_idx path rest' cv
  end.

(** The second pass: [for info in paths_info]. *)
Fixpoint draw_paths (pf : ACPathfinder) (floor_idx : Z)
  (paths_info : list blueprint_info) (cv : canvas) : result canvas :=
  match paths_info with
  | [] => Ok cv
  | info :: paths_info' =>
      cv' ← draw_path pf floor_idx (path_to_use info) (path_to_use info) cv;
      draw_paths pf floor_idx paths_info' cv'
  end.

(** [_draw_floor_blueprint_revised] up to its third pass, which prints
    the canvas: the result is the canvas that is printed. *)
Definition _draw_floor_blueprint_revised (pf : ACPathfinder) (floor_idx : Z)
  (paths_info : list blueprint_info) (all_path_coords : gset position)
  : result canvas :=
  let cv := replicate (Z.to_nat (rows pf))
                      (replicate (Z.to_nat (cols pf)) " "%string) in
  cv ← draw_building pf floor_idx all_path_coords
         (grid_cells (rows pf) (cols pf)) cv;
  draw_paths pf floor_idx paths_info cv.

(** The loop [for floor_idx in range(self.floors)]. *)
Fixpoint draw_floors (pf : ACPathfinder) (floor_idxs : list Z)
  (paths_info : list blueprint_info) (all_path_coords : gset position)
  : result (list canvas) :=
  match floor_idxs with
  | [] => Ok []
  | floor_idx :: floor_idxs' =>
      cv ← _draw_floor_blueprint_revised pf floor_idx paths_info all_path_coords;
      cvs ← draw_floors pf floor_idxs' paths_info all_path_coords;
      Ok (cv :: cvs)
  end.

(** [create_professional_blueprint]: the canvases it has printed, floor
    by floor. *)
Definition create_professional_blueprint (pf : ACPathfinder)
  (paths_info : list blueprint_info) : result (list canvas) :=
  match paths_info with
  | [] => Ok []
  | _ =>
      let all_path_coords : gset position :=
        list_to_set (info ← paths_info; path_to_use info) in
      draw_floors pf (py_range 0 (floors pf)) paths_info all_path_coords
  end.

(** The records as the main program hands them to the blueprint: each
    with its dense visual path. *)
Definition with_visual_paths (optimized_paths_info : list path_info)
  : list blueprint_info :=
  (λ info, (info, Some (_expand_path (path info)))) <$> optimized_paths_info.

(** The main program from the constructor to the blueprint. *)
Definition main_blueprint (fuel : nat) (building_matrix : matrix)
  : option (result (list canvas)) :=
  match building_matrix with
  | [] => Some (Ok [])
  | _ =>
      match init building_matrix with
      | Raise e => Some (Raise e)
      | Ok pathfinder =>
          match bfs_pathfinding fuel pathfinder with
          | None => None
          | Some (Raise e) => Some (Raise e)
          | Some (Ok []) => Some (Ok [])
          | Some (Ok bfs_paths) =>
              match optimize_energy_usage pathfinder bfs_paths with
              | Raise e => Some (Raise e)
              | Ok optimized_paths_info =>
                  Some (create_professional_blueprint pathfinder
                          (with_visual_paths optimized_paths_info))
              end
          end
      end
  end.

(** The cell of a canvas at row [r] and column [c], both from 0. *)
Definition canvas_at (cv : canvas) (r c : Z) : option string :=
  row ← cv !! Z.to_nat r; row !! Z.to_nat c.

(** A canvas of [nr] rows of [nc] cells. *)
Definition canvas_shape (cv : canvas) (nr nc : Z) : Prop :=
  Z.of_nat (length cv) = nr ∧ Forall (λ row, Z.of_nat (length row) = nc) cv.

(** The last of the paths that pass through [pos]. *)
Definition last_path_through (pos : position) (paths : list (list position))
  : option (list position) :=
  last (filter (λ p, pos ∈ p) paths).

(** ** The numbers of the legend *)

(** [steps] of a line of [_draw_energy_legend]: the length of the visual
    path, or of the path when there is none. *)
Definition legend_steps (info : blueprint_info) : nat :=
  length (path_to_use info).

(** [efficiency = energy / steps if steps > 0 else 0] *)
Definition legend_efficiency (info : blueprint_info) : Q :=
  if (0 <? legend_steps info)%nat
  then (energy_cost info.1 / inject_Z (Z.of_nat (legend_steps info)))%Q
  else 0%Q.

(** The loop that adds up [total_energy] and [total_steps]. *)
Definition legend_totals (paths_info : list blueprint_info) : Q * nat :=
  foldl (λ (totals : Q * nat) info,
           ((totals.1 + energy_cost info.1)%Q,
            (totals.2 + legend_steps info)%nat))
        (0%Q, 0%nat) paths_info.

(** [avg_efficiency = total_energy / total_steps if total_steps > 0 else 0] *)
Definition legend_avg_efficiency (paths_info : list blueprint_info) : Q :=
  let '(total_energy, total_steps) := legend_totals paths_info in
  if (0 <? total_steps)%nat
  then (total_energy / inject_Z (Z.of_nat total_steps))%Q
  else 0%Q.

(** ** Reading the building from a file *)

(** A character of the file is its code point, a line the list of its
    characters.  [isspace] is [str.isspace] on one character, the table
    that [str.strip] consults; it belongs to the interpreter, so the
    reader takes it as a parameter. *)
Definition pystr : Type := list N.

Module chars.

Definition space : N := 32.
Definition dash : N := 45.
Definition dot : N := 46.
Definition bracket : N := 93.
Definition R : N := 82.
Definition S : N := 83.
Definition T : N := 84.
Definition W : N := 87.

End chars.

(** The set [map_chars = {'S', 'R', 'T', 'W', '.'}]. *)
Definition map_chars : list N :=
  [chars.S; chars.R; chars.T; chars.W; chars.dot].

(** The one-character string of a cell. *)
Definition cell_of (c : N) : string := String (Ascii.ascii_of_N c) EmptyString.

Fixpoint lstrip (isspace : N → bool) (s : pystr) : pystr :=
  match s with
  | [] => []
  | c :: s' => if isspace c then lstrip isspace s' else s
  end.

(** [s.strip()] *)
Definition strip (isspace : N → bool) (s : pystr) : pystr :=
  reverse (lstrip isspace (reverse (lstrip isspace s))).

(** What follows the first [sep] in [s], if there is one. *)
Fixpoint after_first (sep : N) (s : pystr) : option pystr :=
  match s with
  | [] => None
  | c :: s' => if (c =? sep)%N then Some s' else after_first sep s'
  end.

(** [s.split(sep, 1)[-1]] *)
Definition split_once_last (sep : N) (s : pystr) : pystr :=
  default s (after_first sep s).

(** [[char for char in line.replace(" ", "") if char in map_chars]] *)
Definition row_of_line (line : pystr) : list string :=
  cell_of <$> filter (λ char, char ∈ map_chars)
                     (filter (λ char, char ≠ chars.space) line).

(** One turn of the loop [for line in f]; the state is
    [(building, floor_data)]. *)
Definition read_line (isspace : N → bool)
  (st : matrix * list (list string)) (raw : pystr)
  : matrix * list (list string) :=
  let '(building, floor_data) := st in
  let line := strip isspace raw in
  match line with
  | [] => st
  | _ =>
      if bool_decide (line = [chars.dash; chars.dash; chars.dash]) then
        (match floor_data with
         | [] => building
         | _ => building ++ [floor_data]
         end, [])
      else
        let line := if bool_decide (chars.bracket ∈ line)
                    then strip isspace (split_once_last chars.bracket line)
                    else line in
        match row_of_line line with
        | [] => st
        | row => (building, floor_data ++ [row])
        end
  end.

(** The two nested loops that compute [max_cols]. *)
Definition max_cols_of (building : matrix) : Z :=
  foldl (λ max_cols floor,
           foldl (λ max_cols (row : list string),
                    if Z.of_nat (length row) >? max_cols
                    then Z.of_nat (length row) else max_cols)
                 max_cols floor)
        0 building.

(** [row.extend(['.'] * (max_cols - current_len))] when the row is short. *)
Definition sanitize_row (max_cols : Z) (row : list string) : list string :=
  let current_len := Z.of_nat (length row) in
  if current_len <? max_cols
  then row ++ replicate (Z.to_nat (max_cols - current_len)) "."%string
  else row.

(** [read_building_from_file]; [file] is [None] when opening or reading
    the file raises (both [except] clauses return the empty list), and the
    list of the lines of the file otherwise. *)
Definition read_building_from_file (isspace : N → bool)
  (file : option (list pystr)) : matrix :=
  match file with
  | None => []
  | Some lines =>
      let '(building, floor_data) := foldl (read_line isspace) ([], []) lines in
      let building : matrix := match floor_data with
                      | [] => building
                      | _ => building ++ [floor_data]
                      end in
      match building with
      | [] => []
      | _ =>
          let max_cols := max_cols_of building in
          (λ floor : list (list string), sanitize_row max_cols <$> floor)
            <$> building
      end
  end.

(** The symbols of a plan, as cells. *)
Definition plan_cell (cell : string) : Prop :=
  cell ∈ ["S"; "R"; "T"; "W"; "."]%string.

(** Rows that hold at least one cell, and plan symbols only. *)
Definition plan_rows (floor : list (list string)) : Prop :=
  Forall (λ row, row ≠ [] ∧ Forall plan_cell row) floor.

Definition plan_floors (building : matrix) : Prop :=
  Forall (λ floor, floor ≠ [] ∧ plan_rows floor) building.

(** The whitespace among the first 128 code points. *)
Definition ascii_isspace (c : N) : bool :=
  bool_decide (c ∈ [9; 10; 11; 12; 13; 28; 29; 30; 31; 32]%N).

(** The code points of a text written with the first 128 characters. *)
Definition codes (s : string) : pystr := Ascii.N_of_ascii <$> String.list_ascii_of_string s.

(** A plan of two floors with a title, labels and a short row. *)
Definition plan_file : option (list pystr) :=
  Some (codes <$> ["Denah"; "[Lantai 1] S . R"; "           . T"; "";
                   "---"; "[Lantai 2] . . ."; "W T R"; "---"])%string.
(** * Properties *)

(** ** Cost model *)




(** The sum is rounded at every addition. Three moves along a line cost
    3.3000000000000003, which is above the binary64 number 3.3, and ten
    cost 10.999999999999998, which is below 11.0. *)
Lemma calculate_energy_cost_three_moves :
  Float64._calculate_energy_cost three_moves = 3.3000000000000003%float ∧
  PrimFloat.ltb 3.3 (Float64._calculate_energy_cost three_moves) = true.
Proof. split; vm_compute; reflexivity. Qed.

Lemma calculate_energy_cost_ten_moves :
  Float64._calculate_energy_cost ten_moves = 10.999999999999998%float ∧
  PrimFloat.ltb (Float64._calculate_energy_cost ten_moves) 11.0 = true.
Proof. split; vm_compute; reflexivity. Qed.

(** The two moves of the corridor cost 2.2 in binary64 as well. *)
Lemma calculate_energy_cost_corridor64 :
  Float64._calculate_energy_cost corridor_path = 2.2%float ∧
  PrimFloat.ltb (Float64._calculate_energy_cost corridor_path) 3.3 = true.
Proof. split; vm_compute; reflexivity. Qed.

(** ** Path densifier *)

Lemma expand_loop_tail (rest dense_path : list position) (start_pos : position) :
  expand_loop dense_path start_pos rest = dense_path ++ expand_tail start_pos rest.
Proof.
  revert dense_path start_pos.
  induction rest as [|e rest IH]; intros dense_path start_pos; cbn.
  - by rewrite app_nil_r.
  - by rewrite IH, <- (assoc_L (++)).
Qed.

Lemma expand_path_cons (p0 : position) (rest : list position) :
  _expand_path (p0 :: rest) = p0 :: expand_tail p0 rest.
Proof.
  destruct rest as [|p1 rest]; [reflexivity|].
  unfold _expand_path. by rewrite expand_loop_tail.
Qed.

Lemma expand_segment_snoc (a b : position) :
  ∃ mid, expand_segment a b = mid ++ [b].
Proof.
  destruct a as [[f1 r1] c1], b as [[f2 r2] c2]. unfold expand_segment.
  destruct (negb (f1 =? f2)); [by exists []|].
  destruct (c1 =? c2); [by eexists|].
  destruct (r1 =? r2); [by eexists|by exists []].
Qed.

Lemma last_expand_tail (rest : list position) (p0 : position) :
  last (p0 :: expand_tail p0 rest) = last (p0 :: rest).
Proof.
  revert p0. induction rest as [|e rest IH]; intros p0; [reflexivity|].
  cbn [expand_tail].
  destruct (expand_segment_snoc p0 e) as [mid ->].
  rewrite <- (assoc_L (++)). cbn [app].
  rewrite (last_cons_cons p0 e).
  rewrite <- IH.
  change (p0 :: mid ++ e :: expand_tail e rest)
    with ((p0 :: mid) ++ e :: expand_tail e rest).
  by rewrite last_app_cons.
Qed.

Lemma py_range_step_line (r1 r2 : Z) :
  let step := if r2 >? r1 then 1 else -1 in
  py_range_step (r1 + step) r2 step
  = (fun k => r1 + step * (k + 1)) <$> seqZ 0 (Z.abs (r2 - r1) - 1).
Proof.
  unfold py_range_step. destruct (Z.gtb_spec r2 r1) as [Hgt|Hle]; cbn zeta.
  - change (0 <? 1) with true. cbn match.
    replace (Z.abs (r2 - r1) - 1) with (r2 - (r1 + 1)) by lia.
    trans (Z.add (r1 + 1) <$> seqZ 0 (r2 - (r1 + 1))).
    { by rewrite fmap_add_seqZ, Z.add_0_r. }
    apply list_fmap_ext. intros _ k _. lia.
  - change (0 <? -1) with false. cbn match.
    replace (Z.abs (r2 - r1) - 1) with (r1 + -1 - r2) by lia.
    apply list_fmap_ext. intros _ k _. lia.
Qed.

Lemma dense_pair_segment (a b : position) :
  dense_pair a b = true → expand_segment a b = [b].
Proof.
  destruct a as [[f1 r1] c1], b as [[f2 r2] c2].
  unfold dense_pair, expand_segment.
  destruct (negb (f1 =? f2)); [done|]. cbn [orb].
  destruct (c1 =? c2).
  - intros H%Z.leb_le. rewrite py_range_step_line.
    rewrite (seqZ_nil 0) by lia. reflexivity.
  - destruct (r1 =? r2); [|done].
    intros H%Z.leb_le. rewrite py_range_step_line.
    rewrite (seqZ_nil 0) by lia. reflexivity.
Qed.

Lemma expand_tail_dense (l : list position) (a : position) :
  dense (a :: l) = true → expand_tail a l = l.
Proof.
  revert a. induction l as [|b l IH]; intros a; [done|].
  cbn [dense]. intros [Hab Hl]%andb_prop.
  cbn [expand_tail]. rewrite (dense_pair_segment a b Hab), (IH b Hl). done.
Qed.

Lemma dense_app (l1 l2 : list position) (x : position) :
  dense (l1 ++ [x]) = true → dense (x :: l2) = true →
  dense (l1 ++ x :: l2) = true.
Proof.
  induction l1 as [|a l1 IH]; [done|].
  destruct l1 as [|b l1].
  - cbn. intros H1 H2. rewrite andb_true_r in H1. rewrite H1. cbn.
    destruct l2; done.
  - change (dense ((a :: b :: l1) ++ [x]))
      with (dense_pair a b && dense ((b :: l1) ++ [x])).
    change (dense ((a :: b :: l1) ++ x :: l2))
      with (dense_pair a b && dense ((b :: l1) ++ x :: l2)).
    intros [-> H1]%andb_prop H2. cbn [andb]. by apply IH.
Qed.

Lemma dense_pair_row (f c r r' : Z) :
  Z.abs (r' - r) ≤ 1 → dense_pair (f, r, c) (f, r', c) = true.
Proof.
  intros H. unfold dense_pair. rewrite !Z.eqb_refl. cbn.
  apply Z.leb_le. lia.
Qed.

Lemma dense_pair_col (f r c c' : Z) :
  Z.abs (c' - c) ≤ 1 → dense_pair (f, r, c) (f, r, c') = true.
Proof.
  intros H. unfold dense_pair. rewrite !Z.eqb_refl. cbn.
  destruct (Z.eqb_spec c c'); apply Z.leb_le; lia.
Qed.

Lemma dense_cons_cons (a b : position) (l : list position) :
  dense (a :: b :: l) = dense_pair a b && dense (b :: l).
Proof. reflexivity. Qed.

(** A straight run of unit steps along the rows (sign [s]) is dense. *)
Lemma dense_row_run (f c s : Z) (n : nat) (r : Z) :
  s = 1 ∨ s = -1 →
  dense ((f, r, c)
         :: ((fun r' => (f, r', c)) <$>
             ((fun k => r + s * (k + 1)) <$> seqZ 0 (Z.of_nat n)))
         ++ [(f, r + s * (Z.of_nat n + 1), c)]) = true.
Proof.
  intros Hs. revert r. induction n as [|n IH]; intros r.
  - rewrite seqZ_nil by done. cbn [fmap list_fmap app].
    rewrite dense_cons_cons, dense_pair_row by lia. done.
  - rewrite seqZ_cons by lia. cbn [fmap list_fmap app].
    replace (Z.pred (Z.of_nat (S n))) with (Z.of_nat n) by lia.
    change (Z.succ 0) with (1 + 0). rewrite <- (fmap_add_seqZ 1 0).
    rewrite <- !list_fmap_compose.
    specialize (IH (r + s)).
    rewrite <- !list_fmap_compose in IH.
    rewrite dense_cons_cons, dense_pair_row by lia. cbn [andb].
    replace (r + s * (0 + 1)) with (r + s) by lia.
    replace (r + s * (Z.of_nat (S n) + 1))
      with (r + s + s * (Z.of_nat n + 1)) by lia.
    erewrite list_fmap_ext; [exact IH|].
    intros _ k _. cbn. f_equal. f_equal. lia.
Qed.

(** The same along the columns. *)
Lemma dense_col_run (f r s : Z) (n : nat) (c : Z) :
  s = 1 ∨ s = -1 →
  dense ((f, r, c)
         :: ((fun c' => (f, r, c')) <$>
             ((fun k => c + s * (k + 1)) <$> seqZ 0 (Z.of_nat n)))
         ++ [(f, r, c + s * (Z.of_nat n + 1))]) = true.
Proof.
  intros Hs. revert c. induction n as [|n IH]; intros c.
  - rewrite seqZ_nil by done. cbn [fmap list_fmap app].
    rewrite dense_cons_cons, dense_pair_col by lia. done.
  - rewrite seqZ_cons by lia. cbn [fmap list_fmap app].
    replace (Z.pred (Z.of_nat (S n))) with (Z.of_nat n) by lia.
    change (Z.succ 0) with (1 + 0). rewrite <- (fmap_add_seqZ 1 0).
    rewrite <- !list_fmap_compose.
    specialize (IH (c + s)).
    rewrite <- !list_fmap_compose in IH.
    rewrite dense_cons_cons, dense_pair_col by lia. cbn [andb].
    replace (c + s * (0 + 1)) with (c + s) by lia.
    replace (c + s * (Z.of_nat (S n) + 1))
      with (c + s + s * (Z.of_nat n + 1)) by lia.
    erewrite list_fmap_ext; [exact IH|].
    intros _ k _. cbn. f_equal. lia.
Qed.

Lemma dense_segment (a b : position) :
  dense (a :: expand_segment a b) = true.
Proof.
  destruct a as [[f1 r1] c1], b as [[f2 r2] c2]. unfold expand_segment.
  destruct (Z.eqb_spec f1 f2) as [<-|Hf]; cbn [negb].
  2:{ rewrite dense_cons_cons. unfold dense_pair.
      destruct (Z.eqb_spec f1 f2); [done|]. done. }
  destruct (Z.eqb_spec c1 c2) as [<-|Hc].
  - rewrite py_range_step_line.
    destruct (decide (r2 = r1)) as [->|Hr].
    + rewrite seqZ_nil by lia. cbn [fmap list_fmap app].
      rewrite dense_cons_cons, dense_pair_row by lia. done.
    + pose proof (dense_row_run f1 c1 (if r2 >? r1 then 1 else -1)
                    (Z.to_nat (Z.abs (r2 - r1) - 1)) r1) as H.
      rewrite Z2Nat.id in H by lia.
      replace (r1 + (if r2 >? r1 then 1 else -1) * (Z.abs (r2 - r1) - 1 + 1))
        with r2 in H by (destruct (Z.gtb_spec r2 r1); lia).
      apply H. destruct (r2 >? r1); auto.
  - destruct (Z.eqb_spec r1 r2) as [<-|Hr].
    + rewrite py_range_step_line.
      pose proof (dense_col_run f1 r1 (if c2 >? c1 then 1 else -1)
                    (Z.to_nat (Z.abs (c2 - c1) - 1)) c1) as H.
      rewrite Z2Nat.id in H by lia.
      replace (c1 + (if c2 >? c1 then 1 else -1) * (Z.abs (c2 - c1) - 1 + 1))
        with c2 in H by (destruct (Z.gtb_spec c2 c1); lia).
      apply H. destruct (c2 >? c1); auto.
    + rewrite dense_cons_cons. unfold dense_pair.
      rewrite Z.eqb_refl. cbn.
      destruct (Z.eqb_spec c1 c2); [done|].
      destruct (Z.eqb_spec r1 r2); done.
Qed.

Lemma dense_expand_tail (rest : list position) (p0 : position) :
  dense (p0 :: expand_tail p0 rest) = true.
Proof.
  revert p0. induction rest as [|e rest IH]; intros p0; [done|].
  cbn [expand_tail].
  pose proof (dense_segment p0 e) as Hseg.
  destruct (expand_segment_snoc p0 e) as [mid Hmid]. rewrite Hmid in *.
  rewrite <- (assoc_L (++)). cbn [app].
  change (p0 :: mid ++ e :: expand_tail e rest)
    with ((p0 :: mid) ++ e :: expand_tail e rest).
  apply dense_app; [exact Hseg|apply IH].
Qed.

Lemma expand_path_dense (path : list position) :
  dense (_expand_path path) = true.
Proof.
  destruct path as [|p0 rest]; [done|].
  rewrite expand_path_cons. apply dense_expand_tail.
Qed.

Lemma expand_path_id_on_dense (path : list position) :
  dense path = true → _expand_path path = path.
Proof.
  destruct path as [|p0 rest]; [done|].
  intros H. rewrite expand_path_cons. by rewrite expand_tail_dense.
Qed.

(** C6. [_expand_path] keeps the first and the last element of every
    path and is idempotent:
    [_expand_path (_expand_path p) = _expand_path p]. Its result is dense,
    and on a path that is dense already it is the identity. *)
Theorem expand_path_endpoints_idempotent (p : list position) :
  head (_expand_path p) = head p ∧
  last (_expand_path p) = last p ∧
  _expand_path (_expand_path p) = _expand_path p ∧
  dense (_expand_path p) = true ∧
  (dense p = true → _expand_path p = p).
Proof.
  split; [|split; [|split; [|split]]].
  - destruct p as [|p0 rest]; [done|]. by rewrite expand_path_cons.
  - destruct p as [|p0 rest]; [done|].
    rewrite expand_path_cons. apply last_expand_tail.
  - apply expand_path_id_on_dense, expand_path_dense.
  - apply expand_path_dense.
  - apply expand_path_id_on_dense.
Qed.

Lemma expand_path_endpoints_idempotent_witness :
  _expand_path [(0, 0, 0); (0, 0, 1); (0, 0, 2); (1, 0, 2); (1, 1, 2)]
  = [(0, 0, 0); (0, 0, 1); (0, 0, 2); (1, 0, 2); (1, 1, 2)].
Proof.
  apply (proj2 (proj2 (proj2 (proj2
           (expand_path_endpoints_idempotent
              [(0, 0, 0); (0, 0, 1); (0, 0, 2); (1, 0, 2); (1, 1, 2)]))))).
  reflexivity.
Defined.

(** ** Path simplifier: direct reachability *)

Lemma is_valid_position_true (pf : ACPathfinder) (f r c : Z) :
  _is_valid_position pf f r c = Ok true ↔ valid_cell pf (f, r, c).
Proof.
  unfold _is_valid_position, valid_cell.
  destruct (in_bounds pf f r c); [|split; [done|by intros [? _]]].
  destruct (building_at (building pf) f r c) as [cell|e]; cbn.
  - destruct (String.eqb_spec cell "W") as [->|Hne]; cbn.
    + split; [done|]. intros [_ (cell & [= <-] & Hne)]. done.
    + split; [|done]. intros _. split; [done|]. by exists cell.
  - split; [done|]. intros [_ (cell & ? & _)]. done.
Qed.

Lemma all_valid_true (pf : ACPathfinder) (cells : list position) :
  all_valid pf cells = Ok true → ∀ p, p ∈ cells → valid_cell pf p.
Proof.
  induction cells as [|[[f r] c] cells IH]; intros H p Hp.
  - by apply elem_of_nil in Hp.
  - cbn [all_valid] in H.
    destruct (_is_valid_position pf f r c) as [[|]|e] eqn:Hv; cbn in H; try done.
    apply elem_of_cons in Hp as [->|Hp]; [|by apply IH].
    by apply is_valid_position_true.
Qed.

Lemma can_go_direct_straight_clear (pf : ACPathfinder) (a b : position) :
  _can_go_direct pf a b = Ok true → straight_clear pf a b.
Proof.
  destruct a as [[f1 r1] c1], b as [[f2 r2] c2].
  unfold _can_go_direct, straight_clear.
  destruct (Z.eqb_spec f1 f2) as [<-|Hf]; cbn [negb]; [|done].
  destruct (Z.eqb_spec r1 r2) as [<-|Hr]; cbn [negb andb].
  - intros H. split; [done|]. split; [by left|].
    intros [[f r] c] [-> Hb].
    apply (all_valid_true _ _ H).
    apply list_elem_of_fmap. unfold py_range.
    destruct Hb as [(_ & -> & Hc)|(<- & -> & Hrr)]; [|lia].
    exists c. split; [done|]. apply elem_of_seqZ. lia.
  - destruct (Z.eqb_spec c1 c2) as [<-|Hc]; cbn [negb]; [|done].
    intros H. split; [done|]. split; [by right|].
    intros [[f r] c] [-> Hb].
    apply (all_valid_true _ _ H).
    apply list_elem_of_fmap. unfold py_range.
    destruct Hb as [(-> & _ & _)|(_ & -> & Hrr)]; [done|].
    exists r. split; [done|]. apply elem_of_seqZ. lia.
Qed.

Lemma optimize_loop_cons (pf : ACPathfinder) (optimized : list position)
  (prev_pos curr next : position) (rest : list position) :
  optimize_loop pf optimized prev_pos (curr :: next :: rest)
  = (direct ← _can_go_direct pf prev_pos next;
     if (direct : bool) then optimize_loop pf optimized prev_pos (next :: rest)
     else optimize_loop pf (optimized ++ [curr]) curr (next :: rest)).
Proof. reflexivity. Qed.

Lemma optimize_tail_cons (pf : ACPathfinder) (prev_pos curr next : position)
  (rest : list position) :
  optimize_tail pf prev_pos (curr :: next :: rest)
  = (direct ← _can_go_direct pf prev_pos next;
     if (direct : bool) then optimize_tail pf prev_pos (next :: rest)
     else out ← optimize_tail pf curr (next :: rest); Ok (curr :: out)).
Proof. reflexivity. Qed.

Lemma optimize_loop_tail (pf : ACPathfinder) (rest optimized : list position)
  (prev_pos : position) :
  optimize_loop pf optimized prev_pos rest
  = (out ← optimize_tail pf prev_pos rest; Ok (optimized ++ out)).
Proof.
  revert optimized prev_pos.
  induction rest as [|curr rest IH]; intros optimized prev_pos.
  - cbn. by rewrite app_nil_r.
  - destruct rest as [|next rest]; [done|].
    rewrite optimize_loop_cons, optimize_tail_cons, !IH.
    destruct (_can_go_direct pf prev_pos next) as [[|]|e]; [done| |done].
    destruct (optimize_tail pf curr (next :: rest)) as [out|e]; [|done].
    cbn. by rewrite <- (assoc_L (++)).
Qed.

Lemma optimize_path_turns_cons (pf : ACPathfinder) (p0 : position)
  (rest : list position) :
  _optimize_path_turns pf (p0 :: rest)
  = (out ← optimize_tail pf p0 rest; Ok (p0 :: out)).
Proof.
  destruct rest as [|p1 [|p2 rest]]; [done..|].
  unfold _optimize_path_turns. by rewrite optimize_loop_tail.
Qed.

Lemma chain_impl {A : Type} (P Q : A → A → Prop) (l : list A) :
  (∀ a b, P a b → Q a b) → chain P l → chain Q l.
Proof.
  intros HPQ. induction l as [|a [|b l] IH]; [done..|].
  intros [Hab Hl]. split; [by apply HPQ|by apply IH].
Qed.

Lemma chain_adjacent {A : Type} (l : list A) : chain (adjacent_in l) l.
Proof.
  assert (∀ pre l', l = pre ++ l' → chain (adjacent_in l) l') as H.
  { intros pre l'. revert pre.
    induction l' as [|a [|b l'] IH]; intros pre Heq; [done..|].
    split; [by exists pre, l'|].
    apply (IH (pre ++ [a])). by rewrite <- (assoc_L (++)). }
  by apply (H []).
Qed.

Lemma optimize_tail_chain (pf : ACPathfinder) (P : position → position → Prop)
  (rest : list position) (prev_pos : position) (out : list position) :
  (∀ a b, _can_go_direct pf a b = Ok true → P a b) →
  optimize_tail pf prev_pos rest = Ok out →
  chain P (prev_pos :: rest) → chain P (prev_pos :: out).
Proof.
  intros HP. revert prev_pos out.
  induction rest as [|curr rest IH]; intros prev_pos out Hout Hch.
  - by injection Hout as <-.
  - destruct rest as [|next rest]; [by injection Hout as <-|].
    rewrite optimize_tail_cons in Hout.
    destruct Hch as (Hpc & Hcn & Hrest).
    destruct (_can_go_direct pf prev_pos next) as [[|]|e] eqn:Hd;
      [| |done].
    + apply IH; [done|]. split; [by apply HP|done].
    + destruct (optimize_tail pf curr (next :: rest)) as [out'|e] eqn:Ht;
        [|done].
      injection Hout as <-. split; [done|].
      apply IH; [done|]. by split.
Qed.

Lemma can_go_direct_same_floor (pf : ACPathfinder) (a b : position) :
  _can_go_direct pf a b = Ok true → floor_of a = floor_of b.
Proof.
  intros H%can_go_direct_straight_clear.
  destruct a as [[f1 r1] c1], b as [[f2 r2] c2]. by destruct H as [-> _].
Qed.

Lemma adjacent_in_here {A : Type} (a b : A) (l : list A) :
  adjacent_in (a :: b :: l) a b.
Proof. by exists [], l. Qed.

Lemma adjacent_in_further {A : Type} (x a b : A) (l : list A) :
  adjacent_in l a b → adjacent_in (x :: l) a b.
Proof. intros (l1 & l2 & ->). by exists (x :: l1), l2. Qed.

Lemma adjacent_in_cons_inv {A : Type} (x a b : A) (l : list A) :
  adjacent_in (x :: l) a b →
  (x = a ∧ ∃ l', l = b :: l') ∨ adjacent_in l a b.
Proof.
  intros ([|y l1] & l2 & Heq).
  - injection Heq as -> ->. left. split; [done|by eexists].
  - injection Heq as -> ->. right. by exists l1, l2.
Qed.

(** Two moves that leave a floor and come back to it return to the cell
    they started from. *)
Lemma bfs_move_there_and_back (pf : ACPathfinder) (a b c : position) :
  bfs_move pf a b → bfs_move pf b c →
  floor_of a = floor_of c → floor_of a ≠ floor_of b → a = c.
Proof.
  destruct a as [[f1 r1] c1], b as [[f2 r2] c2], c as [[f3 r3] c3].
  unfold floor_of; cbn [fst snd].
  intros [(dr & dc & _ & [= -> -> ->] & _)|(_ & -> & -> & _)]; [done|].
  intros [(dr & dc & _ & [= -> -> ->] & _)|(_ & -> & -> & _)]; [done|].
  by intros ->.
Qed.

(** On a walk of the router that repeats no position, the simplifier
    drops no floor change: the first bound is for a loop state without
    skipped waypoint, the second for one where the waypoints skipped so far
    lie on the floor of [prev_pos]. *)
Lemma optimize_tail_keeps_floor_changes (pf : ACPathfinder) (rest : list position) :
  ∀ (prev_pos : position) (out : list position),
    optimize_tail pf prev_pos rest = Ok out →
    (chain (bfs_move pf) (prev_pos :: rest) → NoDup (prev_pos :: rest) →
     ∀ a b, adjacent_in (prev_pos :: rest) a b → floor_of a ≠ floor_of b →
            adjacent_in (prev_pos :: out) a b) ∧
    (∀ curr rest', rest = curr :: rest' →
       floor_of prev_pos = floor_of curr →
       chain (bfs_move pf) rest → NoDup rest →
       ∀ a b, adjacent_in rest a b → floor_of a ≠ floor_of b →
              adjacent_in (prev_pos :: out) a b).
Proof.
  induction rest as [|curr rest IH]; intros prev_pos out Hout.
  - injection Hout as <-. split; [done|]. by intros ? ? [=].
  - destruct rest as [|next rest].
    + injection Hout as <-. split; [done|].
      intros c rest' [= <- <-] _ _ _ a b ([|? [|? ?]] & l2 & [=]).
    + rewrite optimize_tail_cons in Hout.
      destruct (_can_go_direct pf prev_pos next) as [[|]|e] eqn:Hd; [| |done].
      * destruct (IH prev_pos out Hout) as [_ HB].
        pose proof (can_go_direct_same_floor _ _ _ Hd) as Hfl.
        split.
        -- intros (Hpc & Hcn & Hch) Hnd a b Hadj Hne.
           assert (floor_of prev_pos = floor_of curr) as Hfc.
           { destruct (decide (floor_of prev_pos = floor_of curr)) as [|Hdiff];
               [done|].
             pose proof (bfs_move_there_and_back _ _ _ _ Hpc Hcn Hfl Hdiff) as ->.
             apply NoDup_cons in Hnd as [Hnot _]. destruct Hnot.
             right. left. }
           apply NoDup_cons in Hnd as [_ Hnd]. apply NoDup_cons in Hnd as [_ Hnd].
           apply adjacent_in_cons_inv in Hadj as [[<- (l' & [= <- <-])]|Hadj];
             [done|].
           apply adjacent_in_cons_inv in Hadj as [[<- (l' & [= <- <-])]|Hadj];
             [congruence|].
           by apply (HB next rest eq_refl Hfl Hch Hnd).
        -- intros c rest' [= <- <-] Hfc (Hcn & Hch) Hnd a b Hadj Hne.
           apply NoDup_cons in Hnd as [_ Hnd].
           apply adjacent_in_cons_inv in Hadj as [[<- (l' & [= <- <-])]|Hadj];
             [congruence|].
           by apply (HB next rest eq_refl Hfl Hch Hnd).
      * destruct (optimize_tail pf curr (next :: rest)) as [out'|e] eqn:Ht;
          [|done].
        injection Hout as <-.
        destruct (IH curr out' Ht) as [HA _].
        split.
        -- intros (Hpc & Hch) Hnd a b Hadj Hne.
           apply NoDup_cons in Hnd as [_ Hnd].
           apply adjacent_in_cons_inv in Hadj as [[<- (l' & [= <- <-])]|Hadj];
             [apply adjacent_in_here|].
           apply adjacent_in_further. by apply HA.
        -- intros c rest' [= <- <-] _ Hch Hnd a b Hadj Hne.
           apply adjacent_in_further. by apply HA.
Qed.

(** C7. [_can_go_direct a b] holds only if [a] and [b] are on one floor,
    share their row or their column, and every cell strictly between them
    on that line is in bounds and not a wall. Hence every hop of a
    simplified path is either a hop of the input path or such a straight,
    unobstructed, same-floor run: the simplifier adds no hop across floors
    and no diagonal hop. And from a walk of the router that repeats no
    position it drops no floor change. *)
Theorem can_go_direct_only_straight_clear (pf : ACPathfinder) :
  (∀ a b : position, _can_go_direct pf a b = Ok true → straight_clear pf a b) ∧
  (∀ path out : list position,
     _optimize_path_turns pf path = Ok out →
     chain (fun a b => adjacent_in path a b ∨ straight_clear pf a b) out) ∧
  (∀ path out : list position,
     chain (bfs_move pf) path → NoDup path →
     _optimize_path_turns pf path = Ok out →
     ∀ a b, adjacent_in path a b → floor_of a ≠ floor_of b →
            adjacent_in out a b).
Proof.
  split; [apply can_go_direct_straight_clear|]. split.
  - intros [|p0 rest] out Hout; [by injection Hout as <-|].
    rewrite optimize_path_turns_cons in Hout.
    destruct (optimize_tail pf p0 rest) as [out'|e] eqn:Ht; [|done].
    injection Hout as <-.
    eapply optimize_tail_chain; [|exact Ht|].
    + intros a b H. right. by apply can_go_direct_straight_clear.
    + eapply chain_impl; [|apply chain_adjacent]. intros a b H. by left.
  - intros [|p0 rest] out Hch Hnd Hout a b Hadj Hne;
      [by injection Hout as <-|].
    rewrite optimize_path_turns_cons in Hout.
    destruct (optimize_tail pf p0 rest) as [out'|e] eqn:Ht; [|done].
    injection Hout as <-.
    by apply (optimize_tail_keeps_floor_changes pf rest p0 out' Ht).
Qed.

(** Proves a concrete [bfs_move]: a step in the direction [(dr, dc)], one
    of the four directions, or a stair. *)
Ltac solve_horizontal_step dr dc :=
  exists dr, dc;
  split; [repeat first [apply list_elem_of_here | apply list_elem_of_further]|];
  split; [reflexivity|];
  split; [reflexivity|];
  eexists; split; [reflexivity|discriminate].

Ltac solve_bfs_move :=
  first
    [ left;
      first [ solve_horizontal_step (-1) 0 | solve_horizontal_step 1 0
            | solve_horizontal_step 0 (-1) | solve_horizontal_step 0 1 ]
    | right; repeat split; first [lia | reflexivity | discriminate] ].

Lemma can_go_direct_only_straight_clear_witness :
  straight_clear hall_pf (0, 0, 0) (0, 0, 4) ∧
  chain (fun a b => adjacent_in hall_path a b ∨ straight_clear hall_pf a b)
    hall_short ∧
  adjacent_in two_floors_path (0, 1, 1) (1, 1, 1).
Proof.
  split; [|split].
  - apply (proj1 (can_go_direct_only_straight_clear hall_pf)).
    vm_compute. reflexivity.
  - apply (proj1 (proj2 (can_go_direct_only_straight_clear hall_pf)) hall_path).
    vm_compute. reflexivity.
  - apply (proj2 (proj2 (can_go_direct_only_straight_clear two_floors_pf))
             two_floors_path two_floors_path).
    + repeat split; solve_bfs_move.
    + apply (bool_decide_unpack _). vm_compute. reflexivity.
    + vm_compute. reflexivity.
    + by exists [(0, 0, 0); (0, 1, 0)], [(1, 2, 1); (1, 2, 2)].
    + discriminate.
Defined.

(** ** Path simplifier: cost *)

Lemma energy_step_cases (pp : option position) (prev_pos curr_pos : position)
  (t : Q) :
  let same_floor := bool_decide (floor_of prev_pos = floor_of curr_pos) in
  ∃ move turn : Q,
    (energy_step pp prev_pos curr_pos t == t + (1 # 10) + move + turn)%Q ∧
    (move == 1 ∨ (same_floor = false ∧ (move == 2 ∨ move == 3)))%Q ∧
    (turn == 0 ∨ (is_Some pp ∧ turn == 1 # 2))%Q ∧
    (∀ pp' t', ∃ turn' : Q,
       (energy_step pp' prev_pos curr_pos t' == t' + (1 # 10) + move + turn')%Q ∧
       (turn' == 0 ∨ turn' == 1 # 2)%Q ∧
       (pp' = pp → turn' = turn)).
Proof.
  destruct prev_pos as [[f1 r1] c1], curr_pos as [[f2 r2] c2].
  unfold floor_of; cbn [fst snd]. unfold energy_step.
  unfold energy_costs.base_pressure, energy_costs.horizontal,
    energy_costs.vertical_up, energy_costs.vertical_down, energy_costs.turn.
  set (move := if negb (f2 =? f1) then if f2 >? f1 then 3%Q else 2%Q else 1%Q).
  set (trn := fun o : option position =>
                match o with
                | Some q => if _is_turn q (f1, r1, c1) (f2, r2, c2)
                            then (1 # 2)%Q else 0%Q
                | None => 0%Q
                end).
  assert (Hstep : ∀ o u,
    ((match o with
      | Some q =>
          if _is_turn q (f1, r1, c1) (f2, r2, c2)
          then (if negb (f2 =? f1)
                then if f2 >? f1 then u + (1 # 10) + 3 else u + (1 # 10) + 2
                else u + (1 # 10) + 1) + (1 # 2)
          else (if negb (f2 =? f1)
                then if f2 >? f1 then u + (1 # 10) + 3 else u + (1 # 10) + 2
                else u + (1 # 10) + 1)
      | None => (if negb (f2 =? f1)
                 then if f2 >? f1 then u + (1 # 10) + 3 else u + (1 # 10) + 2
                 else u + (1 # 10) + 1)
      end) == u + (1 # 10) + move + trn o)%Q).
  { intros o u. unfold move, trn.
    destruct o as [q|]; [destruct (_is_turn q _ _)|];
      destruct (negb (f2 =? f1)); try destruct (f2 >? f1); lra. }
  assert (Htrn : ∀ o, (trn o == 0 ∨ trn o == 1 # 2)%Q).
  { intros [q|]; unfold trn;
      [destruct (_is_turn q _ _); [right|left]|left]; reflexivity. }
  exists move, (trn pp). split; [apply Hstep|]. split; [|split].
  - unfold move. destruct (Z.eqb_spec f2 f1) as [->|Hne]; cbn [negb].
    + by left.
    + right. split; [by rewrite bool_decide_eq_false_2 by congruence|].
      destruct (f2 >? f1); [by right|by left].
  - destruct pp as [q|]; cbn; [|by left].
    destruct (_is_turn q _ _); [right; split; [by eexists|done]|by left].
  - intros pp' t'. exists (trn pp'). split; [apply Hstep|].
    split; [apply Htrn|]. by intros ->.
Qed.

Lemma energy_step_shift (pp : option position) (prev_pos curr_pos : position)
  (t : Q) :
  (energy_step pp prev_pos curr_pos t == t + energy_step pp prev_pos curr_pos 0)%Q.
Proof.
  destruct (energy_step_cases pp prev_pos curr_pos t)
    as (move & turn & H1 & _ & _ & H4).
  destruct (H4 pp 0%Q) as (turn' & H5 & _ & H6). rewrite (H6 eq_refl) in H5.
  lra.
Qed.

Lemma energy_loop_shift (rest : list position) (pp : option position)
  (prev_pos : position) (t : Q) :
  (energy_loop pp prev_pos rest t == t + energy_loop pp prev_pos rest 0)%Q.
Proof.
  revert pp prev_pos t. induction rest as [|c rest IH]; intros pp prev_pos t.
  - cbn. lra.
  - cbn [energy_loop].
    rewrite (IH (Some prev_pos) c (energy_step pp prev_pos c t)).
    rewrite (IH (Some prev_pos) c (energy_step pp prev_pos c 0)).
    rewrite (energy_step_shift pp prev_pos c t). lra.
Qed.

Lemma energy_loop_cons (rest : list position) (pp : option position)
  (prev_pos c : position) :
  (energy_loop pp prev_pos (c :: rest) 0 ==
   energy_step pp prev_pos c 0 + energy_loop (Some prev_pos) c rest 0)%Q.
Proof. cbn [energy_loop]. apply energy_loop_shift. Qed.

Lemma energy_step_lower (pp : option position) (prev_pos c : position) :
  (11 # 10 <= energy_step pp prev_pos c 0)%Q.
Proof.
  destruct (energy_step_cases pp prev_pos c 0%Q)
    as (move & turn & H1 & H2 & H3 & _).
  destruct H2 as [?|[_ [?|?]]], H3 as [?|[_ ?]]; lra.
Qed.

Lemma energy_step_change_pred (pp pp' : option position) (prev_pos c : position) :
  (energy_step pp' prev_pos c 0 <= energy_step pp prev_pos c 0 + (1 # 2))%Q.
Proof.
  destruct (energy_step_cases pp prev_pos c 0%Q)
    as (move & turn & H1 & H2 & H3 & H4).
  destruct (H4 pp' 0%Q) as (turn' & H5 & H6 & _).
  destruct H3 as [?|[_ ?]], H6 as [?|?]; lra.
Qed.

Lemma energy_step_same_floor (pp : option position) (prev_pos c : position) :
  floor_of prev_pos = floor_of c →
  (energy_step pp prev_pos c 0 <= 16 # 10)%Q.
Proof.
  intros Hf.
  destruct (energy_step_cases pp prev_pos c 0%Q)
    as (move & turn & H1 & H2 & H3 & _).
  cbn zeta in H2. rewrite bool_decide_eq_true_2 in H2 by done.
  destruct H2 as [?|[? _]]; [|done].
  destruct H3 as [?|[_ ?]]; lra.
Qed.

Lemma energy_loop_nonneg (rest : list position) (pp : option position)
  (prev_pos : position) :
  (0 <= energy_loop pp prev_pos rest 0)%Q.
Proof.
  revert pp prev_pos. induction rest as [|c rest IH]; intros pp prev_pos.
  - cbn. lra.
  - rewrite energy_loop_cons.
    pose proof (energy_step_lower pp prev_pos c).
    pose proof (IH (Some prev_pos) c). lra.
Qed.

(** The three bounds carried through the simplifier's loop: with the same
    predecessor, with another predecessor, and when the hop from
    [prev_pos] to the head of [rest] replaces skipped waypoints. *)
Lemma optimize_tail_cost (pf : ACPathfinder) (rest : list position) :
  ∀ (prev_pos : position) (out : list position),
    optimize_tail pf prev_pos rest = Ok out →
    (∀ y, energy_loop y prev_pos out 0 <= energy_loop y prev_pos rest 0)%Q ∧
    (∀ y x, energy_loop y prev_pos out 0
            <= energy_loop x prev_pos rest 0 + (1 # 2))%Q ∧
    (∀ y x curr rest', rest = curr :: rest' →
       floor_of prev_pos = floor_of curr →
       (energy_loop y prev_pos out 0
        <= (21 # 10) + energy_loop (Some x) curr rest' 0)%Q).
Proof.
  induction rest as [|curr rest IH]; intros prev_pos out Hout.
  - injection Hout as <-. cbn. repeat split; intros; try done; lra.
  - destruct rest as [|next rest].
    + injection Hout as <-. split; [|split].
      * intros y. lra.
      * intros y x. rewrite !energy_loop_cons. cbn [energy_loop].
        pose proof (energy_step_change_pred x y prev_pos curr). lra.
      * intros y x c rest' [= <- <-] Hf. rewrite energy_loop_cons.
        cbn [energy_loop].
        pose proof (energy_step_same_floor y prev_pos curr Hf). lra.
    + rewrite optimize_tail_cons in Hout.
      destruct (_can_go_direct pf prev_pos next) as [[|]|e] eqn:Hd; [| |done].
      * destruct (IH prev_pos out Hout) as (_ & _ & HB).
        pose proof (can_go_direct_same_floor _ _ _ Hd) as Hfl.
        split; [|split].
        -- intros y. specialize (HB y curr next rest eq_refl Hfl).
           rewrite (energy_loop_cons (next :: rest)), (energy_loop_cons rest).
           pose proof (energy_step_lower y prev_pos curr).
           pose proof (energy_step_lower (Some prev_pos) curr next). lra.
        -- intros y x. specialize (HB y curr next rest eq_refl Hfl).
           rewrite (energy_loop_cons (next :: rest)), (energy_loop_cons rest).
           pose proof (energy_step_lower x prev_pos curr).
           pose proof (energy_step_lower (Some prev_pos) curr next). lra.
        -- intros y x c rest' [= <- <-] _.
           specialize (HB y curr next rest eq_refl Hfl).
           rewrite (energy_loop_cons rest).
           pose proof (energy_step_lower (Some x) curr next). lra.
      * destruct (optimize_tail pf curr (next :: rest)) as [out'|e] eqn:Ht;
          [|done].
        injection Hout as <-.
        destruct (IH curr out' Ht) as (HA & HA' & _).
        split; [|split].
        -- intros y. rewrite (energy_loop_cons out'), (energy_loop_cons (next :: rest)).
           specialize (HA (Some prev_pos)). lra.
        -- intros y x.
           rewrite (energy_loop_cons out'), (energy_loop_cons (next :: rest)).
           specialize (HA (Some prev_pos)).
           pose proof (energy_step_change_pred x y prev_pos curr). lra.
        -- intros y x c rest' [= <- <-] Hf.
           rewrite (energy_loop_cons out').
           specialize (HA' (Some prev_pos) (Some x)).
           pose proof (energy_step_same_floor y prev_pos curr Hf). lra.
Qed.

Lemma calculate_energy_cost_cons (p0 : position) (rest : list position) :
  _calculate_energy_cost (p0 :: rest) = energy_loop None p0 rest 0.
Proof. by destruct rest. Qed.

(** The simplified path never costs more than the path it comes from. *)
Lemma optimize_path_turns_cost (pf : ACPathfinder) (path out : list position) :
  _optimize_path_turns pf path = Ok out →
  (_calculate_energy_cost out <= _calculate_energy_cost path)%Q.
Proof.
  destruct path as [|p0 rest]; [intros [= <-]; cbn; lra|].
  rewrite optimize_path_turns_cons.
  destruct (optimize_tail pf p0 rest) as [out'|e] eqn:Ht; [|done].
  intros [= <-]. rewrite !calculate_energy_cost_cons.
  by apply (optimize_tail_cost pf rest p0 out' Ht).
Qed.

Lemma optimize_one_spec (pf : ACPathfinder) (r o : path_info) :
  optimize_one pf r = Ok o →
  ∃ optimized_path,
    _optimize_path_turns pf (path r) = Ok optimized_path ∧
    (((_calculate_energy_cost optimized_path < energy_cost r)%Q ∧
      replaced_by r o optimized_path) ∨
     (¬ (_calculate_energy_cost optimized_path < energy_cost r)%Q ∧
      kept_as r o)).
Proof.
  unfold optimize_one. intros H.
  destruct (_optimize_path_turns pf (path r)) as [opt|e]; [|done].
  exists opt. split; [done|]. cbn in H.
  destruct (Qlt_le_dec (_calculate_energy_cost opt) (energy_cost r)) as [Hlt|Hle];
    injection H as <-.
  - left. split; [done|]. by repeat split.
  - right. split; [lra|]. by repeat split.
Qed.

(** What a successful run of [optimize_energy_usage] returns, on any
    pathfinder. *)
Lemma optimize_energy_usage_spec (pf : ACPathfinder)
  (path_info_list optimized_paths : list path_info) :
  optimize_energy_usage pf path_info_list = Ok optimized_paths →
  Forall2
    (fun r o =>
       (_calculate_energy_cost (path o) <= _calculate_energy_cost (path r))%Q ∧
       (energy_cost o <= energy_cost r)%Q ∧
       ∃ optimized_path,
         _optimize_path_turns pf (path r) = Ok optimized_path ∧
         (((_calculate_energy_cost optimized_path < energy_cost r)%Q ∧
           replaced_by r o optimized_path) ∨
          (¬ (_calculate_energy_cost optimized_path < energy_cost r)%Q ∧
           kept_as r o)))
    path_info_list optimized_paths.
Proof.
  revert optimized_paths.
  induction path_info_list as [|r rs IH]; intros out Hout.
  - injection Hout as <-. constructor.
  - cbn [optimize_energy_usage] in Hout.
    destruct (optimize_one pf r) as [o|e] eqn:Ho; [|done].
    destruct (optimize_energy_usage pf rs) as [os|e]; [|done].
    injection Hout as <-. constructor; [|by apply IH].
    destruct (optimize_one_spec pf r o Ho) as (opt & Hopt & Hcase).
    assert (Hcost := optimize_path_turns_cost pf (path r) opt Hopt).
    split; [|split; [|by exists opt]].
    + destruct Hcase as [[_ (_ & _ & -> & _)]|[_ (_ & _ & -> & _)]]; [done|].
      apply Qle_refl.
    + destruct Hcase as [[Hlt (_ & _ & _ & _ & -> & _)]
                        |[_ (_ & _ & _ & _ & -> & _)]];
        [by apply Qlt_le_weak|apply Qle_refl].
Qed.

(** The simplifier keeps the records consistent. *)
Lemma optimize_energy_usage_consistent (pf : ACPathfinder)
  (path_info_list optimized_paths : list path_info) :
  Forall consistent path_info_list →
  optimize_energy_usage pf path_info_list = Ok optimized_paths →
  Forall consistent optimized_paths.
Proof.
  revert optimized_paths.
  induction path_info_list as [|r rs IH]; intros out Hcons Hout.
  - injection Hout as <-. constructor.
  - cbn [optimize_energy_usage] in Hout.
    destruct (optimize_one pf r) as [o|e] eqn:Ho; [|done].
    destruct (optimize_energy_usage pf rs) as [os|e]; [|done].
    injection Hout as <-.
    apply Forall_cons in Hcons as [Hr Hrs].
    constructor; [|by apply IH].
    destruct (optimize_one_spec pf r o Ho) as (opt & _ & Hcase).
    unfold consistent in *.
    destruct Hcase as [[_ (_ & _ & -> & _ & -> & _)]
                      |[_ (_ & _ & -> & _ & -> & _)]]; done.
Qed.

(** ** Breadth-first router: one iteration *)

Lemma extends_by_nil (path : list position) (st : bfs_state) :
  extends_by path [] st st.
Proof.
  split; [constructor|]. split; [by intros p Hp%elem_of_nil|].
  split; [by rewrite app_nil_r|]. cbn. set_solver.
Qed.

Lemma extends_by_enqueue (path : list position) (new_pos : position)
  (news : list position) (st st' : bfs_state) :
  new_pos ∉ visited st →
  extends_by path news (enqueue path new_pos st) st' →
  extends_by path (new_pos :: news) st st'.
Proof.
  intros Hnew (Hnd & Hfresh & Hq & Hv). cbn in Hfresh, Hq, Hv.
  split; [|split; [|split]].
  - constructor; [|done]. intros Hin. apply (Hfresh _ Hin). set_solver.
  - intros p [->|Hp]%elem_of_cons; [done|].
    specialize (Hfresh p Hp). set_solver.
  - rewrite Hq, <- (assoc_L (++)). done.
  - rewrite Hv. cbn. set_solver.
Qed.

Lemma extends_by_trans (path : list position) (n1 n2 : list position)
  (st st1 st2 : bfs_state) :
  extends_by path n1 st st1 → extends_by path n2 st1 st2 →
  extends_by path (n1 ++ n2) st st2.
Proof.
  intros (Hnd1 & Hf1 & Hq1 & Hv1) (Hnd2 & Hf2 & Hq2 & Hv2).
  split; [|split; [|split]].
  - apply NoDup_app. split; [done|]. split; [|done].
    intros p Hp1 Hp2. apply (Hf2 p Hp2). rewrite Hv1. set_solver.
  - intros p [Hp|Hp]%elem_of_app; [by apply Hf1|].
    specialize (Hf2 p Hp). rewrite Hv1 in Hf2. set_solver.
  - rewrite Hq2, Hq1, fmap_app, (assoc_L (++)). done.
  - rewrite Hv2, Hv1, list_to_set_app_L. set_solver.
Qed.

Lemma explore_horizontal_spec (pf : ACPathfinder) (f r c : Z)
  (path : list position) (dirs : list (Z * Z)) (st st' : bfs_state) :
  explore_horizontal pf f r c path dirs st = Ok st' →
  ∃ news,
    extends_by path news st st' ∧
    (∀ p, p ∈ news →
       ∃ dr dc, (dr, dc) ∈ dirs ∧ p = (f, r + dr, c + dc) ∧ valid_cell pf p) ∧
    (∀ dr dc, (dr, dc) ∈ dirs → valid_cell pf (f, r + dr, c + dc) →
              (f, r + dr, c + dc) ∈ visited st').
Proof.
  revert st. induction dirs as [|[dr dc] dirs IH]; intros st H.
  - injection H as <-. exists []. split; [apply extends_by_nil|].
    split; [by intros p Hp%elem_of_nil|]. by intros dr dc Hd%elem_of_nil.
  - cbn [explore_horizontal] in H.
    destruct (_is_valid_position pf f (r + dr) (c + dc)) as [valid|e] eqn:Hv;
      [|done].
    cbn in H.
    destruct (valid && bool_decide ((f, r + dr, c + dc) ∉ visited st)) eqn:Hc.
    + apply andb_prop in Hc as [-> Hfresh%bool_decide_eq_true_1].
      apply is_valid_position_true in Hv.
      destruct (IH _ H) as (news & Hext & Hnews & Hcov).
      exists ((f, r + dr, c + dc) :: news).
      split; [by apply extends_by_enqueue|]. split.
      * intros p [->|Hp]%elem_of_cons.
        -- exists dr, dc. split; [left|done].
        -- destruct (Hnews p Hp) as (dr' & dc' & Hd & Hp').
           exists dr', dc'. split; [by right|done].
      * intros dr' dc' [[= -> ->]|Hd]%elem_of_cons Hval; [|by apply Hcov].
        destruct Hext as (_ & _ & _ & ->). cbn. set_solver.
    + destruct (IH _ H) as (news & Hext & Hnews & Hcov).
      exists news. split; [done|]. split.
      * intros p Hp. destruct (Hnews p Hp) as (dr' & dc' & Hd & Hp').
        exists dr', dc'. split; [by right|done].
      * intros dr' dc' [[= -> ->]|Hd]%elem_of_cons Hval; [|by apply Hcov].
        apply is_valid_position_true in Hval. rewrite Hval in Hv.
        injection Hv as <-. cbn in Hc.
        apply bool_decide_eq_false_1 in Hc.
        destruct Hext as (_ & _ & _ & ->).
        destruct (decide ((f, r + dr, c + dc) ∈ visited st)); [set_solver|done].
Qed.

Lemma explore_vertical_spec (pf : ACPathfinder) (f r c : Z)
  (path : list position) (new_floors : list Z) (st st' : bfs_state) :
  explore_vertical pf f r c path new_floors st = Ok st' →
  ∃ news,
    extends_by path news st st' ∧
    (∀ p, p ∈ news →
       ∃ new_f, new_f ∈ new_floors ∧ new_f ≠ f ∧ p = (new_f, r, c) ∧
                building_at (building pf) new_f r c = Ok "T"%string) ∧
    (∀ new_f, new_f ∈ new_floors → new_f ≠ f →
              building_at (building pf) new_f r c = Ok "T"%string →
              (new_f, r, c) ∈ visited st').
Proof.
  revert st. induction new_floors as [|nf nfs IH]; intros st H.
  - injection H as <-. exists []. split; [apply extends_by_nil|].
    split; [by intros p Hp%elem_of_nil|]. by intros nf Hd%elem_of_nil.
  - cbn [explore_vertical] in H.
    assert (Hskip : explore_vertical pf f r c path nfs st = Ok st' →
                    (nf = f ∨ building_at (building pf) nf r c ≠ Ok "T"%string
                     ∨ (nf, r, c) ∈ visited st) →
      ∃ news,
        extends_by path news st st' ∧
        (∀ p, p ∈ news →
           ∃ new_f, new_f ∈ nf :: nfs ∧ new_f ≠ f ∧ p = (new_f, r, c) ∧
                    building_at (building pf) new_f r c = Ok "T"%string) ∧
        (∀ new_f, new_f ∈ nf :: nfs → new_f ≠ f →
                  building_at (building pf) new_f r c = Ok "T"%string →
                  (new_f, r, c) ∈ visited st')).
    { intros H' Hwhy. destruct (IH _ H') as (news & Hext & Hnews & Hcov).
      exists news. split; [done|]. split.
      - intros p Hp. destruct (Hnews p Hp) as (nf' & Hd & Hp').
        exists nf'. split; [by right|done].
      - intros nf' [->|Hd]%elem_of_cons Hne HT; [|by apply Hcov].
        destruct Hwhy as [?|[?|Hin]]; [done..|].
        destruct Hext as (_ & _ & _ & ->). set_solver. }
    destruct (Z.eqb_spec nf f) as [Heq|Hne]; cbn [negb] in H; [by auto|].
    destruct (building_at (building pf) nf r c) as [cell|e] eqn:Hcell; [|done].
    cbn in H.
    destruct (String.eqb_spec cell "T") as [->|HnT];
      [|apply Hskip; [done|right; left; congruence]].
    destruct (bool_decide ((nf, r, c) ∉ visited st)) eqn:Hc.
    + apply bool_decide_eq_true_1 in Hc.
      destruct (IH _ H) as (news & Hext & Hnews & Hcov).
      exists ((nf, r, c) :: news).
      split; [by apply extends_by_enqueue|]. split.
      * intros p [->|Hp]%elem_of_cons.
        -- exists nf. split; [left|done].
        -- destruct (Hnews p Hp) as (nf' & Hd & Hp').
           exists nf'. split; [by right|done].
      * intros nf' [->|Hd]%elem_of_cons Hne' HT; [|by apply Hcov].
        destruct Hext as (_ & _ & _ & ->). cbn. set_solver.
    + apply bool_decide_eq_false_1 in Hc. apply Hskip; [done|].
      right; right.
      destruct (decide ((nf, r, c) ∈ visited st)); [done|by destruct Hc].
Qed.

Lemma bfs_step_exhausted (pf : ACPathfinder) (idx : nat) (target : position)
  (st : bfs_state) :
  bfs_step pf idx target st = Ok Exhausted ↔ queue st = [].
Proof.
  unfold bfs_step. destruct (queue st) as [|[[[f r] c] path] q']; [done|].
  split; [|done]. case_bool_decide; [done|].
  destruct (explore_horizontal _ _ _ _ _ _ _) as [st1|e]; [|done]. cbn.
  destruct (building_at _ _ _ _) as [cell|e]; [|done]. cbn.
  destruct (String.eqb cell "T"); [|done].
  destruct (explore_vertical _ _ _ _ _ _ _); done.
Qed.

Lemma bfs_step_found (pf : ACPathfinder) (idx : nat) (target : position)
  (st : bfs_state) (info : path_info) :
  bfs_step pf idx target st = Ok (Found info) →
  ∃ path q',
    queue st = (target, path) :: q' ∧
    info = {| target_index := idx; target_position := target; path := path;
              steps := length path;
              energy_cost := _calculate_energy_cost path;
              energy_saved := None |}.
Proof.
  unfold bfs_step. destruct (queue st) as [|[[[f r] c] path] q']; [done|].
  case_bool_decide as Heq.
  - intros [= <-]. rewrite Heq. by exists path, q'.
  - destruct (explore_horizontal _ _ _ _ _ _ _) as [st1|e]; [|done]. cbn.
    destruct (building_at _ _ _ _) as [cell|e]; [|done]. cbn.
    destruct (String.eqb cell "T"); [|done].
    destruct (explore_vertical _ _ _ _ _ _ _); done.
Qed.

Lemma bfs_step_continue (pf : ACPathfinder) (idx : nat) (target : position)
  (st st' : bfs_state) :
  bfs_step pf idx target st = Ok (Continue st') →
  ∃ cur path q' news,
    queue st = (cur, path) :: q' ∧
    cur ≠ target ∧
    extends_by path news {| queue := q'; visited := visited st |} st' ∧
    (∀ p, p ∈ news → bfs_move pf cur p) ∧
    (∀ q, bfs_move pf cur q → q ∈ visited st').
Proof.
  unfold bfs_step. destruct (queue st) as [|[[[f r] c] path] q']; [done|].
  case_bool_decide as Hne; [done|].
  destruct (explore_horizontal _ _ _ _ _ _ _) as [st1|e] eqn:Hh; [|done]. cbn.
  destruct (explore_horizontal_spec _ _ _ _ _ _ _ _ Hh)
    as (n1 & Hext1 & Hn1 & Hcov1).
  destruct (building_at (building pf) f r c) as [cell|e] eqn:Hcell; [|done]. cbn.
  destruct (String.eqb_spec cell "T") as [->|HnT].
  - destruct (explore_vertical _ _ _ _ _ _ _) as [st2|e] eqn:Hvert; [|done].
    intros [= <-].
    destruct (explore_vertical_spec _ _ _ _ _ _ _ _ Hvert)
      as (n2 & Hext2 & Hn2 & Hcov2).
    exists (f, r, c), path, q', (n1 ++ n2). split; [done|]. split; [done|].
    split; [by eapply extends_by_trans|]. split.
    + intros p [Hp|Hp]%elem_of_app.
      * left. destruct (Hn1 p Hp) as (dr & dc & ? & ? & ?). by exists dr, dc.
      * right. destruct (Hn2 p Hp) as (nf & Hnf & ? & -> & ?).
        unfold py_range in Hnf. apply elem_of_seqZ in Hnf.
        repeat split; try done; lia.
    + intros [[f' r'] c'] [(dr & dc & Hd & [= -> -> ->] & Hval)
                           |(Hf & -> & -> & Hrange & _ & HT)].
      * destruct Hext2 as (_ & _ & _ & ->).
        apply elem_of_union_l. by apply Hcov1.
      * apply Hcov2; [|done..]. unfold py_range. apply elem_of_seqZ. lia.
  - intros [= <-].
    exists (f, r, c), path, q', n1. split; [done|]. split; [done|].
    split; [done|]. split.
    + intros p Hp. left.
      destruct (Hn1 p Hp) as (dr & dc & ? & ? & ?). by exists dr, dc.
    + intros [[f' r'] c'] [(dr & dc & Hd & [= -> -> ->] & Hval)
                           |(_ & _ & _ & _ & HT & _)].
      * by apply Hcov1.
      * congruence.
Qed.

Lemma bfs_move_in_box (pf : ACPathfinder) (a b : position) :
  in_box pf a → bfs_move pf a b → in_box pf b.
Proof.
  destruct a as [[f r] c], b as [[f' r'] c'].
  intros Ha [(dr & dc & _ & [= -> -> ->] & Hval & _)
            |(_ & -> & -> & Hf & _)].
  - done.
  - unfold in_box, in_bounds in *.
    apply andb_prop in Ha as [[[[_ Hr1]%andb_prop Hr2]%andb_prop Hc1]%andb_prop Hc2].
    rewrite Hr1, Hr2, Hc1, Hc2.
    destruct (Z.leb_spec 0 f'), (Z.ltb_spec f' (floors pf)); try lia; done.
Qed.

Lemma chain_snoc {A : Type} (P : A → A → Prop) (l : list A) (a b : A) :
  chain P l → last l = Some a → P a b → chain P (l ++ [b]).
Proof.
  induction l as [|x [|y l] IH]; [done| |].
  - cbn. intros _ [= ->] Hab. done.
  - intros [Hxy Hl] Hlast Hab. split; [done|].
    apply IH; [done| |done]. by rewrite last_cons_cons in Hlast.
Qed.

Lemma bfs_inv_step (pf : ACPathfinder) (src : position) (idx : nat)
  (target : position) (st st' : bfs_state) :
  bfs_inv pf src target st →
  bfs_step pf idx target st = Ok (Continue st') →
  bfs_inv pf src target st' ∧
  S (length (queue st') + size (visited st))
  = (length (queue st) + size (visited st'))%nat.
Proof.
  intros [Hent Hbox Hsrc Hclosed Hndq] Hstep.
  destruct (bfs_step_continue _ _ _ _ _ Hstep)
    as (cur & path & q' & news & Hq & Hne & Hext & Hmoves & Hcov).
  destruct Hext as (Hnd & Hfresh & Hq' & Hv'). cbn in Hfresh, Hq', Hv'.
  rewrite Hq in Hent. apply Forall_cons in Hent as [Hcur Hrest].
  destruct Hcur as (Hhead & Hlast & Hchain & Hnodup & Hvis). cbn in *.
  assert (Hcurvis : cur ∈ visited st).
  { apply Hvis. by apply last_Some_elem_of. }
  split; [split|].
  - rewrite Hq'. apply Forall_app. split.
    + eapply Forall_impl; [exact Hrest|].
      intros [pos pth] (? & ? & ? & ? & Hin). repeat split; try done.
      intros p Hp. rewrite Hv'. apply elem_of_union_l. by apply Hin.
    + apply Forall_fmap, Forall_forall. intros p Hp.
      unfold entry_of, good_entry. cbn. split; [|split; [|split; [|split]]].
      * destruct path; [done|]. done.
      * by rewrite last_snoc.
      * eapply chain_snoc; [done..|]. by apply Hmoves.
      * apply NoDup_app. split; [done|]. split; [|apply NoDup_singleton].
        intros x Hx ->%list_elem_of_singleton.
        by apply (Hfresh p Hp), Hvis.
      * intros x [Hx| ->%list_elem_of_singleton]%elem_of_app; rewrite Hv'.
        -- apply elem_of_union_l. by apply Hvis.
        -- apply elem_of_union_r. by apply elem_of_list_to_set.
  - intros p. rewrite Hv'. intros [Hp|Hp%elem_of_list_to_set]%elem_of_union.
    + by apply Hbox.
    + eapply bfs_move_in_box; [|by apply Hmoves]. by apply Hbox.
  - rewrite Hv'. by apply elem_of_union_l.
  - intros p. rewrite Hv', Hq'.
    intros [Hp|Hp%elem_of_list_to_set]%elem_of_union Hnq.
    + destruct (decide (p = cur)) as [->|Hpc].
      * split; [done|]. intros q Hmove. rewrite <- Hv'. by apply Hcov.
      * destruct (Hclosed p Hp) as [Hpt Hnb].
        { rewrite Hq. cbn. intros [->|Hin]%elem_of_cons; [done|].
          apply Hnq. rewrite fmap_app. by apply elem_of_app; left. }
        split; [done|]. intros q Hmove. apply elem_of_union_l. by apply Hnb.
    + exfalso. apply Hnq. rewrite fmap_app. apply elem_of_app; right.
      rewrite <- list_fmap_compose. apply list_elem_of_fmap.
      by exists p.
  - rewrite Hq', fmap_app, <- list_fmap_compose.
    rewrite Hq in Hndq. cbn in Hndq. apply NoDup_cons in Hndq as [_ Hndq].
    apply NoDup_app. split; [done|]. split.
    + intros p Hp (p' & -> & Hp')%list_elem_of_fmap. cbn in Hp.
      apply (Hfresh p' Hp').
      apply list_elem_of_fmap in Hp as ([pos pth] & -> & Hin).
      rewrite Forall_forall in Hrest.
      destruct (Hrest _ Hin) as (_ & Hl & _ & _ & Hin'). cbn in *.
      by apply Hin', last_Some_elem_of.
    + by rewrite (list_fmap_ext _ id news), list_fmap_id.
  - rewrite Hq', Hq, Hv', length_app, length_fmap. cbn [length].
    rewrite size_union, size_list_to_set by (try done; set_solver). lia.
Qed.

(** ** The box of in-bounds positions *)

Lemma in_bounds_spec (pf : ACPathfinder) (f r c : Z) :
  in_bounds pf f r c = true ↔
  0 ≤ f < floors pf ∧ 0 ≤ r < rows pf ∧ 0 ≤ c < cols pf.
Proof.
  unfold in_bounds. rewrite !andb_true_iff, !Z.leb_le, !Z.ltb_lt. lia.
Qed.

Lemma scan_order_elem (nf nr nc f r c : Z) :
  (f, r, c) ∈ scan_order nf nr nc ↔ 0 ≤ f < nf ∧ 0 ≤ r < nr ∧ 0 ≤ c < nc.
Proof.
  unfold scan_order, py_range. rewrite list_elem_of_bind. split.
  - intros (f' & (r' & (c' & Hc%list_elem_of_singleton & Hc')%list_elem_of_bind
                   & Hr')%list_elem_of_bind & Hf').
    injection Hc as -> -> ->.
    apply elem_of_seqZ in Hf', Hr', Hc'. lia.
  - intros (Hf & Hr & Hc). exists f. split; [|apply elem_of_seqZ; lia].
    apply list_elem_of_bind. exists r. split; [|apply elem_of_seqZ; lia].
    apply list_elem_of_bind. exists c. split; [|apply elem_of_seqZ; lia].
    by apply list_elem_of_singleton.
Qed.

Lemma length_bind_const {A B : Type} (g : A → list B) (k : nat) (l : list A) :
  (∀ y, length (g y) = k) → length (l ≫= g) = (length l * k)%nat.
Proof.
  intros Hk. induction l as [|y l IH]; [done|].
  rewrite bind_cons, length_app, IH, Hk. cbn. lia.
Qed.

Lemma length_scan_order (nf nr nc : Z) :
  length (scan_order nf nr nc)
  = (Z.to_nat nf * (Z.to_nat nr * Z.to_nat nc))%nat.
Proof.
  unfold scan_order, py_range.
  rewrite (length_bind_const _ (Z.to_nat nr * Z.to_nat nc)%nat).
  - by rewrite length_seqZ, Z.sub_0_r.
  - intros f. rewrite (length_bind_const _ (Z.to_nat nc)).
    + by rewrite length_seqZ, Z.sub_0_r.
    + intros r. rewrite (length_bind_const _ 1%nat); [|done].
      rewrite length_seqZ, Z.sub_0_r. lia.
Qed.

Lemma size_list_to_set_le (l : list position) :
  (size (list_to_set l : gset position) ≤ length l)%nat.
Proof.
  induction l as [|x l IH]; [done|]. cbn [list_to_set length].
  rewrite size_union_alt, size_singleton.
  assert (size (list_to_set l ∖ {[x]} : gset position)
          ≤ size (list_to_set l : gset position))%nat.
  { apply subseteq_size. set_solver. }
  lia.
Qed.

Lemma size_in_box (pf : ACPathfinder) (X : gset position) :
  (∀ p, p ∈ X → in_box pf p) →
  (size X ≤ Z.to_nat (floors pf * rows pf * cols pf))%nat.
Proof.
  intros HX.
  assert (X ⊆ box_set pf) as Hsub.
  { intros [[f r] c] Hp. apply elem_of_list_to_set, scan_order_elem.
    by apply in_bounds_spec, (HX (f, r, c)). }
  apply subseteq_size in Hsub.
  pose proof (size_list_to_set_le (scan_order (floors pf) (rows pf) (cols pf))) as Hle.
  rewrite length_scan_order in Hle. fold (box_set pf) in Hle.
  destruct (Z.le_gt_cases (floors pf) 0) as [H0|Hf].
  { assert (Z.to_nat (floors pf) = 0%nat) as E by lia. rewrite E in Hle. lia. }
  destruct (Z.le_gt_cases (rows pf) 0) as [H0|Hr].
  { assert (Z.to_nat (rows pf) = 0%nat) as E by lia. rewrite E in Hle. lia. }
  destruct (Z.le_gt_cases (cols pf) 0) as [H0|Hc].
  { assert (Z.to_nat (cols pf) = 0%nat) as E by lia. rewrite E in Hle. lia. }
  rewrite !Z2Nat.inj_mul by lia. lia.
Qed.

(** ** Breadth-first router: the loop *)

Lemma bfs_inv_init (pf : ACPathfinder) (src target : position) :
  in_box pf src → bfs_inv pf src target (bfs_init src).
Proof.
  intros Hsrc. split; cbn.
  - constructor; [|constructor]. unfold good_entry; cbn.
    repeat split; try done.
    + apply NoDup_singleton.
    + intros p ->%list_elem_of_singleton. set_solver.
  - by intros p ->%elem_of_singleton.
  - set_solver.
  - intros p ->%elem_of_singleton Hn. destruct Hn. set_solver.
  - apply NoDup_singleton.
Qed.

Lemma closed_reachable (pf : ACPathfinder) (X : gset position)
  (src target : position) :
  src ∈ X → (∀ p, p ∈ X → ∀ q, bfs_move pf p q → q ∈ X) →
  reachable pf src target → target ∈ X.
Proof.
  intros Hsrc Hclosed Hreach. induction Hreach as [|a b c Hab _ IH]; [done|].
  apply IH. by apply (Hclosed a).
Qed.

Lemma bfs_loop_sound (pf : ACPathfinder) (src : position) (idx : nat)
  (target : position) (fuel : nat) (st : bfs_state) :
  bfs_inv pf src target st →
  match bfs_loop fuel pf idx target st with
  | Some (Ok (Some info)) => good_result pf src idx target info
  | Some (Ok None) => ¬ reachable pf src target
  | _ => True
  end.
Proof.
  revert st. induction fuel as [|fuel IH]; intros st Hinv; [done|].
  cbn [bfs_loop].
  destruct (bfs_step pf idx target st) as [[st'|info|]|e] eqn:Hstep; [| | |done].
  - apply IH. by apply (bfs_inv_step _ _ _ _ _ _ Hinv Hstep).
  - destruct (bfs_step_found _ _ _ _ _ Hstep) as (path & q' & Hq & ->).
    destruct Hinv as [Hent _ _ _ _]. rewrite Hq in Hent.
    apply Forall_cons in Hent as [(Hhead & Hlast & Hchain & Hnodup & _) _].
    by repeat split.
  - apply bfs_step_exhausted in Hstep.
    destruct Hinv as [_ _ Hsrc Hclosed _]. rewrite Hstep in Hclosed.
    intros Hreach.
    assert (target ∈ visited st) as Ht.
    { eapply closed_reachable; [exact Hsrc| |exact Hreach].
      intros p Hp. apply Hclosed; [done|]. cbn. by intros ?%elem_of_nil. }
    destruct (Hclosed target Ht) as [Hne _]; [|done].
    cbn. by intros ?%elem_of_nil.
Qed.

Lemma bfs_loop_terminates (pf : ACPathfinder) (src : position) (idx : nat)
  (target : position) (fuel : nat) :
  ∀ (k : nat) (st : bfs_state),
    bfs_inv pf src target st →
    (k + length (queue st) = size (visited st))%nat →
    (Z.to_nat (floors pf * rows pf * cols pf) < k + fuel)%nat →
    bfs_loop fuel pf idx target st ≠ None.
Proof.
  induction fuel as [|fuel IH]; intros k st Hinv Hcount Hfuel.
  - pose proof (size_in_box pf (visited st) (inv_box _ _ _ _ Hinv)). lia.
  - cbn [bfs_loop].
    destruct (bfs_step pf idx target st) as [[st'|info|]|e] eqn:Hstep; [|done..].
    destruct (bfs_inv_step _ _ _ _ _ _ Hinv Hstep) as [Hinv' Hsize].
    apply (IH (S k)); [done|lia|lia].
Qed.

(** ** No exception on a readable grid *)

Lemma is_valid_position_total (pf : ACPathfinder) (f r c : Z) :
  grid_ok pf → ∃ v, _is_valid_position pf f r c = Ok v.
Proof.
  intros Hgrid. unfold _is_valid_position.
  destruct (in_bounds pf f r c) eqn:Hb; [|by eexists].
  destruct (Hgrid f r c Hb) as [cell ->]. by eexists.
Qed.

Lemma explore_horizontal_total (pf : ACPathfinder) (f r c : Z)
  (path : list position) (dirs : list (Z * Z)) (st : bfs_state) :
  grid_ok pf → ∃ st', explore_horizontal pf f r c path dirs st = Ok st'.
Proof.
  intros Hgrid. revert st.
  induction dirs as [|[dr dc] dirs IH]; intros st; [by eexists|].
  cbn [explore_horizontal].
  destruct (is_valid_position_total pf f (r + dr) (c + dc) Hgrid) as [v ->].
  cbn. destruct (v && _); apply IH.
Qed.

Lemma explore_vertical_total (pf : ACPathfinder) (f r c : Z)
  (path : list position) (new_floors : list Z) (st : bfs_state) :
  grid_ok pf →
  (∀ new_f, new_f ∈ new_floors → in_bounds pf new_f r c = true) →
  ∃ st', explore_vertical pf f r c path new_floors st = Ok st'.
Proof.
  intros Hgrid. revert st.
  induction new_floors as [|nf nfs IH]; intros st Hin; [by eexists|].
  cbn [explore_vertical].
  assert (∀ new_f, new_f ∈ nfs → in_bounds pf new_f r c = true) as Hin'.
  { intros new_f Hnf. apply Hin. by right. }
  destruct (negb (nf =? f)); [|by apply IH].
  destruct (Hgrid nf r c) as [cell ->]; [apply Hin; left|].
  cbn. destruct (String.eqb cell "T"); [|by apply IH].
  destruct (bool_decide _); by apply IH.
Qed.

Lemma bfs_step_total (pf : ACPathfinder) (src : position) (idx : nat)
  (target : position) (st : bfs_state) :
  grid_ok pf → bfs_inv pf src target st →
  ∃ o, bfs_step pf idx target st = Ok o.
Proof.
  intros Hgrid [Hent Hbox _ _ _]. unfold bfs_step.
  destruct (queue st) as [|[[[f r] c] path] q']; [by eexists|].
  case_bool_decide; [by eexists|].
  apply Forall_cons in Hent as [(_ & Hlast & _ & _ & Hvis) _].
  cbn in Hlast, Hvis.
  assert (in_bounds pf f r c = true) as Hcur.
  { apply (Hbox (f, r, c)), Hvis. by apply last_Some_elem_of. }
  destruct (explore_horizontal_total pf f r c path directions
              {| queue := q'; visited := visited st |} Hgrid) as [st1 ->].
  cbn. destruct (Hgrid f r c Hcur) as [cell ->]. cbn.
  destruct (String.eqb cell "T"); [|by eexists].
  destruct (explore_vertical_total pf f r c path (py_range 0 (floors pf)) st1 Hgrid)
    as [st2 ->]; [|by eexists].
  intros nf Hnf. unfold py_range in Hnf. apply elem_of_seqZ in Hnf.
  apply in_bounds_spec in Hcur. apply in_bounds_spec. lia.
Qed.

Lemma bfs_loop_no_raise (pf : ACPathfinder) (src : position) (idx : nat)
  (target : position) (fuel : nat) (st : bfs_state) (e : exn) :
  grid_ok pf → bfs_inv pf src target st →
  bfs_loop fuel pf idx target st ≠ Some (Raise e).
Proof.
  intros Hgrid. revert st. induction fuel as [|fuel IH]; intros st Hinv; [done|].
  cbn [bfs_loop].
  destruct (bfs_step_total pf src idx target st Hgrid Hinv) as [o Hstep].
  rewrite Hstep. destruct o as [st'| |]; [|done..].
  apply IH. by apply (bfs_inv_step _ _ _ _ _ _ Hinv Hstep).
Qed.

(** One target's search from the initial state ends, without exception,
    within the budget. *)
Lemma bfs_search_total (pf : ACPathfinder) (src : position) (idx : nat)
  (target : position) (fuel : nat) :
  grid_ok pf → in_box pf src → (bfs_budget pf ≤ fuel)%nat →
  ∃ r, bfs_loop fuel pf idx target (bfs_init src) = Some (Ok r).
Proof.
  intros Hgrid Hsrc Hfuel.
  pose proof (bfs_inv_init pf src target Hsrc) as Hinv.
  pose proof (bfs_loop_terminates pf src idx target fuel 0 _ Hinv) as Hterm.
  pose proof (bfs_loop_no_raise pf src idx target fuel (bfs_init src)) as Hraise.
  destruct (bfs_loop fuel pf idx target (bfs_init src)) as [[r|e]|].
  - by exists r.
  - by destruct (Hraise e Hgrid Hinv).
  - destruct Hterm; [|unfold bfs_budget in Hfuel; lia|done].
    cbn. by rewrite size_singleton.
Qed.

Lemma good_result_reachable (pf : ACPathfinder) (src : position) (idx : nat)
  (target : position) (info : path_info) :
  good_result pf src idx target info → reachable pf src target.
Proof.
  intros (_ & _ & Hhead & Hlast & Hchain & _).
  destruct (path info) as [|p0 l]; [done|]. injection Hhead as ->.
  clear -Hlast Hchain. revert src Hlast Hchain.
  induction l as [|b l IH]; intros src Hlast Hchain.
  - injection Hlast as ->. apply rtc_refl.
  - destruct Hchain as [Hab Hl]. rewrite last_cons_cons in Hlast.
    eapply rtc_l; [exact Hab|]. by apply IH.
Qed.

Lemma bfs_targets_sound (pf : ACPathfinder) (src : position) (fuel : nat)
  (tgts : list position) :
  in_box pf src →
  ∀ (idx : nat) (acc results : list path_info),
    bfs_targets fuel pf src idx tgts acc = Some (Ok results) →
    ∃ infos, results = acc ++ infos ∧ search_results pf src idx tgts infos.
Proof.
  intros Hsrc. induction tgts as [|t tgts IH]; intros idx acc results H.
  - injection H as <-. exists []. split; [by rewrite app_nil_r|constructor].
  - cbn [bfs_targets] in H.
    pose proof (bfs_loop_sound pf src idx t fuel _ (bfs_inv_init pf src t Hsrc))
      as Hsound.
    destruct (bfs_loop fuel pf idx t (bfs_init src)) as [[[info|]|e]|]; [| |done..].
    + destruct (IH _ _ _ H) as (infos & -> & Hres).
      exists (info :: infos). split; [by rewrite <- (assoc_L (++))|].
      constructor; [by eapply good_result_reachable|done..].
    + destruct (IH _ _ _ H) as (infos & -> & Hres).
      exists infos. split; [done|]. by constructor.
Qed.

Lemma bfs_targets_total (pf : ACPathfinder) (src : position) (fuel : nat)
  (tgts : list position) :
  grid_ok pf → in_box pf src → (bfs_budget pf ≤ fuel)%nat →
  ∀ (idx : nat) (acc : list path_info),
    ∃ results, bfs_targets fuel pf src idx tgts acc = Some (Ok results).
Proof.
  intros Hgrid Hsrc Hfuel. induction tgts as [|t tgts IH]; intros idx acc.
  - by eexists.
  - cbn [bfs_targets].
    destruct (bfs_search_total pf src idx t fuel Hgrid Hsrc Hfuel) as [[info|] ->];
      apply IH.
Qed.

(** ** Construction *)

Lemma find_position_in_elem (b : matrix) (symbol : string) (ps : list position)
  (p : position) :
  find_position_in b symbol ps = Ok (Some p) → p ∈ ps.
Proof.
  induction ps as [|[[f r] c] ps IH]; [done|]. cbn [find_position_in].
  destruct (building_at b f r c) as [cell|e]; [|done]. cbn.
  destruct (String.eqb cell symbol).
  - intros [= <-]. left.
  - intros H. right. by apply IH.
Qed.

Lemma find_all_positions_in_readable (b : matrix) (symbol : string)
  (ps acc out : list position) :
  find_all_positions_in b symbol ps acc = Ok out →
  ∀ f r c, (f, r, c) ∈ ps → ∃ cell, building_at b f r c = Ok cell.
Proof.
  revert acc. induction ps as [|[[f r] c] ps IH]; intros acc H f' r' c' Hin.
  - by apply elem_of_nil in Hin.
  - cbn [find_all_positions_in] in H.
    destruct (building_at b f r c) as [cell|e] eqn:Hcell; [|done]. cbn in H.
    apply elem_of_cons in Hin as [[= -> -> ->]|Hin]; [by eexists|].
    by eapply IH.
Qed.

Lemma find_all_positions_in_elem (b : matrix) (symbol : string)
  (ps acc out : list position) (p : position) :
  find_all_positions_in b symbol ps acc = Ok out →
  p ∈ out → p ∈ acc ∨ p ∈ ps.
Proof.
  revert acc. induction ps as [|[[f r] c] ps IH]; intros acc H Hin.
  - injection H as <-. by left.
  - cbn [find_all_positions_in] in H.
    destruct (building_at b f r c) as [cell|e] eqn:Hcell; [|done]. cbn in H.
    destruct (IH _ H Hin) as [Hacc|Hps]; [|right; by right].
    destruct (String.eqb cell symbol); [|by left].
    apply elem_of_app in Hacc as [Hacc| ->%list_elem_of_singleton];
      [by left|right; left].
Qed.

Lemma init_spec (b : matrix) (pf : ACPathfinder) :
  init b = Ok pf →
  building pf = b ∧
  grid_ok pf ∧
  (∀ src, source pf = Some src → in_box pf src) ∧
  (∀ t, t ∈ targets pf → in_box pf t).
Proof.
  unfold init, _find_position, _find_all_positions.
  set (nf := Z.of_nat (length b)).
  set (nr := match b with [] => 0 | fl0 :: _ => Z.of_nat (length fl0) end).
  set (nc := match b with (rw0 :: _) :: _ => Z.of_nat (length rw0) | _ => 0 end).
  destruct (find_position_in b "S" (scan_order nf nr nc)) as [src|e] eqn:Hs;
    [|done]. cbn.
  destruct (find_all_positions_in b "R" (scan_order nf nr nc) []) as [tgts|e]
    eqn:Ht; [|done]. cbn.
  destruct (find_all_positions_in b "T" (scan_order nf nr nc) []) as [strs|e]
    eqn:Hst; [|done]. cbn.
  intros [= <-]. cbn. split; [done|]. split; [|split].
  - intros f r c Hb. cbn.
    eapply find_all_positions_in_readable; [exact Ht|].
    apply scan_order_elem. by apply in_bounds_spec in Hb.
  - intros [[f r] c] ->. apply find_position_in_elem in Hs.
    apply scan_order_elem in Hs. by apply in_bounds_spec.
  - intros [[f r] c] Hin.
    destruct (find_all_positions_in_elem _ _ _ _ _ _ Ht Hin) as [Hnil|Hps].
    + by apply elem_of_nil in Hnil.
    + apply scan_order_elem in Hps. by apply in_bounds_spec.
Qed.

(** ** The simplifier raises nothing on a readable grid *)

Lemma all_valid_total (pf : ACPathfinder) (cells : list position) :
  grid_ok pf → ∃ v, all_valid pf cells = Ok v.
Proof.
  intros Hgrid. induction cells as [|[[f r] c] cells IH]; [by eexists|].
  cbn [all_valid].
  destruct (is_valid_position_total pf f r c Hgrid) as [[|] ->]; cbn;
    [done|by eexists].
Qed.

Lemma can_go_direct_total (pf : ACPathfinder) (a b : position) :
  grid_ok pf → ∃ v, _can_go_direct pf a b = Ok v.
Proof.
  intros Hgrid. destruct a as [[f1 r1] c1], b as [[f2 r2] c2].
  unfold _can_go_direct.
  destruct (negb (f1 =? f2)); [by eexists|].
  destruct (negb (r1 =? r2) && negb (c1 =? c2)); [by eexists|].
  destruct (r1 =? r2); by apply all_valid_total.
Qed.

Lemma optimize_tail_total (pf : ACPathfinder) (rest : list position)
  (prev_pos : position) :
  grid_ok pf → ∃ out, optimize_tail pf prev_pos rest = Ok out.
Proof.
  intros Hgrid. revert prev_pos.
  induction rest as [|curr rest IH]; intros prev_pos; [by eexists|].
  destruct rest as [|next rest]; [by eexists|].
  rewrite optimize_tail_cons.
  destruct (can_go_direct_total pf prev_pos next Hgrid) as [[|] ->]; [apply IH|].
  destruct (IH curr) as [out ->]. by eexists.
Qed.

Lemma optimize_energy_usage_total (pf : ACPathfinder)
  (path_info_list : list path_info) :
  grid_ok pf → ∃ out, optimize_energy_usage pf path_info_list = Ok out.
Proof.
  intros Hgrid. induction path_info_list as [|r rs [os IH]]; [by eexists|].
  cbn [optimize_energy_usage]. rewrite IH.
  assert (∃ o, optimize_one pf r = Ok o) as [o ->]; [|by eexists].
  unfold optimize_one.
  assert (∃ opt, _optimize_path_turns pf (path r) = Ok opt) as [opt ->].
  { destruct (path r) as [|p0 rest]; [by eexists|].
    rewrite optimize_path_turns_cons.
    destruct (optimize_tail_total pf rest p0 Hgrid) as [out ->]. by eexists. }
  cbn. destruct (Qlt_le_dec _ _); by eexists.
Qed.

Lemma optimize_one_spec64 (pf : ACPathfinder) (r o : Float64.path_info) :
  Float64.optimize_one pf r = Ok o →
  ∃ optimized_path,
    _optimize_path_turns pf (Float64.path r) = Ok optimized_path ∧
    ((PrimFloat.ltb (Float64._calculate_energy_cost optimized_path)
                    (Float64.energy_cost r) = true ∧
      Float64.replaced_by r o optimized_path) ∨
     (PrimFloat.ltb (Float64._calculate_energy_cost optimized_path)
                    (Float64.energy_cost r) = false ∧
      Float64.kept_as r o)).
Proof.
  unfold Float64.optimize_one. intros H.
  destruct (_optimize_path_turns pf (Float64.path r)) as [opt|e]; [|done].
  exists opt. split; [done|]. cbn [mbind result_bind] in H.
  destruct (PrimFloat.ltb (Float64._calculate_energy_cost opt)
                          (Float64.energy_cost r)) eqn:Hlt;
    injection H as <-.
  - left. split; [done|]. by repeat split.
  - right. split; [done|]. by repeat split.
Qed.


(** The simplifier keeps the records consistent in binary64 too: a record
    it replaces gets the cost of its new path. *)
Lemma optimize_one_consistent64 (pf : ACPathfinder) (r o : Float64.path_info) :
  Float64.consistent r → Float64.optimize_one pf r = Ok o → Float64.consistent o.
Proof.
  intros Hr Ho. unfold Float64.consistent in *.
  destruct (optimize_one_spec64 pf r o Ho) as (opt & _ & Hcase).
  destruct Hcase as [[_ (_ & _ & -> & _ & -> & _)]
                    |[_ (_ & _ & -> & _ & -> & _)]]; done.
Qed.



(** ** Breadth-first router: all targets *)

Lemma bfs_pathfinding_sound (b : matrix) (pf : ACPathfinder) (fuel : nat)
  (results : list path_info) :
  init b = Ok pf →
  bfs_pathfinding fuel pf = Some (Ok results) →
  (results = [] ∧ (source pf = None ∨ targets pf = [])) ∨
  (∃ src, source pf = Some src ∧
          search_results pf src 0 (targets pf) results).
Proof.
  intros (_ & _ & Hsrc & _)%init_spec. unfold bfs_pathfinding.
  destruct (source pf) as [src|]; [|intros [= <-]; left; auto].
  destruct (targets pf) as [|t tgts] eqn:Htg; [intros [= <-]; left; auto|].
  intros H. right. exists src. split; [done|].
  destruct (bfs_targets_sound pf src fuel (t :: tgts) (Hsrc src eq_refl) _ _ _ H)
    as (infos & -> & Hres).
  done.
Qed.

Lemma bfs_pathfinding_total (b : matrix) (pf : ACPathfinder) (fuel : nat) :
  init b = Ok pf → (bfs_budget pf ≤ fuel)%nat →
  ∃ results, bfs_pathfinding fuel pf = Some (Ok results).
Proof.
  intros (_ & Hgrid & Hsrc & _)%init_spec Hfuel. unfold bfs_pathfinding.
  destruct (source pf) as [src|]; [|by eexists].
  destruct (targets pf) as [|t tgts]; [by eexists|].
  by apply bfs_targets_total; [|apply Hsrc|].
Qed.

Lemma search_results_elem (pf : ACPathfinder) (src : position) (idx : nat)
  (tgts : list position) (infos : list path_info) (info : path_info) :
  search_results pf src idx tgts infos → info ∈ infos →
  ∃ idx' target, target ∈ tgts ∧ reachable pf src target ∧
                 good_result pf src idx' target info.
Proof.
  induction 1 as [|idx t tgts i infos Hr Hg _ IH|idx t tgts infos Hn _ IH];
    intros Hin.
  - by apply elem_of_nil in Hin.
  - apply elem_of_cons in Hin as [->|Hin].
    + exists idx, t. split; [left|done].
    + destruct (IH Hin) as (idx' & t' & ? & ?). exists idx', t'.
      split; [by right|done].
  - destruct (IH Hin) as (idx' & t' & ? & ?). exists idx', t'.
    split; [by right|done].
Qed.

Lemma search_results_complete (pf : ACPathfinder) (src : position) (idx : nat)
  (tgts : list position) (infos : list path_info) (target : position) :
  search_results pf src idx tgts infos → target ∈ tgts →
  reachable pf src target →
  ∃ idx' info, info ∈ infos ∧ good_result pf src idx' target info.
Proof.
  induction 1 as [|idx t tgts i infos Hr Hg _ IH|idx t tgts infos Hn _ IH];
    intros Hin Hreach.
  - by apply elem_of_nil in Hin.
  - apply elem_of_cons in Hin as [->|Hin].
    + exists idx, i. split; [left|done].
    + destruct (IH Hin Hreach) as (idx' & i' & ? & ?). exists idx', i'.
      split; [by right|done].
  - apply elem_of_cons in Hin as [->|Hin]; [done|]. by apply IH.
Qed.

Lemma bfs_iter_inv (pf : ACPathfinder) (src : position) (idx : nat)
  (target : position) (k : nat) :
  ∀ (k0 : nat) (st st' : bfs_state),
    bfs_inv pf src target st →
    (k0 + length (queue st) = size (visited st))%nat →
    bfs_iter k pf idx target st = Some st' →
    bfs_inv pf src target st' ∧
    (k0 + k + length (queue st') = size (visited st'))%nat.
Proof.
  induction k as [|k IH]; intros k0 st st' Hinv Hcount Hiter.
  - injection Hiter as <-. split; [done|lia].
  - cbn [bfs_iter] in Hiter.
    destruct (bfs_step pf idx target st) as [[st1| |]|e] eqn:Hstep; [|done..].
    destruct (bfs_inv_step _ _ _ _ _ _ Hinv Hstep) as [Hinv1 Hsize].
    destruct (IH (S k0) st1 st' Hinv1) as [Hinv' Hcount']; [lia|done|].
    split; [done|lia].
Qed.

(** ** Concrete runs *)

Lemma init_corridor : init corridor = Ok corridor_pf.
Proof. reflexivity. Qed.

Lemma init_two_floors : init two_floors = Ok two_floors_pf.
Proof. reflexivity. Qed.

Lemma init_walled : init walled = Ok walled_pf.
Proof. reflexivity. Qed.

Lemma init_no_source : init no_source = Ok no_source_pf.
Proof. reflexivity. Qed.

Lemma init_hall : init hall = Ok hall_pf.
Proof. reflexivity. Qed.

Lemma bfs_corridor :
  bfs_pathfinding (bfs_budget corridor_pf) corridor_pf = Some (Ok [corridor_info]).
Proof. vm_compute. reflexivity. Qed.

Lemma bfs_walled :
  bfs_pathfinding (bfs_budget walled_pf) walled_pf = Some (Ok [walled_info]).
Proof. vm_compute. reflexivity. Qed.

Lemma bfs_hall :
  bfs_pathfinding (bfs_budget hall_pf) hall_pf = Some (Ok [hall_info]).
Proof. vm_compute. reflexivity. Qed.

(** The only way up is the stair pair (0,1,1), (1,1,1). *)
Lemma bfs_two_floors :
  bfs_pathfinding (bfs_budget two_floors_pf) two_floors_pf
  = Some (Ok [two_floors_info]).
Proof. vm_compute. reflexivity. Qed.

Lemma optimize_hall :
  optimize_energy_usage hall_pf [hall_info] = Ok [hall_optimized].
Proof. vm_compute. reflexivity. Qed.

(** The simplifier does not repair a record that comes in with a stale
    cost: consistency of its results rests on that of its arguments. *)
Lemma optimize_keeps_stale_cost :
  ∃ o, optimize_energy_usage hall_pf [stale_info] = Ok [o] ∧
       path o = path stale_info ∧
       energy_cost o = 0%Q ∧
       ¬ (energy_cost o == _calculate_energy_cost (path o))%Q.
Proof.
  eexists. split; [vm_compute; reflexivity|]. cbn [path energy_cost].
  split; [reflexivity|]. split; [reflexivity|].
  vm_compute. discriminate.
Qed.

(** In binary64 the route through the hall is replaced by its two ends,
    and the saving stored with it is 3.3000000000000003. *)
Lemma optimize_hall64 :
  Float64.optimize_energy_usage hall_pf [hall_info64]
  = Ok [{| Float64.target_index := 0; Float64.target_position := (0, 0, 4);
           Float64.path := hall_short; Float64.steps := 2;
           Float64.energy_cost := 1.1;
           Float64.energy_saved := Some 3.3000000000000003%float |}].
Proof. vm_compute. reflexivity. Qed.

Lemma init_terrace : init terrace = Ok terrace_pf.
Proof. reflexivity. Qed.

(** No waypoint of the staircase can be dropped, and its cost is summed to
    12.299999999999999. A record that came in with 12.3 is therefore
    replaced, by the same path, with a saving of one unit in the last
    place. *)
Lemma optimize_staircase64 :
  _optimize_path_turns terrace_pf staircase = Ok staircase ∧
  Float64._calculate_energy_cost staircase = 12.299999999999999%float ∧
  Float64.optimize_energy_usage terrace_pf [staircase_info64]
  = Ok [{| Float64.target_index := 0; Float64.target_position := (0, 4, 4);
           Float64.path := staircase; Float64.steps := 9;
           Float64.energy_cost := 12.299999999999999;
           Float64.energy_saved := Some 1.7763568394002505e-15%float |}].
Proof. repeat split; vm_compute; reflexivity. Qed.

(** * The claims about the router *)

(** C1. Every record emitted by [bfs_pathfinding] is for a target that can
    be reached from the source, and its path starts at the source, ends at
    that target, and moves, between any two consecutive positions, either
    to a valid (in bounds, not a wall) neighbour on the same floor or
    between two stair cells at the same row and column of different
    floors. Conversely, within the budget a record is emitted for every
    target that can be reached. *)
Theorem bfs_paths_are_valid_walks (b : matrix) (pf : ACPathfinder) :
  init b = Ok pf →
  (∀ (fuel : nat) (results : list path_info) (info : path_info),
     bfs_pathfinding fuel pf = Some (Ok results) → info ∈ results →
     ∃ src, source pf = Some src ∧
            target_position info ∈ targets pf ∧
            reachable pf src (target_position info) ∧
            head (path info) = Some src ∧
            last (path info) = Some (target_position info) ∧
            chain (bfs_move pf) (path info)) ∧
  (∀ fuel : nat, (bfs_budget pf ≤ fuel)%nat →
     ∃ results, bfs_pathfinding fuel pf = Some (Ok results) ∧
       ∀ src target, source pf = Some src → target ∈ targets pf →
                     reachable pf src target →
         ∃ info, info ∈ results ∧
                 target_position info = target ∧
                 head (path info) = Some src ∧
                 last (path info) = Some target ∧
                 chain (bfs_move pf) (path info)).
Proof.
  intros Hinit. split.
  - intros fuel results info Hbfs Hin.
    destruct (bfs_pathfinding_sound b pf fuel results Hinit Hbfs)
      as [[-> _]|(src & Hsrc & Hres)]; [by apply elem_of_nil in Hin|].
    destruct (search_results_elem _ _ _ _ _ _ Hres Hin)
      as (idx & t & Ht & Hreach & (_ & Htp & Hh & Hl & Hc & _)).
    exists src. rewrite Htp. by repeat split.
  - intros fuel Hfuel.
    destruct (bfs_pathfinding_total b pf fuel Hinit Hfuel) as [results Hbfs].
    exists results. split; [done|]. intros src target Hsrc Ht Hreach.
    destruct (bfs_pathfinding_sound b pf fuel results Hinit Hbfs)
      as [[_ [Hnone|Hnil]]|(src' & Hsrc' & Hres)].
    + congruence.
    + rewrite Hnil in Ht. by apply elem_of_nil in Ht.
    + assert (src' = src) as -> by congruence.
      destruct (search_results_complete _ _ _ _ _ _ Hres Ht Hreach)
        as (idx & info & Hin & (_ & Htp & Hh & Hl & Hc & _)).
      exists info. by repeat split.
Qed.

Lemma bfs_paths_are_valid_walks_witness :
  (∃ src, source corridor_pf = Some src ∧
          target_position corridor_info ∈ targets corridor_pf ∧
          reachable corridor_pf src (target_position corridor_info) ∧
          head (path corridor_info) = Some src ∧
          last (path corridor_info) = Some (target_position corridor_info) ∧
          chain (bfs_move corridor_pf) (path corridor_info)) ∧
  (∃ results,
     bfs_pathfinding (bfs_budget corridor_pf) corridor_pf = Some (Ok results) ∧
     ∀ src target, source corridor_pf = Some src → target ∈ targets corridor_pf →
                   reachable corridor_pf src target →
       ∃ info, info ∈ results ∧
               target_position info = target ∧
               head (path info) = Some src ∧
               last (path info) = Some target ∧
               chain (bfs_move corridor_pf) (path info)).
Proof.
  split.
  - apply (proj1 (bfs_paths_are_valid_walks corridor corridor_pf eq_refl)
             (bfs_budget corridor_pf) [corridor_info]).
    + vm_compute. reflexivity.
    + apply list_elem_of_here.
  - apply (proj2 (bfs_paths_are_valid_walks corridor corridor_pf eq_refl)
             (bfs_budget corridor_pf)).
    vm_compute. lia.
Defined.

(** C4. The cost stored in a record is the cost of the path stored with
    it: in every record emitted by [bfs_pathfinding], and in every record
    returned by [optimize_energy_usage] for records that had this
    property, those of [bfs_pathfinding] among them. *)
Theorem energy_cost_consistent_with_path (b : matrix) (pf : ACPathfinder) :
  init b = Ok pf →
  (∀ (fuel : nat) (results : list path_info),
     bfs_pathfinding fuel pf = Some (Ok results) → Forall consistent results) ∧
  (∀ path_info_list optimized_paths : list path_info,
     Forall consistent path_info_list →
     optimize_energy_usage pf path_info_list = Ok optimized_paths →
     Forall consistent optimized_paths) ∧
  (∀ (fuel : nat) (results optimized_paths : list path_info),
     bfs_pathfinding fuel pf = Some (Ok results) →
     optimize_energy_usage pf results = Ok optimized_paths →
     Forall consistent optimized_paths).
Proof.
  intros Hinit.
  assert (∀ fuel results,
            bfs_pathfinding fuel pf = Some (Ok results) →
            Forall consistent results) as Hbfs.
  { intros fuel results Hrun. apply Forall_forall. intros info Hin.
    destruct (bfs_pathfinding_sound b pf fuel results Hinit Hrun)
      as [[-> _]|(src & Hsrc & Hres)]; [by apply elem_of_nil in Hin|].
    destruct (search_results_elem _ _ _ _ _ _ Hres Hin)
      as (idx & t & _ & _ & (_ & _ & _ & _ & _ & _ & _ & Hcost & _)).
    done. }
  split; [done|]. split.
  - apply optimize_energy_usage_consistent.
  - intros fuel results out Hrun Hopt.
    eapply optimize_energy_usage_consistent; [|done]. by eapply Hbfs.
Qed.

Lemma energy_cost_consistent_with_path_witness :
  Forall consistent [corridor_info] ∧
  Forall consistent [hall_optimized] ∧
  Forall consistent [hall_optimized].
Proof.
  split; [|split].
  - apply (proj1 (energy_cost_consistent_with_path corridor corridor_pf eq_refl)
             (bfs_budget corridor_pf)).
    vm_compute. reflexivity.
  - apply (proj1 (proj2 (energy_cost_consistent_with_path hall hall_pf eq_refl))
             [hall_info]).
    + repeat constructor.
    + vm_compute. reflexivity.
  - apply (proj2 (proj2 (energy_cost_consistent_with_path hall hall_pf eq_refl))
             (bfs_budget hall_pf) [hall_info]).
    + vm_compute. reflexivity.
    + vm_compute. reflexivity.
Defined.

(** C10. A path emitted by [bfs_pathfinding] visits no position twice. *)
Theorem bfs_paths_have_no_repetition (b : matrix) (pf : ACPathfinder)
  (fuel : nat) (results : list path_info) (info : path_info) :
  init b = Ok pf →
  bfs_pathfinding fuel pf = Some (Ok results) →
  info ∈ results →
  NoDup (path info).
Proof.
  intros Hinit Hrun Hin.
  destruct (bfs_pathfinding_sound b pf fuel results Hinit Hrun)
    as [[-> _]|(src & Hsrc & Hres)]; [by apply elem_of_nil in Hin|].
  destruct (search_results_elem _ _ _ _ _ _ Hres Hin)
    as (idx & t & _ & _ & (_ & _ & _ & _ & _ & Hnd & _)).
  done.
Qed.

Lemma bfs_paths_have_no_repetition_witness : NoDup corridor_path.
Proof.
  apply (bfs_paths_have_no_repetition corridor corridor_pf
           (bfs_budget corridor_pf) [corridor_info] corridor_info).
  - reflexivity.
  - vm_compute. reflexivity.
  - apply list_elem_of_here.
Defined.

(** C8. Without source, or without target, [bfs_pathfinding] returns the
    empty list and raises nothing. Otherwise, within the budget, it raises
    nothing either and returns the records of the targets that can be
    reached, in order: a target that cannot be reached contributes no
    record, and the targets after it are searched all the same. *)
Theorem bfs_pathfinding_soft_failures (b : matrix) (pf : ACPathfinder) :
  init b = Ok pf →
  (∀ fuel : nat, source pf = None ∨ targets pf = [] →
                 bfs_pathfinding fuel pf = Some (Ok [])) ∧
  (∀ fuel : nat, (bfs_budget pf ≤ fuel)%nat →
     ∃ results, bfs_pathfinding fuel pf = Some (Ok results) ∧
       ∀ src, source pf = Some src →
         search_results pf src 0 (targets pf) results ∧
         (∀ target info, target ∈ targets pf → ¬ reachable pf src target →
                         info ∈ results → target_position info ≠ target) ∧
         (∀ target, target ∈ targets pf → reachable pf src target →
                    ∃ info, info ∈ results ∧ target_position info = target)).
Proof.
  intros Hinit. split.
  - intros fuel [Hnone|Hnil]; unfold bfs_pathfinding.
    + by rewrite Hnone.
    + rewrite Hnil. by destruct (source pf).
  - intros fuel Hfuel.
    destruct (bfs_pathfinding_total b pf fuel Hinit Hfuel) as [results Hrun].
    exists results. split; [done|]. intros src Hsrc.
    destruct (bfs_pathfinding_sound b pf fuel results Hinit Hrun)
      as [[-> [Hnone|Hnil]]|(src' & Hsrc' & Hres)].
    + congruence.
    + rewrite Hnil. split; [constructor|]. split.
      * by intros target info Hin%elem_of_nil.
      * by intros target Hin%elem_of_nil.
    + assert (src' = src) as -> by congruence.
      split; [done|]. split.
      * intros target info Ht Hunreach Hin Heq.
        destruct (search_results_elem _ _ _ _ _ _ Hres Hin)
          as (idx & t & _ & Hreach & (_ & Htp & _)).
        apply Hunreach. congruence.
      * intros target Ht Hreach.
        destruct (search_results_complete _ _ _ _ _ _ Hres Ht Hreach)
          as (idx & info & Hin & (_ & Htp & _)).
        by exists info.
Qed.

Lemma bfs_pathfinding_soft_failures_witness :
  bfs_pathfinding 0 no_source_pf = Some (Ok []) ∧
  ∃ results, bfs_pathfinding (bfs_budget walled_pf) walled_pf = Some (Ok results) ∧
    ∀ src, source walled_pf = Some src →
      search_results walled_pf src 0 (targets walled_pf) results ∧
      (∀ target info, target ∈ targets walled_pf →
                      ¬ reachable walled_pf src target →
                      info ∈ results → target_position info ≠ target) ∧
      (∀ target, target ∈ targets walled_pf → reachable walled_pf src target →
                 ∃ info, info ∈ results ∧ target_position info = target).
Proof.
  split.
  - apply (proj1 (bfs_pathfinding_soft_failures no_source no_source_pf eq_refl) 0%nat).
    left. reflexivity.
  - apply (proj2 (bfs_pathfinding_soft_failures walled walled_pf eq_refl)
             (bfs_budget walled_pf)).
    vm_compute. lia.
Defined.

(** C9. One target's search terminates. After [k] iterations, the
    positions enqueued so far, the [k] dequeued ones and those still in
    the queue, are as many as the visited positions, which lie inside the
    bounds and so number at most [floors * rows * cols]; no position is in
    the queue twice. Hence within [bfs_budget] iterations the queue
    empties or the target is dequeued. *)
Theorem bfs_search_terminates (b : matrix) (pf : ACPathfinder) (src : position)
  (target_idx : nat) (target : position) :
  init b = Ok pf → source pf = Some src →
  (∀ (k : nat) (st : bfs_state),
     bfs_iter k pf target_idx target (bfs_init src) = Some st →
     (k + length (queue st) = size (visited st))%nat ∧
     (size (visited st) ≤ Z.to_nat (floors pf * rows pf * cols pf))%nat ∧
     NoDup (queue st).*1 ∧
     (∀ p, p ∈ (queue st).*1 → p ∈ visited st)) ∧
  (∀ fuel : nat, (bfs_budget pf ≤ fuel)%nat →
     ∃ r, bfs_loop fuel pf target_idx target (bfs_init src) = Some (Ok r)).
Proof.
  intros (_ & Hgrid & Hbox & _)%init_spec Hsrc.
  specialize (Hbox src Hsrc). split.
  - intros k st Hiter.
    destruct (bfs_iter_inv pf src target_idx target k 0 _ st
                (bfs_inv_init pf src target Hbox)) as [Hinv Hcount];
      [by cbn; rewrite size_singleton|done|].
    split; [done|]. split; [by apply size_in_box, (inv_box _ _ _ _ Hinv)|].
    split; [by apply (inv_nodup _ _ _ _ Hinv)|].
    intros p ([pos pth] & -> & Hin)%list_elem_of_fmap.
    pose proof (inv_entries _ _ _ _ Hinv) as Hent.
    rewrite Forall_forall in Hent.
    destruct (Hent _ Hin) as (_ & Hl & _ & _ & Hvis). cbn in *.
    by apply Hvis, last_Some_elem_of.
  - intros fuel Hfuel. by apply bfs_search_total.
Qed.

Lemma bfs_search_terminates_witness :
  ((1 + length (queue corridor_after_one) = size (visited corridor_after_one))%nat ∧
   (size (visited corridor_after_one)
    ≤ Z.to_nat (floors corridor_pf * rows corridor_pf * cols corridor_pf))%nat ∧
   NoDup (queue corridor_after_one).*1 ∧
   (∀ p, p ∈ (queue corridor_after_one).*1 → p ∈ visited corridor_after_one)) ∧
  ∃ r, bfs_loop (bfs_budget corridor_pf) corridor_pf 0 (0, 0, 2)
         (bfs_init (0, 0, 0)) = Some (Ok r).
Proof.
  split.
  - apply (proj1 (bfs_search_terminates corridor corridor_pf (0, 0, 0) 0%nat
                    (0, 0, 2) eq_refl eq_refl) 1%nat corridor_after_one).
    vm_compute. reflexivity.
  - apply (proj2 (bfs_search_terminates corridor corridor_pf (0, 0, 0) 0%nat
                    (0, 0, 2) eq_refl eq_refl) (bfs_budget corridor_pf)).
    vm_compute. lia.
Defined.

(** C5, as the code has it. On the one-floor 3x3 grid with the source at
    (0,0,0), a room at (0,0,2) and walls at (0,1,0), (0,1,1), (0,1,2),
    [bfs_pathfinding] finds the path [(0,0,0); (0,0,1); (0,0,2)] with
    [steps = 3]; its two moves cost 2 * 0.1 + 2 * 1.0 = 2.2, without
    turn. *)
Theorem corridor_scenario :
  init corridor = Ok corridor_pf ∧
  ∃ info,
    bfs_pathfinding (bfs_budget corridor_pf) corridor_pf = Some (Ok [info]) ∧
    target_position info = (0, 0, 2) ∧
    path info = [(0, 0, 0); (0, 0, 1); (0, 0, 2)] ∧
    steps info = 3%nat ∧
    (energy_cost info
     == 2 * energy_costs.base_pressure + 2 * energy_costs.horizontal)%Q ∧
    (energy_cost info == 22 # 10)%Q.
Proof.
  split; [reflexivity|]. exists corridor_info.
  split; [exact bfs_corridor|]. by repeat split.
Qed.

(** C5, as stated, fails: the cost found is not 3.3. *)
Lemma corridor_scenario_cost_is_not_3_3 :
  ¬ ∃ info,
      bfs_pathfinding (bfs_budget corridor_pf) corridor_pf = Some (Ok [info]) ∧
      path info = [(0, 0, 0); (0, 0, 1); (0, 0, 2)] ∧
      steps info = 3%nat ∧
      (energy_cost info == 33 # 10)%Q.
Proof.
  intros (info & Hrun & _ & _ & Hcost).
  rewrite bfs_corridor in Hrun. injection Hrun as <-.
  vm_compute in Hcost. discriminate Hcost.
Qed.

(** * Further properties *)

(** ** The scans of the grid *)

Lemma py_getitem_Ok {A : Type} (l : list A) (i : Z) (x : A) :
  0 ≤ i → py_getitem l i = Ok x ↔ l !! Z.to_nat i = Some x.
Proof.
  intros Hi. unfold py_getitem.
  destruct (Z.ltb_spec i 0); [lia|].
  destruct (Z.leb_spec 0 i); [|lia]. cbn [andb].
  destruct (Z.ltb_spec i (Z.of_nat (length l))) as [Hlt|Hge].
  - destruct (l !! Z.to_nat i) eqn:E; [split; congruence|].
    apply lookup_ge_None in E. lia.
  - split; [done|]. intros E%lookup_lt_Some. lia.
Qed.

Lemma find_all_positions_in_filter (b : matrix) (symbol : string)
  (ps acc out : list position) :
  find_all_positions_in b symbol ps acc = Ok out →
  out = acc ++ filter (fun p => has_symbol b symbol p = true) ps.
Proof.
  revert acc. induction ps as [|[[f r] c] ps IH]; intros acc H.
  - injection H as <-. by rewrite app_nil_r.
  - cbn [find_all_positions_in] in H.
    destruct (building_at b f r c) as [cell|e] eqn:Hcell; [|done]. cbn in H.
    assert (has_symbol b symbol (f, r, c) = String.eqb cell symbol) as Hs
      by (unfold has_symbol; by rewrite Hcell).
    rewrite (IH _ H), filter_cons, Hs.
    destruct (String.eqb cell symbol).
    + rewrite decide_True by done. by rewrite <- (assoc_L (++)).
    + by rewrite decide_False by done.
Qed.

Lemma find_all_positions_in_total (b : matrix) (symbol : string)
  (ps acc : list position) :
  (∀ f r c, (f, r, c) ∈ ps → ∃ cell, building_at b f r c = Ok cell) →
  ∃ out, find_all_positions_in b symbol ps acc = Ok out.
Proof.
  revert acc. induction ps as [|[[f r] c] ps IH]; intros acc H; [by eexists|].
  cbn [find_all_positions_in].
  destruct (H f r c) as [cell ->]; [left|]. cbn.
  apply IH. intros f' r' c' Hin. apply H. by right.
Qed.

Lemma find_position_in_head (b : matrix) (symbol : string) (ps : list position) :
  (∀ f r c, (f, r, c) ∈ ps → ∃ cell, building_at b f r c = Ok cell) →
  find_position_in b symbol ps
  = Ok (head (filter (fun p => has_symbol b symbol p = true) ps)).
Proof.
  induction ps as [|[[f r] c] ps IH]; intros H; [done|].
  cbn [find_position_in]. rewrite filter_cons.
  destruct (H f r c) as [cell Hcell]; [left|].
  assert (has_symbol b symbol (f, r, c) = String.eqb cell symbol) as Hs
    by (unfold has_symbol; by rewrite Hcell).
  rewrite Hs, Hcell. cbn.
  destruct (String.eqb cell symbol).
  - by rewrite decide_True by done.
  - rewrite decide_False by done.
    apply IH. intros f' r' c' Hin. apply H. by right.
Qed.

Lemma NoDup_scan_order (nf nr nc : Z) : NoDup (scan_order nf nr nc).
Proof.
  unfold scan_order, py_range.
  apply NoDup_bind; [| |apply NoDup_seqZ].
  - intros f1 f2 [[f r] c] _ _
      (r1 & (c1 & [= -> -> ->]%list_elem_of_singleton & _)%list_elem_of_bind
          & _)%list_elem_of_bind
      (r2 & (c2 & [= -> -> ->]%list_elem_of_singleton & _)%list_elem_of_bind
          & _)%list_elem_of_bind.
    done.
  - intros f _. apply NoDup_bind; [| |apply NoDup_seqZ].
    + intros r1 r2 [[f' r] c] _ _
        (c1 & [= -> -> ->]%list_elem_of_singleton & _)%list_elem_of_bind
        (c2 & [= -> ->]%list_elem_of_singleton & _)%list_elem_of_bind.
      done.
    + intros r _. apply NoDup_bind; [| |apply NoDup_seqZ].
      * intros c1 c2 p _ _ ->%list_elem_of_singleton
          [= ->]%list_elem_of_singleton. done.
      * intros c _. apply NoDup_singleton.
Qed.

(** X1. When [_find_all_positions] returns, it returns the in-bounds cells
    that hold the symbol, each once, in the order of the scan: floor by
    floor, row by row, column by column. *)
Theorem find_all_positions_exact (b : matrix) (nf nr nc : Z) (symbol : string)
  (positions : list position) :
  _find_all_positions b nf nr nc symbol = Ok positions →
  positions = filter (fun p => has_symbol b symbol p = true) (scan_order nf nr nc) ∧
  NoDup positions ∧
  (∀ f r c, (f, r, c) ∈ positions ↔
            0 ≤ f < nf ∧ 0 ≤ r < nr ∧ 0 ≤ c < nc ∧
            building_at b f r c = Ok symbol).
Proof.
  unfold _find_all_positions. intros H.
  pose proof (find_all_positions_in_filter _ _ _ _ _ H) as ->. cbn [app].
  split; [done|]. split; [apply NoDup_filter, NoDup_scan_order|].
  intros f r c. rewrite list_elem_of_filter, scan_order_elem.
  unfold has_symbol.
  destruct (building_at b f r c) as [cell|e]; [|naive_solver].
  destruct (String.eqb_spec cell symbol) as [->|Hne]; naive_solver.
Qed.

Lemma find_all_positions_exact_witness :
  [(0, 0, 0); (0, 0, 4)]
  = filter (fun p => has_symbol walled "R" p = true) (scan_order 1 1 5) ∧
  NoDup [(0, 0, 0); (0, 0, 4)] ∧
  (∀ f r c, (f, r, c) ∈ [(0, 0, 0); (0, 0, 4)] ↔
            0 ≤ f < 1 ∧ 0 ≤ r < 1 ∧ 0 ≤ c < 5 ∧
            building_at walled f r c = Ok "R"%string).
Proof.
  apply (find_all_positions_exact walled 1 1 5 "R" [(0, 0, 0); (0, 0, 4)]).
  reflexivity.
Defined.

(** X2. [_find_position] returns the first cell of [_find_all_positions],
    or [None] when there is none: whenever the full scan returns, the
    early-exit scan returns its head. *)
Theorem find_position_is_first (b : matrix) (nf nr nc : Z) (symbol : string)
  (positions : list position) :
  _find_all_positions b nf nr nc symbol = Ok positions →
  _find_position b nf nr nc symbol = Ok (head positions).
Proof.
  unfold _find_all_positions, _find_position. intros H.
  pose proof (find_all_positions_in_filter _ _ _ _ _ H) as ->. cbn [app].
  apply find_position_in_head.
  by apply (find_all_positions_in_readable _ _ _ _ _ H).
Qed.

Lemma find_position_is_first_witness :
  _find_position walled 1 1 5 "R" = Ok (head [(0, 0, 0); (0, 0, 4)]).
Proof.
  apply (find_position_is_first walled 1 1 5 "R" [(0, 0, 0); (0, 0, 4)]).
  reflexivity.
Defined.

(** ** The constructor *)

Lemma building_at_readable (b : matrix) (f r c : Z) :
  0 ≤ f → 0 ≤ r → 0 ≤ c →
  (∃ cell, building_at b f r c = Ok cell) ↔
  ∃ fl rw, b !! Z.to_nat f = Some fl ∧ fl !! Z.to_nat r = Some rw ∧
           (Z.to_nat c < length rw)%nat.
Proof.
  intros Hf Hr Hc. unfold building_at. split.
  - intros [cell H].
    destruct (py_getitem b f) as [fl|e] eqn:Hfl; [|done]. cbn in H.
    destruct (py_getitem fl r) as [rw|e] eqn:Hrw; [|done]. cbn in H.
    apply py_getitem_Ok in Hfl, Hrw, H; try done.
    exists fl, rw. split; [done|]. split; [done|]. by eapply lookup_lt_Some.
  - intros (fl & rw & Hfl & Hrw & Hlt).
    apply py_getitem_Ok in Hfl, Hrw; try done. rewrite Hfl. cbn. rewrite Hrw. cbn.
    destruct (lookup_lt_is_Some_2 rw (Z.to_nat c) Hlt) as [cell Hcell].
    exists cell. by apply py_getitem_Ok.
Qed.

Lemma covers_readable (b : matrix) (nr nc f r c : Z) :
  covers b nr nc →
  0 ≤ f < Z.of_nat (length b) → 0 ≤ r < nr → 0 ≤ c < nc →
  ∃ cell, building_at b f r c = Ok cell.
Proof.
  intros Hcov Hf Hr Hc. apply building_at_readable; [lia..|].
  destruct (lookup_lt_is_Some_2 b (Z.to_nat f)) as [fl Hfl]; [lia|].
  unfold covers in Hcov. rewrite Forall_forall in Hcov.
  destruct (Hcov fl) as [Hlen Hrows]; [by eapply list_elem_of_lookup_2|].
  destruct (lookup_lt_is_Some_2 fl (Z.to_nat r)) as [rw Hrw]; [lia|].
  exists fl, rw. split; [done|]. split; [done|].
  rewrite Forall_forall in Hrows.
  assert (nc ≤ Z.of_nat (length rw)); [|lia].
  apply Hrows. apply (list_elem_of_lookup_2 _ (Z.to_nat r)).
  rewrite lookup_take_lt; [done|lia].
Qed.

Lemma readable_covers (b : matrix) (nr nc : Z) :
  0 < nr → 0 < nc →
  (∀ f r c, (f, r, c) ∈ scan_order (Z.of_nat (length b)) nr nc →
            ∃ cell, building_at b f r c = Ok cell) →
  covers b nr nc.
Proof.
  intros Hnr Hnc Hread. apply Forall_forall. intros fl Hin.
  apply list_elem_of_lookup_1 in Hin as [i Hi].
  pose proof (lookup_lt_Some _ _ _ Hi) as Hilt.
  assert (∀ r c, 0 ≤ r < nr → 0 ≤ c < nc →
            ∃ rw, fl !! Z.to_nat r = Some rw ∧ (Z.to_nat c < length rw)%nat)
    as Hcell.
  { intros r c Hr Hc.
    destruct (Hread (Z.of_nat i) r c) as [cell Hcell];
      [apply scan_order_elem; lia|].
    assert (∃ cell, building_at b (Z.of_nat i) r c = Ok cell) as Hex
      by by eexists.
    apply building_at_readable in Hex as (fl' & rw & Hfl' & Hrw & Hlt);
      [|lia..].
    unfold matrix in *. rewrite Nat2Z.id, Hi in Hfl'. injection Hfl' as <-.
    by exists rw. }
  split.
  - destruct (Hcell (nr - 1) 0) as (rw & Hrw & _); [lia..|].
    apply lookup_lt_Some in Hrw. lia.
  - apply Forall_forall. intros rw Hrw.
    apply list_elem_of_lookup_1 in Hrw as [j Hj].
    pose proof (lookup_lt_Some _ _ _ Hj) as Hjlt. rewrite length_take in Hjlt.
    rewrite lookup_take_lt in Hj by lia.
    destruct (Hcell (Z.of_nat j) (nc - 1)) as (rw' & Hrw' & Hlt); [lia..|].
    rewrite Nat2Z.id, Hj in Hrw'. injection Hrw' as <-. lia.
Qed.

Lemma init_unfold (b : matrix) :
  init b =
  (src ← _find_position b (Z.of_nat (length b)) (rows_of b) (cols_of b) "S";
   tgts ← _find_all_positions b (Z.of_nat (length b)) (rows_of b) (cols_of b) "R";
   strs ← _find_all_positions b (Z.of_nat (length b)) (rows_of b) (cols_of b) "T";
   Ok {| building := b; floors := Z.of_nat (length b); rows := rows_of b;
         cols := cols_of b; source := src; targets := tgts; stairs := strs |}).
Proof. reflexivity. Qed.

(** X3. What the constructor stores: the dimensions of the first floor and
    of its first row, as source the first ['S'] cell of the scan (further
    ones are ignored), as targets all ['R'] cells and as stairs all ['T']
    cells, in scan order. *)
Theorem init_fields (b : matrix) (pf : ACPathfinder) :
  init b = Ok pf →
  building pf = b ∧
  floors pf = Z.of_nat (length b) ∧
  rows pf = rows_of b ∧
  cols pf = cols_of b ∧
  source pf
  = head (filter (fun p => has_symbol b "S" p = true)
                 (scan_order (floors pf) (rows pf) (cols pf))) ∧
  targets pf
  = filter (fun p => has_symbol b "R" p = true)
           (scan_order (floors pf) (rows pf) (cols pf)) ∧
  stairs pf
  = filter (fun p => has_symbol b "T" p = true)
           (scan_order (floors pf) (rows pf) (cols pf)).
Proof.
  rewrite init_unfold. unfold _find_position, _find_all_positions.
  set (ps := scan_order (Z.of_nat (length b)) (rows_of b) (cols_of b)).
  destruct (find_position_in b "S" ps) as [src|e] eqn:Hs; [|done]. cbn.
  destruct (find_all_positions_in b "R" ps []) as [tgts|e] eqn:Ht; [|done]. cbn.
  destruct (find_all_positions_in b "T" ps []) as [strs|e] eqn:Hst; [|done]. cbn.
  intros [= <-]. cbn. fold ps.
  rewrite (find_position_in_head b "S" ps) in Hs
    by by apply (find_all_positions_in_readable _ _ _ _ _ Ht).
  injection Hs as <-.
  rewrite (find_all_positions_in_filter _ _ _ _ _ Ht).
  rewrite (find_all_positions_in_filter _ _ _ _ _ Hst). done.
Qed.

Lemma init_fields_witness :
  building walled_pf = walled ∧
  floors walled_pf = Z.of_nat (length walled) ∧
  rows walled_pf = rows_of walled ∧
  cols walled_pf = cols_of walled ∧
  source walled_pf
  = head (filter (fun p => has_symbol walled "S" p = true)
                 (scan_order (floors walled_pf) (rows walled_pf) (cols walled_pf))) ∧
  targets walled_pf
  = filter (fun p => has_symbol walled "R" p = true)
           (scan_order (floors walled_pf) (rows walled_pf) (cols walled_pf)) ∧
  stairs walled_pf
  = filter (fun p => has_symbol walled "T" p = true)
           (scan_order (floors walled_pf) (rows walled_pf) (cols walled_pf)).
Proof. apply (init_fields walled walled_pf). reflexivity. Defined.

Lemma init_returns_iff (b : matrix) :
  (∃ pf, init b = Ok pf) ↔
  rows_of b = 0 ∨ cols_of b = 0 ∨ covers b (rows_of b) (cols_of b).
Proof.
  assert (0 ≤ rows_of b ∧ 0 ≤ cols_of b) as [Hnr Hnc].
  { unfold rows_of, cols_of. destruct b as [|[|rw0 fl0] b]; lia. }
  rewrite init_unfold. unfold _find_position, _find_all_positions.
  set (ps := scan_order (Z.of_nat (length b)) (rows_of b) (cols_of b)).
  split.
  - intros [pf H].
    destruct (find_position_in b "S" ps) as [src|e]; [|done]. cbn in H.
    destruct (find_all_positions_in b "R" ps []) as [tgts|e] eqn:Ht; [|done].
    destruct (decide (rows_of b = 0)) as [|Hr]; [by left|].
    destruct (decide (cols_of b = 0)) as [|Hc]; [by right; left|].
    right; right. apply readable_covers; [lia..|].
    by apply (find_all_positions_in_readable _ _ _ _ _ Ht).
  - intros Hcase.
    assert (∀ f r c, (f, r, c) ∈ ps → ∃ cell, building_at b f r c = Ok cell)
      as Hread.
    { intros f r c Hin. apply scan_order_elem in Hin.
      destruct Hcase as [H0|[H0|Hcov]]; [lia..|].
      destruct Hin as (? & ? & ?). by eapply covers_readable. }
    rewrite (find_position_in_head b "S" ps Hread). cbn.
    destruct (find_all_positions_in_total b "R" ps [] Hread) as [tgts ->]. cbn.
    destruct (find_all_positions_in_total b "T" ps [] Hread) as [strs ->]. cbn.
    by eexists.
Qed.

(** X4. The constructor raises [IndexError] exactly on a matrix that lacks
    a cell the scans look at: it returns if and only if the first floor or
    its first row is empty, or every floor has as many rows as the first
    floor and each of these rows as many columns as the first row of the
    first floor. Longer floors and rows are accepted. *)
Theorem init_returns_iff_covers (b : matrix) :
  (∃ pf, init b = Ok pf) ↔
  rows_of b = 0 ∨ cols_of b = 0 ∨ covers b (rows_of b) (cols_of b).
Proof. apply init_returns_iff. Qed.

(** A shorter second floor makes the constructor raise. *)
Lemma init_short_floor : init short_floor = Raise IndexError.
Proof. reflexivity. Qed.

Lemma init_returns_iff_covers_witness : ∃ pf, init corridor = Ok pf.
Proof.
  apply (proj2 (init_returns_iff_covers corridor)).
  right; right. repeat constructor; cbn; lia.
Defined.

(** ** Floor changes *)

(** X5. [_can_change_floor] answers [True] on a stair cell for every
    target floor, also one outside the building; on another readable cell
    it answers [True] exactly when the cell at the same row and column of
    the target floor is in bounds and a stair. Every floor change of the
    router passes it. *)
Theorem can_change_floor_permissive (pf : ACPathfinder) (f r c : Z) :
  (building_at (building pf) f r c = Ok "T"%string →
   ∀ target_floor, _can_change_floor pf (f, r, c) target_floor = Ok true) ∧
  (∀ cell target_floor,
     grid_ok pf →
     building_at (building pf) f r c = Ok cell → cell ≠ "T"%string →
     _can_change_floor pf (f, r, c) target_floor
     = Ok (in_bounds pf target_floor r c
           && has_symbol (building pf) "T" (target_floor, r, c))) ∧
  (∀ b : position,
     stair_step pf (f, r, c) b →
     _can_change_floor pf (f, r, c) (floor_of b) = Ok true).
Proof.
  split; [|split].
  - intros HT tf. unfold _can_change_floor. by rewrite HT.
  - intros cell tf Hgrid Hcell Hne. unfold _can_change_floor, has_symbol.
    rewrite Hcell. cbn.
    destruct (String.eqb_spec cell "T"); [done|].
    destruct (in_bounds pf tf r c) eqn:Hb; [|done].
    destruct (Hgrid tf r c Hb) as [cell' ->]. done.
  - intros [[f' r'] c'] (_ & _ & _ & _ & HT & _).
    unfold _can_change_floor. by rewrite HT.
Qed.

Lemma can_change_floor_permissive_witness :
  _can_change_floor two_floors_pf (0, 1, 1) 7 = Ok true ∧
  _can_change_floor two_floors_pf (0, 0, 0) 1
  = Ok (in_bounds two_floors_pf 1 0 0
        && has_symbol (building two_floors_pf) "T" (1, 0, 0)) ∧
  _can_change_floor two_floors_pf (0, 1, 1) (floor_of (1, 1, 1)) = Ok true.
Proof.
  split; [|split].
  - apply (proj1 (can_change_floor_permissive two_floors_pf 0 1 1)).
    reflexivity.
  - apply (proj1 (proj2 (can_change_floor_permissive two_floors_pf 0 0 0))
             "S"%string 1).
    + intros f r c Hb. apply in_bounds_spec in Hb. cbn in Hb.
      assert (f = 0 ∨ f = 1) as [-> | ->] by lia;
        (assert (r = 0 ∨ r = 1 ∨ r = 2) as [-> | [-> | ->]] by lia);
        (assert (c = 0 ∨ c = 1 ∨ c = 2) as [-> | [-> | ->]] by lia);
        by eexists.
    + reflexivity.
    + discriminate.
  - apply (proj2 (proj2 (can_change_floor_permissive two_floors_pf 0 1 1))
             (1, 1, 1)).
    repeat split; first [lia | reflexivity | discriminate].
Defined.

(** ** Shape of simplified and densified paths *)

Lemma optimize_tail_sublist (pf : ACPathfinder) (rest : list position) :
  ∀ (prev_pos : position) (out : list position),
    optimize_tail pf prev_pos rest = Ok out →
    sublist out rest ∧ last out = last rest.
Proof.
  induction rest as [|curr rest IH]; intros prev_pos out Hout.
  - by injection Hout as <-.
  - destruct rest as [|next rest]; [by injection Hout as <-|].
    rewrite optimize_tail_cons in Hout.
    destruct (_can_go_direct pf prev_pos next) as [[|]|e]; [| |done].
    + destruct (IH _ _ Hout) as [Hsub Hlast]. split.
      * by apply sublist_cons.
      * by rewrite Hlast, last_cons_cons.
    + destruct (optimize_tail pf curr (next :: rest)) as [out'|e] eqn:Ht; [|done].
      injection Hout as <-. destruct (IH _ _ Ht) as [Hsub Hlast]. split.
      * by apply sublist_skip.
      * destruct out' as [|o out'].
        { symmetry in Hlast. by apply last_None in Hlast. }
        by rewrite !last_cons_cons.
Qed.

(** X6. The simplifier only drops waypoints: its result is a subsequence
    of the path, in the same order, with the same first and the same last
    waypoint, and a path of at most two waypoints is returned as it is. *)
Theorem optimize_path_turns_subsequence (pf : ACPathfinder)
  (path out : list position) :
  _optimize_path_turns pf path = Ok out →
  sublist out path ∧
  head out = head path ∧
  last out = last path ∧
  (length out ≤ length path)%nat ∧
  ((length path ≤ 2)%nat → out = path).
Proof.
  intros Hout.
  assert (sublist out path ∧ head out = head path ∧ last out = last path)
    as (Hsub & Hhead & Hlast).
  { destruct path as [|p0 rest]; [by injection Hout as <-|].
    rewrite optimize_path_turns_cons in Hout.
    destruct (optimize_tail pf p0 rest) as [out'|e] eqn:Ht; [|done].
    injection Hout as <-.
    destruct (optimize_tail_sublist _ _ _ _ Ht) as [Hsub Hlast].
    split; [by apply sublist_skip|]. split; [done|].
    destruct rest as [|p1 rest].
    - by apply sublist_nil_r in Hsub as ->.
    - destruct out' as [|o out'].
      { symmetry in Hlast. by apply last_None in Hlast. }
      by rewrite !last_cons_cons. }
  split; [done|]. split; [done|]. split; [done|].
  split; [by apply sublist_length|].
  intros Hlen. destruct path as [|p0 [|p1 [|p2 rest]]]; cbn in Hlen;
    try lia; by injection Hout as <-.
Qed.

Lemma optimize_path_turns_subsequence_witness :
  sublist hall_short hall_path ∧
  head hall_short = head hall_path ∧
  last hall_short = last hall_path ∧
  (length hall_short ≤ length hall_path)%nat ∧
  ((length hall_path ≤ 2)%nat → hall_short = hall_path).
Proof.
  apply (optimize_path_turns_subsequence hall_pf hall_path hall_short).
  vm_compute. reflexivity.
Defined.

Lemma expand_tail_sublist (rest : list position) (p0 : position) :
  sublist rest (expand_tail p0 rest).
Proof.
  revert p0. induction rest as [|e rest IH]; intros p0; [constructor|].
  cbn [expand_tail].
  destruct (expand_segment_snoc p0 e) as [mid ->].
  rewrite <- (assoc_L (++)). cbn [app].
  apply sublist_inserts_l. by apply sublist_skip.
Qed.

(** X7. The densifier only inserts cells: every path is a subsequence, in
    the same order, of its dense form, which is therefore at least as
    long; a path of fewer than two positions is returned as it is. *)
Theorem expand_path_supersequence (path : list position) :
  sublist path (_expand_path path) ∧
  (length path ≤ length (_expand_path path))%nat ∧
  (if (length path <? 2)%nat then _expand_path path = path else True).
Proof.
  assert (sublist path (_expand_path path)) as Hsub.
  { destruct path as [|p0 rest]; [constructor|].
    rewrite expand_path_cons. apply sublist_skip, expand_tail_sublist. }
  split; [done|]. split; [by apply sublist_length|].
  by destruct path as [|p0 [|p1 rest]].
Qed.

Lemma expand_path_supersequence_example :
  _expand_path [(0, 0, 0); (0, 0, 3); (0, 2, 3)]
  = [(0, 0, 0); (0, 0, 1); (0, 0, 2); (0, 0, 3); (0, 1, 3); (0, 2, 3)].
Proof. reflexivity. Qed.

(** ** Order of the router's records *)

Lemma search_results_indexed (pf : ACPathfinder) (src : position) (idx : nat)
  (tgts : list position) (infos : list path_info) :
  search_results pf src idx tgts infos →
  Forall (fun info => (idx ≤ target_index info)%nat ∧
                      tgts !! (target_index info - idx)%nat
                      = Some (target_position info)) infos ∧
  chain (fun i1 i2 => (target_index i1 < target_index i2)%nat) infos.
Proof.
  induction 1 as [|idx t tgts i infos Hr Hg _ [IH1 IH2]
                  |idx t tgts infos Hn _ [IH1 IH2]].
  - split; [constructor|done].
  - destruct Hg as (Hidx & Htp & _). split.
    + constructor.
      * rewrite Hidx, Htp, Nat.sub_diag. done.
      * eapply Forall_impl; [exact IH1|]. intros info [Hle Hlook].
        split; [lia|].
        replace (target_index info - idx)%nat
          with (S (target_index info - S idx)) by lia. done.
    + destruct infos as [|i' infos]; [done|]. split; [|done].
      apply Forall_cons in IH1 as [[Hle _] _]. lia.
  - split; [|done].
    eapply Forall_impl; [exact IH1|]. intros info [Hle Hlook].
    split; [lia|].
    replace (target_index info - idx)%nat
      with (S (target_index info - S idx)) by lia. done.
Qed.

(** X9. The records of [bfs_pathfinding] come in the order of the targets:
    [target_index] is the index of the record's target in [self.targets],
    it grows strictly along the result, and so there is at most one
    record for each target. *)
Theorem bfs_results_follow_targets (b : matrix) (pf : ACPathfinder)
  (fuel : nat) (results : list path_info) :
  init b = Ok pf →
  bfs_pathfinding fuel pf = Some (Ok results) →
  Forall (fun info => targets pf !! target_index info
                      = Some (target_position info)) results ∧
  chain (fun i1 i2 => (target_index i1 < target_index i2)%nat) results ∧
  (length results ≤ length (targets pf))%nat.
Proof.
  intros Hinit Hrun.
  destruct (bfs_pathfinding_sound b pf fuel results Hinit Hrun)
    as [[-> _]|(src & Hsrc & Hres)].
  { split; [constructor|]. split; [done|]. cbn. lia. }
  destruct (search_results_indexed _ _ _ _ _ Hres) as [Hidx Hsorted].
  split; [|split; [done|]].
  - eapply Forall_impl; [exact Hidx|]. intros info [_ Hlook].
    by rewrite Nat.sub_0_r in Hlook.
  - clear -Hres. induction Hres; cbn in *; lia.
Qed.

Lemma bfs_results_follow_targets_witness :
  Forall (fun info => targets walled_pf !! target_index info
                      = Some (target_position info)) [walled_info] ∧
  chain (fun i1 i2 => (target_index i1 < target_index i2)%nat)
    [walled_info] ∧
  (length [walled_info] ≤ length (targets walled_pf))%nat.
Proof.
  apply (bfs_results_follow_targets walled walled_pf (bfs_budget walled_pf)).
  - reflexivity.
  - vm_compute. reflexivity.
Defined.

(** ** The router finds shortest walks *)

Lemma chain_snoc_inv {A : Type} (R : A → A → Prop) (l : list A) (a b : A) :
  chain R (l ++ [b]) → last l = Some a → chain R l ∧ R a b.
Proof.
  induction l as [|x [|y l] IH]; [done| |].
  - cbn. intros [H _] [= ->]. done.
  - intros [Hxy Hl] Hlast. rewrite last_cons_cons in Hlast.
    destruct (IH Hl Hlast) as [Hch Hab]. by repeat split.
Qed.

Lemma walk_snoc_inv (pf : ACPathfinder) (src p : position) (w : list position) :
  walk pf src p w → (2 ≤ length w)%nat →
  ∃ w' p', w = w' ++ [p] ∧ walk pf src p' w' ∧ bfs_move pf p' p.
Proof.
  intros (Hhead & Hlast & Hch) Hlen.
  destruct w as [|x w _] using rev_ind; [done|].
  rewrite last_snoc in Hlast. injection Hlast as ->.
  rewrite length_app in Hlen. cbn in Hlen.
  destruct (last w) as [p'|] eqn:Hl; [|apply last_None in Hl; subst; cbn in *; lia].
  destruct (chain_snoc_inv _ _ _ _ Hch Hl) as [Hch' Hmove].
  exists w, p'. split; [done|]. split; [|done].
  split; [|done]. destruct w; [done|]. done.
Qed.

Lemma walk_nonempty (pf : ACPathfinder) (src p : position) (w : list position) :
  walk pf src p w → (1 ≤ length w)%nat.
Proof. intros (Hhead & _). destruct w; [done|]. cbn. lia. Qed.

Lemma level_inv_init (pf : ACPathfinder) (src : position) :
  level_inv pf src (bfs_init src).
Proof.
  exists 1%nat, [(src, [src])], []. cbn. split; [done|]. split; [done|].
  split; [by repeat constructor|]. split; [constructor|]. split.
  - intros e w ->%list_elem_of_singleton Hw. cbn.
    by apply walk_nonempty in Hw.
  - intros p [|x [|y w]] (Hhead & Hlast & _) Hlen; cbn in *; try done; try lia.
    injection Hhead as ->. injection Hlast as ->. set_solver.
Qed.

Lemma level_inv_step (pf : ACPathfinder) (src : position) (idx : nat)
  (target : position) (st st' : bfs_state) :
  bfs_inv pf src target st → level_inv pf src st →
  bfs_step pf idx target st = Ok (Continue st') →
  level_inv pf src st'.
Proof.
  intros Hinv (L & qa & qb & Hq & Hab & Hqa & Hqb & Hshort & Hcompl) Hstep.
  destruct (bfs_inv_step _ _ _ _ _ _ Hinv Hstep) as [Hinv' _].
  destruct (bfs_step_continue _ _ _ _ _ Hstep)
    as (cur & path & q' & news & Hq0 & Hne & Hext & Hmoves & Hcov).
  destruct Hext as (Hnd & Hfresh & Hq' & Hv'). cbn in Hfresh, Hq', Hv'.
  destruct qa as [|e0 qa'].
  { rewrite (Hab eq_refl) in Hq. cbn in Hq. congruence. }
  rewrite Hq0 in Hq. cbn in Hq. injection Hq as <- ->.
  apply Forall_cons in Hqa as [HL Hqa']. cbn in HL.
  assert (Forall (fun e : position * list position => length e.2 = S L)
            (entry_of path <$> news)) as HE.
  { apply Forall_fmap, Forall_forall. intros p _. cbn.
    rewrite length_app. cbn. lia. }
  assert (∀ e w, e ∈ queue st' → walk pf src e.1 w → (length e.2 ≤ length w)%nat)
    as Hshort'.
  { intros e w. rewrite Hq'. intros [He|He]%elem_of_app Hw.
    - apply Hshort; [|done]. rewrite Hq0. by right.
    - apply list_elem_of_fmap in He as (p & -> & Hp). cbn in *.
      rewrite length_app. cbn.
      destruct (decide (length w ≤ L)%nat) as [Hle|]; [|lia].
      destruct (Hfresh p Hp). by apply (Hcompl p w). }
  assert (∀ p w, walk pf src p w → (length w ≤ L)%nat → p ∈ visited st')
    as Hcompl'.
  { intros p w Hw Hle. rewrite Hv'. apply elem_of_union_l. by eapply Hcompl. }
  destruct qa' as [|e1 qa'].
  - cbn in Hq'.
    destruct (qb ++ (entry_of path <$> news)) as [|e2 q2] eqn:Hnew.
    + exists L, [], []. rewrite Hq'. split; [done|]. split; [done|].
      split; [constructor|]. split; [constructor|]. split; [|done].
      by intros e w He%elem_of_nil.
    + exists (S L), (e2 :: q2), []. rewrite Hq'. split; [by rewrite app_nil_r|].
      split; [done|]. split; [rewrite <- Hnew; by apply Forall_app|].
      split; [constructor|]. split; [by rewrite <- Hq'|].
      intros p w Hw Hle.
      destruct (decide (length w ≤ L)%nat) as [|Hgt]; [by eapply Hcompl'|].
      assert (1 ≤ L)%nat as HL1.
      { destruct (inv_entries _ _ _ _ Hinv) as [|? ? (Hh & _) _];
          [by rewrite Hq0 in *|].
        rewrite Hq0 in *. simplify_eq. cbn in Hh.
        destruct path; [done|]. cbn. lia. }
      destruct (walk_snoc_inv pf src p w Hw) as (w' & p' & -> & Hw' & Hmove);
        [lia|].
      rewrite length_app in Hle, Hgt. cbn in Hle, Hgt.
      assert (p' ∈ visited st') as Hp' by (eapply Hcompl'; [done|lia]).
      apply (inv_closed _ _ _ _ Hinv' p' Hp'); [|done].
      intros ([pos pth] & -> & Hin)%list_elem_of_fmap.
      pose proof (Hshort' _ w' Hin Hw') as Hs. cbn in Hs.
      rewrite Hq', <- Hnew in Hin.
      assert (length pth = S L); [|lia].
      apply elem_of_app in Hin as [Hin|Hin].
      * rewrite Forall_forall in Hqb. by apply (Hqb _ Hin).
      * rewrite Forall_forall in HE. by apply (HE _ Hin).
  - exists L, (e1 :: qa'), (qb ++ (entry_of path <$> news)).
    split; [by rewrite Hq', <- (assoc_L (++))|]. split; [done|].
    split; [done|]. split; [by apply Forall_app|]. done.
Qed.

Lemma bfs_loop_shortest (pf : ACPathfinder) (src : position) (idx : nat)
  (target : position) (fuel : nat) (st : bfs_state) (info : path_info) :
  bfs_inv pf src target st → level_inv pf src st →
  bfs_loop fuel pf idx target st = Some (Ok (Some info)) →
  ∀ w, walk pf src target w → (length (path info) ≤ length w)%nat.
Proof.
  revert st. induction fuel as [|fuel IH]; intros st Hinv Hlvl; [done|].
  cbn [bfs_loop].
  destruct (bfs_step pf idx target st) as [[st'|info'|]|e] eqn:Hstep;
    [| |done..].
  - apply IH.
    + by apply (bfs_inv_step _ _ _ _ _ _ Hinv Hstep).
    + by eapply level_inv_step.
  - intros [= ->] w Hw.
    destruct (bfs_step_found _ _ _ _ _ Hstep) as (pth & q' & Hq & ->). cbn.
    destruct Hlvl as (L & qa & qb & _ & _ & _ & _ & Hshort & _).
    apply (Hshort (target, pth) w); [|done]. rewrite Hq. left.
Qed.

Lemma bfs_targets_elem (pf : ACPathfinder) (src : position) (fuel : nat)
  (tgts : list position) :
  ∀ (idx : nat) (acc results : list path_info) (info : path_info),
    bfs_targets fuel pf src idx tgts acc = Some (Ok results) →
    info ∈ results →
    info ∈ acc ∨
    ∃ idx' target, target ∈ tgts ∧
      bfs_loop fuel pf idx' target (bfs_init src) = Some (Ok (Some info)).
Proof.
  induction tgts as [|t tgts IH]; intros idx acc results info H Hin.
  - injection H as <-. by left.
  - cbn [bfs_targets] in H.
    destruct (bfs_loop fuel pf idx t (bfs_init src)) as [[[i|]|e]|] eqn:Hl;
      [| |done..].
    + destruct (IH _ _ _ _ H Hin) as [Hacc|(idx' & t' & Ht' & Hl')].
      * apply elem_of_app in Hacc as [Hacc| ->%list_elem_of_singleton];
          [by left|].
        right. exists idx, t. split; [left|done].
      * right. exists idx', t'. split; [by right|done].
    + destruct (IH _ _ _ _ H Hin) as [Hacc|(idx' & t' & Ht' & Hl')];
        [by left|].
      right. exists idx', t'. split; [by right|done].
Qed.

Lemma bfs_result_shortest (b : matrix) (pf : ACPathfinder) (fuel : nat)
  (results : list path_info) (info : path_info) (src : position)
  (w : list position) :
  init b = Ok pf →
  bfs_pathfinding fuel pf = Some (Ok results) →
  info ∈ results →
  source pf = Some src →
  walk pf src (target_position info) w →
  (length (path info) ≤ length w)%nat.
Proof.
  intros Hinit Hrun Hin Hsrc Hw.
  pose proof Hinit as (_ & _ & Hbox & _)%init_spec.
  specialize (Hbox src Hsrc).
  unfold bfs_pathfinding in Hrun. rewrite Hsrc in Hrun.
  destruct (targets pf) as [|t tgts] eqn:Htg.
  { injection Hrun as <-. by apply elem_of_nil in Hin. }
  destruct (bfs_targets_elem pf src fuel (t :: tgts) _ _ _ _ Hrun Hin)
    as [Hnil|(idx & target & _ & Hloop)]; [by apply elem_of_nil in Hnil|].
  pose proof (bfs_loop_sound pf src idx target fuel _
                (bfs_inv_init pf src target Hbox)) as Hgood.
  rewrite Hloop in Hgood.
  destruct Hgood as (_ & Htp & _). rewrite Htp in Hw.
  eapply bfs_loop_shortest; [| |exact Hloop|exact Hw].
  - by apply bfs_inv_init.
  - apply level_inv_init.
Qed.

(** X10. The router finds shortest walks: no walk of router moves from
    the source to the target of a record has fewer positions than the
    record's path, so [steps] is the least number of positions of any
    route to that target. *)
Theorem bfs_paths_are_shortest (b : matrix) (pf : ACPathfinder) (fuel : nat)
  (results : list path_info) (info : path_info) (src : position)
  (w : list position) :
  init b = Ok pf →
  bfs_pathfinding fuel pf = Some (Ok results) →
  info ∈ results →
  source pf = Some src →
  walk pf src (target_position info) w →
  (steps info ≤ length w)%nat ∧ steps info = length (path info).
Proof.
  intros Hinit Hrun Hin Hsrc Hw.
  assert (steps info = length (path info)) as Hsteps.
  { destruct (bfs_pathfinding_sound b pf fuel results Hinit Hrun)
      as [[-> _]|(src' & _ & Hres)]; [by apply elem_of_nil in Hin|].
    by destruct (search_results_elem _ _ _ _ _ _ Hres Hin)
      as (idx & t & _ & _ & (_ & _ & _ & _ & _ & _ & Hst & _)). }
  split; [|done]. rewrite Hsteps. by eapply bfs_result_shortest.
Qed.

Lemma bfs_paths_are_shortest_witness :
  (steps corridor_info ≤ length corridor_detour)%nat ∧
  steps corridor_info = length (path corridor_info).
Proof.
  apply (bfs_paths_are_shortest corridor corridor_pf (bfs_budget corridor_pf)
           [corridor_info] corridor_info (0, 0, 0) corridor_detour).
  - reflexivity.
  - vm_compute. reflexivity.
  - apply list_elem_of_here.
  - reflexivity.
  - split; [reflexivity|]. split; [reflexivity|].
    repeat split; solve_bfs_move.
Defined.

(** ** Straight runs are walks *)

Lemma chain_app_snoc {A : Type} (R : A → A → Prop) (l1 l2 : list A) (x : A) :
  chain R (l1 ++ [x]) → chain R (x :: l2) → chain R (l1 ++ x :: l2).
Proof.
  induction l1 as [|a [|b l1] IH]; [done| |].
  - cbn. intros [H _] H2. split; [done|]. done.
  - intros [Hab H1] H2. split; [done|]. by apply IH.
Qed.

Lemma row_run_walk (pf : ACPathfinder) (f c s : Z) (n : nat) (r : Z) :
  s = 1 ∨ s = -1 →
  (∀ k, 1 ≤ k ≤ Z.of_nat n + 1 → valid_cell pf (f, r + s * k, c)) →
  chain (bfs_move pf)
    ((f, r, c)
     :: ((fun r' => (f, r', c)) <$>
         ((fun k => r + s * (k + 1)) <$> seqZ 0 (Z.of_nat n)))
     ++ [(f, r + s * (Z.of_nat n + 1), c)]).
Proof.
  intros Hs. revert r. induction n as [|n IH]; intros r Hval.
  - rewrite seqZ_nil by done. cbn [fmap list_fmap app]. split; [|done].
    left. exists s, 0. split; [destruct Hs as [-> | ->]; set_solver|].
    split; [f_equal; [f_equal|]; lia|]. apply Hval. lia.
  - rewrite seqZ_cons by lia. cbn [fmap list_fmap app].
    replace (Z.pred (Z.of_nat (S n))) with (Z.of_nat n) by lia.
    change (Z.succ 0) with (1 + 0). rewrite <- (fmap_add_seqZ 1 0).
    rewrite <- !list_fmap_compose.
    specialize (IH (r + s)).
    rewrite <- !list_fmap_compose in IH.
    split.
    + left. exists s, 0. split; [destruct Hs as [-> | ->]; set_solver|].
      split; [f_equal; [f_equal|]; lia|].
      replace (r + s * (0 + 1)) with (r + s * 1) by lia. apply Hval. lia.
    + replace (r + s * (0 + 1)) with (r + s) by lia.
      replace (r + s * (Z.of_nat (S n) + 1))
        with (r + s + s * (Z.of_nat n + 1)) by lia.
      erewrite list_fmap_ext; [apply IH|].
      * intros k Hk. replace (r + s + s * k) with (r + s * (k + 1)) by lia.
        apply Hval. lia.
      * intros _ k _. cbn. f_equal. f_equal. lia.
Qed.

Lemma col_run_walk (pf : ACPathfinder) (f r s : Z) (n : nat) (c : Z) :
  s = 1 ∨ s = -1 →
  (∀ k, 1 ≤ k ≤ Z.of_nat n + 1 → valid_cell pf (f, r, c + s * k)) →
  chain (bfs_move pf)
    ((f, r, c)
     :: ((fun c' => (f, r, c')) <$>
         ((fun k => c + s * (k + 1)) <$> seqZ 0 (Z.of_nat n)))
     ++ [(f, r, c + s * (Z.of_nat n + 1))]).
Proof.
  intros Hs. revert c. induction n as [|n IH]; intros c Hval.
  - rewrite seqZ_nil by done. cbn [fmap list_fmap app]. split; [|done].
    left. exists 0, s. split; [destruct Hs as [-> | ->]; set_solver|].
    split; [f_equal; [f_equal|]; lia|]. apply Hval. lia.
  - rewrite seqZ_cons by lia. cbn [fmap list_fmap app].
    replace (Z.pred (Z.of_nat (S n))) with (Z.of_nat n) by lia.
    change (Z.succ 0) with (1 + 0). rewrite <- (fmap_add_seqZ 1 0).
    rewrite <- !list_fmap_compose.
    specialize (IH (c + s)).
    rewrite <- !list_fmap_compose in IH.
    split.
    + left. exists 0, s. split; [destruct Hs as [-> | ->]; set_solver|].
      split; [f_equal; [f_equal|]; lia|].
      replace (c + s * (0 + 1)) with (c + s * 1) by lia. apply Hval. lia.
    + replace (c + s * (0 + 1)) with (c + s) by lia.
      replace (c + s * (Z.of_nat (S n) + 1))
        with (c + s + s * (Z.of_nat n + 1)) by lia.
      erewrite list_fmap_ext; [apply IH|].
      * intros k Hk. replace (c + s + s * k) with (c + s * (k + 1)) by lia.
        apply Hval. lia.
      * intros _ k _. cbn. f_equal. lia.
Qed.

(** The cells the densifier puts between two waypoints that the simplifier
    may join form a walk. *)
Lemma straight_walk (pf : ACPathfinder) (a b : position) :
  straight_clear pf a b → valid_cell pf b → a ≠ b →
  chain (bfs_move pf) (a :: expand_segment a b).
Proof.
  destruct a as [[f1 r1] c1], b as [[f2 r2] c2].
  intros (<- & Hline & Hclear) Hb Hne. unfold expand_segment.
  rewrite Z.eqb_refl. cbn [negb].
  destruct (Z.eqb_spec c1 c2) as [<-|Hc].
  - assert (r1 ≠ r2) as Hr by congruence.
    rewrite py_range_step_line.
    pose proof (row_run_walk pf f1 c1 (if r2 >? r1 then 1 else -1)
                  (Z.to_nat (Z.abs (r2 - r1) - 1)) r1) as H.
    rewrite Z2Nat.id in H by lia.
    replace (r1 + (if r2 >? r1 then 1 else -1) * (Z.abs (r2 - r1) - 1 + 1))
      with r2 in H by (destruct (Z.gtb_spec r2 r1); lia).
    apply H; [destruct (r2 >? r1); auto|].
    intros k Hk.
    destruct (decide (k = Z.abs (r2 - r1))) as [->|Hk'].
    + replace (r1 + (if r2 >? r1 then 1 else -1) * Z.abs (r2 - r1)) with r2
        by (destruct (Z.gtb_spec r2 r1); lia). done.
    + apply Hclear. split; [done|]. right. split; [done|]. split; [done|].
      destruct (Z.gtb_spec r2 r1); lia.
  - destruct Hline as [<-|?]; [|done]. rewrite Z.eqb_refl.
    rewrite py_range_step_line.
    pose proof (col_run_walk pf f1 r1 (if c2 >? c1 then 1 else -1)
                  (Z.to_nat (Z.abs (c2 - c1) - 1)) c1) as H.
    rewrite Z2Nat.id in H by lia.
    replace (c1 + (if c2 >? c1 then 1 else -1) * (Z.abs (c2 - c1) - 1 + 1))
      with c2 in H by (destruct (Z.gtb_spec c2 c1); lia).
    apply H; [destruct (c2 >? c1); auto|].
    intros k Hk.
    destruct (decide (k = Z.abs (c2 - c1))) as [->|Hk'].
    + replace (c1 + (if c2 >? c1 then 1 else -1) * Z.abs (c2 - c1)) with c2
        by (destruct (Z.gtb_spec c2 c1); lia). done.
    + apply Hclear. split; [done|]. left. split; [done|]. split; [done|].
      destruct (Z.gtb_spec c2 c1); lia.
Qed.

Lemma bfs_move_segment (pf : ACPathfinder) (a b : position) :
  bfs_move pf a b → expand_segment a b = [b].
Proof.
  intros Hmove. apply dense_pair_segment.
  destruct a as [[f r] c], b as [[f' r'] c']. unfold dense_pair.
  destruct Hmove as [(dr & dc & Hd & [= -> -> ->] & _)|(Hf & _)].
  - rewrite Z.eqb_refl. cbn [negb orb].
    unfold directions in Hd.
    repeat (apply elem_of_cons in Hd as [[= -> ->]|Hd]);
      [| | | |by apply elem_of_nil in Hd].
    + rewrite Z.add_0_r, Z.eqb_refl. apply Z.leb_le. lia.
    + rewrite Z.add_0_r, Z.eqb_refl. apply Z.leb_le. lia.
    + destruct (Z.eqb_spec c (c + -1)); [lia|].
      rewrite Z.add_0_r, Z.eqb_refl. apply Z.leb_le. lia.
    + destruct (Z.eqb_spec c (c + 1)); [lia|].
      rewrite Z.add_0_r, Z.eqb_refl. apply Z.leb_le. lia.
  - destruct (Z.eqb_spec f f'); [by subst|done].
Qed.

Lemma bfs_move_valid (pf : ACPathfinder) (a b : position) :
  in_box pf a → bfs_move pf a b → valid_cell pf b.
Proof.
  intros Ha Hmove. pose proof (bfs_move_in_box pf a b Ha Hmove) as Hb.
  destruct a as [[f r] c], b as [[f' r'] c'].
  destruct Hmove as [(dr & dc & _ & _ & Hval)|(_ & -> & -> & _ & _ & HT)];
    [done|].
  split; [done|]. by exists "T"%string.
Qed.

Lemma walk_valid_cells (pf : ACPathfinder) (l : list position) (a : position) :
  in_box pf a → chain (bfs_move pf) (a :: l) → Forall (valid_cell pf) l.
Proof.
  revert a. induction l as [|b l IH]; intros a Ha Hch; [constructor|].
  destruct Hch as [Hab Hl]. constructor.
  - by eapply bfs_move_valid.
  - apply (IH b); [|done]. by eapply bfs_move_in_box.
Qed.

Lemma optimize_tail_chain_valid (pf : ACPathfinder)
  (P : position → position → Prop) (V : position → Prop)
  (rest : list position) :
  (∀ a b, a ≠ b → V b → _can_go_direct pf a b = Ok true → P a b) →
  ∀ (prev_pos : position) (out : list position),
    NoDup (prev_pos :: rest) → Forall V rest →
    optimize_tail pf prev_pos rest = Ok out →
    chain P (prev_pos :: rest) → chain P (prev_pos :: out).
Proof.
  intros HP. induction rest as [|curr rest IH];
    intros prev_pos out Hnd HV Hout Hch.
  - by injection Hout as <-.
  - destruct rest as [|next rest]; [by injection Hout as <-|].
    rewrite optimize_tail_cons in Hout.
    destruct Hch as (Hpc & Hcn & Hrest).
    apply Forall_cons in HV as [Hvc HV].
    pose proof HV as [Hvn _]%Forall_cons.
    destruct (_can_go_direct pf prev_pos next) as [[|]|e] eqn:Hd; [| |done].
    + apply IH; [|done|done|].
      * apply NoDup_cons in Hnd as [Hnot Hnd]. apply NoDup_cons in Hnd as [_ Hnd].
        apply NoDup_cons. split; [|done]. intros Hin. apply Hnot. by right.
      * split; [|done]. apply HP; [|done|done].
        intros ->. apply NoDup_cons in Hnd as [Hnot _]. apply Hnot.
        right. left.
    + destruct (optimize_tail pf curr (next :: rest)) as [out'|e] eqn:Ht;
        [|done].
      injection Hout as <-. split; [done|].
      apply IH; [|done|done|by split].
      by apply NoDup_cons in Hnd as [_ Hnd].
Qed.

Lemma expand_tail_chain (pf : ACPathfinder) (out : list position)
  (p0 : position) :
  chain (fun a b => chain (bfs_move pf) (a :: expand_segment a b)) (p0 :: out) →
  chain (bfs_move pf) (p0 :: expand_tail p0 out).
Proof.
  revert p0. induction out as [|e out IH]; intros p0 Hch; [done|].
  destruct Hch as [Hseg Hrest]. cbn [expand_tail].
  destruct (expand_segment_snoc p0 e) as [mid Hmid]. rewrite Hmid in *.
  rewrite <- (assoc_L (++)). cbn [app].
  change (p0 :: mid ++ e :: expand_tail e out)
    with ((p0 :: mid) ++ e :: expand_tail e out).
  apply chain_app_snoc; [exact Hseg|]. by apply IH.
Qed.

(** Simplifying a walk of the router that repeats no position and making
    the result dense again gives a walk between the same end points. *)
Lemma simplified_dense_walk (pf : ACPathfinder) (src target : position)
  (path out : list position) :
  in_box pf src → NoDup path → walk pf src target path →
  _optimize_path_turns pf path = Ok out →
  walk pf src target (_expand_path out).
Proof.
  intros Hbox Hnd (Hhead & Hlast & Hch) Hout.
  destruct path as [|p0 rest]; [done|]. injection Hhead as ->.
  rewrite optimize_path_turns_cons in Hout.
  destruct (optimize_tail pf src rest) as [out'|e] eqn:Ht; [|done].
  injection Hout as <-. rewrite expand_path_cons.
  split; [done|]. split.
  - rewrite last_expand_tail.
    destruct (optimize_tail_sublist _ _ _ _ Ht) as [_ Hl].
    destruct rest as [|p1 rest].
    + by injection Ht as <-.
    + destruct out' as [|o out'].
      { symmetry in Hl. by apply last_None in Hl. }
      rewrite last_cons_cons, Hl. by rewrite last_cons_cons in Hlast.
  - apply expand_tail_chain.
    eapply (optimize_tail_chain_valid pf _ (valid_cell pf));
      [| |by eapply walk_valid_cells|exact Ht|].
    + intros a b Hne Hvb Hd.
      apply straight_walk; [by apply can_go_direct_straight_clear|done..].
    + done.
    + eapply chain_impl; [|exact Hch].
      intros a b Hmove. rewrite (bfs_move_segment pf a b Hmove). by split.
Qed.

Lemma walk_expand_id (pf : ACPathfinder) (src target : position)
  (path : list position) :
  walk pf src target path → _expand_path path = path.
Proof.
  intros (_ & _ & Hch). destruct path as [|p0 rest]; [done|].
  rewrite expand_path_cons. f_equal.
  revert p0 Hch. induction rest as [|b rest IH]; intros p0 Hch; [done|].
  destruct Hch as [Hab Hrest]. cbn [expand_tail].
  rewrite (bfs_move_segment pf p0 b Hab). cbn. f_equal. by apply IH.
Qed.

(** X11. What the main program hands to the drawing routines: for every
    record, the dense visual path of the simplified route is a walk of
    router moves (never through a wall, never outside the building,
    changing floor only between stairs) from the source to the record's
    target, which is one of the targets of the pathfinder. *)
Theorem main_routes_are_walks (fuel : nat) (building_matrix : matrix)
  (drawn : list (path_info * list position)) (info : path_info)
  (visual_path : list position) :
  main_routes fuel building_matrix = Some (Ok drawn) →
  (info, visual_path) ∈ drawn →
  ∃ pf src,
    init building_matrix = Ok pf ∧
    source pf = Some src ∧
    target_position info ∈ targets pf ∧
    visual_path = _expand_path (path info) ∧
    walk pf src (target_position info) visual_path.
Proof.
  unfold main_routes. intros Hmain Hin.
  destruct building_matrix as [|fl0 b']; [injection Hmain as <-; by apply elem_of_nil in Hin|].
  destruct (init (fl0 :: b')) as [pf|e] eqn:Hinit; [|done].
  destruct (bfs_pathfinding fuel pf) as [[results|e]|] eqn:Hrun; [|done..].
  destruct results as [|r0 results];
    [injection Hmain as <-; by apply elem_of_nil in Hin|].
  destruct (optimize_energy_usage pf (r0 :: results)) as [opt|e] eqn:Hopt;
    [|done].
  injection Hmain as <-.
  apply list_elem_of_fmap in Hin as (o & [= -> ->] & Ho).
  destruct (bfs_pathfinding_sound _ pf fuel _ Hinit Hrun)
    as [[? _]|(src & Hsrc & Hres)]; [done|].
  pose proof Hinit as (_ & _ & Hbox & _)%init_spec.
  specialize (Hbox src Hsrc).
  pose proof (optimize_energy_usage_spec pf _ _ Hopt) as Hspec.
  apply list_elem_of_lookup_1 in Ho as [i Hi].
  destruct (Forall2_lookup_r _ _ _ _ _ Hspec Hi)
    as (r & Hr & _ & _ & optp & Hoptp & Hcase).
  apply list_elem_of_lookup_2 in Hr.
  destruct (search_results_elem _ _ _ _ _ _ Hres Hr)
    as (idx & t & Ht & _ & (_ & Htp & Hh & Hl & Hc & Hnd & _)).
  exists pf, src. split; [done|]. split; [done|].
  assert (walk pf src t (path r)) as Hwalk by done.
  destruct Hcase as [[_ (_ & Htp' & Hp & _)]|[_ (_ & Htp' & Hp & _)]];
    rewrite Htp', Htp, Hp.
  - split; [done|]. split; [done|]. by eapply simplified_dense_walk.
  - split; [done|]. split; [done|].
    by rewrite (walk_expand_id pf src t (path r) Hwalk).
Qed.

Lemma main_routes_are_walks_witness :
  ∃ pf src,
    init hall = Ok pf ∧
    source pf = Some src ∧
    target_position hall_optimized ∈ targets pf ∧
    hall_path = _expand_path (path hall_optimized) ∧
    walk pf src (target_position hall_optimized) hall_path.
Proof.
  apply (main_routes_are_walks (bfs_budget hall_pf) hall
           [(hall_optimized, hall_path)] hall_optimized hall_path).
  - vm_compute. reflexivity.
  - apply list_elem_of_here.
Defined.

(** ** Simplifying and densifying a shortest walk gives it back *)

Lemma chain_app_inv {A : Type} (R : A → A → Prop) (l1 l2 : list A) :
  chain R (l1 ++ l2) → chain R l1 ∧ chain R l2.
Proof.
  induction l1 as [|a [|b l1] IH]; [done| |].
  - cbn. intros H. split; [done|]. destruct l2; [done|]. by destruct H.
  - intros [Hab H]. destruct (IH H) as [H1 H2]. by repeat split.
Qed.

Lemma NoDup_split_unique {A : Type} (l1 l2 s1 s2 : list A) (a : A) :
  NoDup (l1 ++ a :: s1) → l1 ++ a :: s1 = l2 ++ a :: s2 → l1 = l2 ∧ s1 = s2.
Proof.
  revert l2. induction l1 as [|x l1 IH]; intros l2 Hnd Heq.
  - destruct l2 as [|y l2]; [by injection Heq as <-|].
    injection Heq as <- ->. apply NoDup_cons in Hnd as [Hnot _].
    destruct Hnot. apply elem_of_app. right. left.
  - destruct l2 as [|y l2].
    + injection Heq as -> <-. apply NoDup_cons in Hnd as [Hnot _].
      destruct Hnot. apply elem_of_app. right. left.
    + injection Heq as <- Heq. apply NoDup_cons in Hnd as [_ Hnd].
      destruct (IH l2 Hnd Heq) as [-> ->]. done.
Qed.

Lemma before_on_trans {A : Type} (path : list A) (a b c : A) :
  NoDup path → before_on path a b → before_on path b c → before_on path a c.
Proof.
  intros Hnd (l1 & mid & l2 & H1) (l1' & mid' & l2' & H2).
  assert (path = (l1 ++ a :: mid) ++ b :: l2) as H1'
    by by rewrite <- (assoc_L (++)).
  rewrite H1' in Hnd, H2.
  destruct (NoDup_split_unique _ _ _ _ _ Hnd H2) as [<- ->].
  exists l1, (mid ++ b :: mid'), l2'. rewrite H1'.
  by rewrite <- !(assoc_L (++)).
Qed.

Lemma chain_before_on {A : Type} (path : list A) :
  chain (fun a b => before_on path a b ∧ adjacent_in path a b) path.
Proof.
  eapply chain_impl; [|apply chain_adjacent].
  intros a b (l1 & l2 & ->). split; [by exists l1, [], l2|by exists l1, l2].
Qed.

(** A section of a shortest walk is a shortest walk between its ends. *)
Lemma section_shortest (pf : ACPathfinder) (path l1 mid l2 W : list position)
  (a b : position) :
  path = l1 ++ a :: mid ++ b :: l2 →
  chain (bfs_move pf) path →
  (∀ w, head w = head path → last w = last path → chain (bfs_move pf) w →
        (length path ≤ length w)%nat) →
  chain (bfs_move pf) (a :: W) → last (a :: W) = Some b →
  (length mid + 1 ≤ length W)%nat.
Proof.
  intros -> Hch Hshort HW Hlast.
  assert (chain (bfs_move pf) (l1 ++ [a]) ∧ chain (bfs_move pf) (b :: l2))
    as [Hpre Hsuf].
  { replace (l1 ++ a :: mid ++ b :: l2) with ((l1 ++ [a]) ++ mid ++ b :: l2) in Hch
      by by rewrite <- (assoc_L (++)).
    apply chain_app_inv in Hch as [H1 H2]. split; [done|].
    by apply chain_app_inv in H2 as [_ H2]. }
  destruct W as [|x W _] using rev_ind.
  - injection Hlast as <-.
    assert (length (l1 ++ a :: mid ++ a :: l2) ≤ length (l1 ++ a :: l2))%nat
      as Hlen.
    { apply Hshort.
      - by destruct l1.
      - rewrite !last_app_cons.
        change (a :: mid ++ a :: l2) with ((a :: mid) ++ a :: l2).
        by rewrite last_app_cons.
      - by apply chain_app_snoc. }
    revert Hlen. rewrite ?length_app. cbn [length]. rewrite ?length_app.
    cbn [length]. lia.
  - change (a :: W ++ [x]) with ((a :: W) ++ [x]) in Hlast.
    rewrite last_snoc in Hlast. injection Hlast as ->.
    assert (length (l1 ++ a :: mid ++ b :: l2)
            ≤ length (l1 ++ a :: W ++ b :: l2))%nat as Hlen.
    { apply Hshort.
      - by destruct l1.
      - rewrite !last_app_cons.
        change (a :: W ++ b :: l2) with ((a :: W) ++ b :: l2).
        change (a :: mid ++ b :: l2) with ((a :: mid) ++ b :: l2).
        by rewrite !last_app_cons.
      - apply chain_app_snoc; [done|].
        change (a :: W ++ b :: l2) with ((a :: W) ++ b :: l2).
        by apply chain_app_snoc. }
    revert Hlen. rewrite ?length_app. cbn [length]. rewrite ?length_app.
    cbn [length]. lia.
Qed.

(** A walk that gains one unit of a progress measure [g] with every move
    is forced: it repeats the one move that gains a unit. *)
Section Rigid.

Variable pf : ACPathfinder.
Variable g : position → Z.
Variable shift : position → position.

Hypothesis g_step : ∀ p q, bfs_move pf p q → g q ≤ g p + 1.
Hypothesis g_exact : ∀ p q, bfs_move pf p q → g q = g p + 1 → q = shift p.

Lemma progress_bound (W : list position) :
  ∀ p b, chain (bfs_move pf) (p :: W) → last (p :: W) = Some b →
         g b - g p ≤ Z.of_nat (length W).
Proof.
  induction W as [|q W IH]; intros p b Hch Hlast.
  - injection Hlast as ->. cbn. lia.
  - destruct Hch as [Hpq Hch]. rewrite last_cons_cons in Hlast.
    specialize (IH q b Hch Hlast). specialize (g_step p q Hpq).
    cbn [length]. lia.
Qed.

Lemma rigid_walk (W : list position) :
  ∀ p b, chain (bfs_move pf) (p :: W) → last (p :: W) = Some b →
         Z.of_nat (length W) ≤ g b - g p →
         W = shifts shift (length W) p.
Proof.
  induction W as [|q W IH]; intros p b Hch Hlast Hlen; [done|].
  destruct Hch as [Hpq Hch]. rewrite last_cons_cons in Hlast.
  pose proof (progress_bound W q b Hch Hlast) as Hb.
  pose proof (g_step p q Hpq) as Hs. cbn [length] in Hlen.
  assert (q = shift p) as -> by (apply g_exact; [done|lia]).
  cbn [length shifts]. f_equal. apply (IH (shift p) b); [done..|lia].
Qed.

(** Two walks between the same ends that are both as short as the
    progress to make are equal. *)
Lemma rigid_walks_equal (W1 W2 : list position) (p b : position) :
  chain (bfs_move pf) (p :: W1) → last (p :: W1) = Some b →
  chain (bfs_move pf) (p :: W2) → last (p :: W2) = Some b →
  Z.of_nat (length W1) ≤ g b - g p →
  (length W2 ≤ length W1)%nat →
  W2 = W1.
Proof.
  intros Hc1 Hl1 Hc2 Hl2 Hlen1 Hlen2.
  pose proof (progress_bound W2 p b Hc2 Hl2) as Hb2.
  assert (length W2 = length W1) as Heq by lia.
  rewrite (rigid_walk W1 p b Hc1 Hl1 Hlen1).
  rewrite (rigid_walk W2 p b Hc2 Hl2) by lia.
  by rewrite Heq.
Qed.

End Rigid.

Lemma row_progress (pf : ACPathfinder) (s : Z) :
  s = 1 ∨ s = -1 →
  (∀ p q, bfs_move pf p q → s * p.1.2 ≤ s * q.1.2 + 1 ∧ s * q.1.2 ≤ s * p.1.2 + 1) ∧
  (∀ p q, bfs_move pf p q → s * q.1.2 = s * p.1.2 + 1 →
          q = (p.1.1, p.1.2 + s, p.2)).
Proof.
  intros Hs. split.
  - intros [[f r] c] [[f' r'] c'] [(dr & dc & Hd & [= -> -> ->] & _)
                                  |(_ & -> & -> & _)]; cbn; [|lia].
    unfold directions in Hd.
    repeat (apply elem_of_cons in Hd as [[= -> ->]|Hd]);
      [lia..|by apply elem_of_nil in Hd].
  - intros [[f r] c] [[f' r'] c'] [(dr & dc & Hd & [= -> -> ->] & _)
                                  |(_ & -> & -> & _)]; cbn; [|lia].
    unfold directions in Hd. intros Heq.
    repeat (apply elem_of_cons in Hd as [[= -> ->]|Hd]);
      [| | | |by apply elem_of_nil in Hd];
      first [lia | (do 2 f_equal; lia)].
Qed.

Lemma col_progress (pf : ACPathfinder) (s : Z) :
  s = 1 ∨ s = -1 →
  (∀ p q, bfs_move pf p q → s * q.2 ≤ s * p.2 + 1) ∧
  (∀ p q, bfs_move pf p q → s * q.2 = s * p.2 + 1 →
          q = (p.1.1, p.1.2, p.2 + s)).
Proof.
  intros Hs. split.
  - intros [[f r] c] [[f' r'] c'] [(dr & dc & Hd & [= -> -> ->] & _)
                                  |(_ & -> & -> & _)]; cbn; [|lia].
    unfold directions in Hd.
    repeat (apply elem_of_cons in Hd as [[= -> ->]|Hd]);
      [lia..|by apply elem_of_nil in Hd].
  - intros [[f r] c] [[f' r'] c'] [(dr & dc & Hd & [= -> -> ->] & _)
                                  |(_ & -> & -> & _)]; cbn; [|lia].
    unfold directions in Hd. intros Heq.
    repeat (apply elem_of_cons in Hd as [[= -> ->]|Hd]);
      [| | | |by apply elem_of_nil in Hd];
      first [lia | (do 2 f_equal; lia) | (f_equal; lia)].
Qed.

Lemma expand_segment_length (a b : position) :
  floor_of a = floor_of b → a ≠ b → (a.1.2 = b.1.2 ∨ a.2 = b.2) →
  Z.of_nat (length (expand_segment a b))
  = Z.abs (b.1.2 - a.1.2) + Z.abs (b.2 - a.2).
Proof.
  destruct a as [[f1 r1] c1], b as [[f2 r2] c2]. unfold floor_of. cbn.
  intros <- Hne Hline. unfold expand_segment. rewrite Z.eqb_refl. cbn [negb].
  destruct (Z.eqb_spec c1 c2) as [<-|Hc].
  - assert (r1 ≠ r2) by congruence.
    rewrite py_range_step_line, length_app, !length_fmap, length_seqZ. cbn. lia.
  - destruct Hline as [<-|?]; [|done]. rewrite Z.eqb_refl.
    rewrite py_range_step_line, length_app, !length_fmap, length_seqZ. cbn. lia.
Qed.

(** On a shortest walk, two positions that the simplifier may join are
    joined by the dense run between them. *)
Lemma straight_section_dense (pf : ACPathfinder) (path : list position)
  (a b : position) :
  in_box pf a →
  chain (bfs_move pf) path → NoDup path →
  (∀ w, head w = head path → last w = last path → chain (bfs_move pf) w →
        (length path ≤ length w)%nat) →
  before_on path a b → straight_clear pf a b →
  dense_section path a b.
Proof.
  intros Hbox Hch Hnd Hshort (l1 & mid & l2 & Hpath) Hclear.
  assert (a ≠ b) as Hne.
  { intros ->. rewrite Hpath in Hnd. apply NoDup_app in Hnd as (_ & _ & Hnd).
    apply NoDup_cons in Hnd as [Hnot _]. apply Hnot, elem_of_app. right. left. }
  assert (chain (bfs_move pf) (a :: mid ++ [b])) as Hsec.
  { rewrite Hpath in Hch. apply chain_app_inv in Hch as [_ Hch].
    change (a :: mid ++ b :: l2) with ((a :: mid) ++ [b] ++ l2) in Hch.
    rewrite (assoc_L (++)) in Hch. by apply chain_app_inv in Hch as [Hch _]. }
  assert (last (a :: mid ++ [b]) = Some b) as Hseclast.
  { change (a :: mid ++ [b]) with ((a :: mid) ++ [b]). apply last_snoc. }
  assert (valid_cell pf b) as Hvb.
  { pose proof (walk_valid_cells pf (mid ++ [b]) a Hbox Hsec) as Hall.
    rewrite Forall_forall in Hall. apply Hall, elem_of_app. right. left. }
  pose proof (straight_walk pf a b Hclear Hvb Hne) as Hline.
  assert (last (a :: expand_segment a b) = Some b) as Hlinelast.
  { destruct (expand_segment_snoc a b) as [m ->].
    change (a :: m ++ [b]) with ((a :: m) ++ [b]). apply last_snoc. }
  pose proof (section_shortest pf path l1 mid l2 (expand_segment a b) a b
                Hpath Hch Hshort Hline Hlinelast) as Hlen.
  assert (floor_of a = floor_of b ∧ (a.1.2 = b.1.2 ∨ a.2 = b.2)) as [Hfl Hrc].
  { destruct a as [[f1 r1] c1], b as [[f2 r2] c2].
    destruct Hclear as (-> & Hl & _). done. }
  pose proof (expand_segment_length a b Hfl Hne Hrc) as HlenE.
  assert (mid ++ [b] = expand_segment a b) as Heq.
  { destruct a as [[f1 r1] c1], b as [[f2 r2] c2]. cbn in Hfl, Hrc, HlenE.
    unfold floor_of in Hfl. cbn in Hfl. subst f2.
    destruct (decide (r1 = r2)) as [<-|Hr].
    - assert (c1 ≠ c2) as Hc by congruence.
      set (s := if c2 >? c1 then 1 else -1).
      assert (s = 1 ∨ s = -1) as Hs by (unfold s; destruct (c2 >? c1); auto).
      destruct (col_progress pf s Hs) as [Hstep Hexact].
      apply (rigid_walks_equal pf (fun p => s * p.2)
               (fun p => (p.1.1, p.1.2, p.2 + s)) Hstep Hexact
               (expand_segment (f1, r1, c1) (f1, r1, c2)) (mid ++ [(f1, r1, c2)])
               (f1, r1, c1) (f1, r1, c2)); try done.
      + cbn. rewrite HlenE. unfold s. destruct (Z.gtb_spec c2 c1); lia.
      + rewrite length_app. cbn [length]. lia.
    - assert (c1 = c2) as <- by (by destruct Hrc).
      set (s := if r2 >? r1 then 1 else -1).
      assert (s = 1 ∨ s = -1) as Hs by (unfold s; destruct (r2 >? r1); auto).
      destruct (row_progress pf s Hs) as [Hstep Hexact].
      apply (rigid_walks_equal pf (fun p => s * p.1.2)
               (fun p => (p.1.1, p.1.2 + s, p.2))
               (fun p q H => proj2 (Hstep p q H)) Hexact
               (expand_segment (f1, r1, c1) (f1, r2, c1)) (mid ++ [(f1, r2, c1)])
               (f1, r1, c1) (f1, r2, c1)); try done.
      + cbn. rewrite HlenE. unfold s. destruct (Z.gtb_spec r2 r1); lia.
      + rewrite length_app. cbn [length]. lia. }
  exists l1, l2. rewrite <- Heq, <- (assoc_L (++)). done.
Qed.

Lemma chain_and {A : Type} (P Q : A → A → Prop) (l : list A) :
  chain P l → chain Q l → chain (fun a b => P a b ∧ Q a b) l.
Proof.
  induction l as [|a [|b l] IH]; [done..|].
  intros [H1 H2] [H3 H4]. split; [done|]. by apply IH.
Qed.

Lemma optimize_tail_chain_before (pf : ACPathfinder)
  (B P : position → position → Prop) (rest : list position) :
  (∀ a b c, B a b → B b c → B a c) →
  (∀ a b, B a b → _can_go_direct pf a b = Ok true → P a b) →
  ∀ (prev_pos : position) (out : list position),
    optimize_tail pf prev_pos rest = Ok out →
    chain (fun a b => B a b ∧ P a b) (prev_pos :: rest) →
    chain P (prev_pos :: out).
Proof.
  intros HB HP. induction rest as [|curr rest IH]; intros prev_pos out Hout Hch.
  - by injection Hout as <-.
  - destruct rest as [|next rest].
    + injection Hout as <-. by destruct Hch as [[_ ?] _].
    + rewrite optimize_tail_cons in Hout.
      destruct Hch as ([Bpc Ppc] & [Bcn Pcn] & Hrest).
      destruct (_can_go_direct pf prev_pos next) as [[|]|e] eqn:Hd; [| |done].
      * apply IH; [done|]. split; [|done].
        assert (B prev_pos next) by by eapply HB. split; [done|by apply HP].
      * destruct (optimize_tail pf curr (next :: rest)) as [out'|e] eqn:Ht;
          [|done].
        injection Hout as <-. split; [done|]. apply IH; [done|]. by split.
Qed.

Lemma dense_sections_tile (path : list position) (out : list position) :
  NoDup path →
  ∀ (a : position) (l1 suffix : list position),
    path = l1 ++ a :: suffix →
    chain (dense_section path) (a :: out) →
    last (a :: out) = last path →
    expand_tail a out = suffix.
Proof.
  intros Hnd. induction out as [|e out IH]; intros a l1 suffix Hpath Hch Hlast.
  - cbn. rewrite Hpath, last_app_cons in Hlast.
    destruct suffix as [|x suffix]; [done|].
    rewrite last_cons_cons in Hlast. symmetry in Hlast.
    apply last_Some_elem_of in Hlast.
    rewrite Hpath in Hnd. apply NoDup_app in Hnd as (_ & _ & Hnd).
    by apply NoDup_cons in Hnd as [Hnot _].
  - destruct Hch as [(l1' & l2' & Hsec) Hrest].
    rewrite last_cons_cons in Hlast. cbn [expand_tail].
    pose proof Hnd as Hnd'. rewrite Hpath in Hnd'.
    rewrite Hpath in Hsec.
    destruct (NoDup_split_unique _ _ _ _ _ Hnd' Hsec) as [<- ->].
    f_equal.
    destruct (expand_segment_snoc a e) as [m Hm].
    apply (IH e (l1 ++ a :: m)); [|done|done].
    rewrite Hpath. rewrite Hm. by rewrite <- !(assoc_L (++)).
Qed.

Lemma walk_in_box (pf : ACPathfinder) (l : list position) (a : position) :
  in_box pf a → chain (bfs_move pf) (a :: l) → Forall (in_box pf) (a :: l).
Proof.
  revert a. induction l as [|b l IH]; intros a Ha Hch; [by repeat constructor|].
  destruct Hch as [Hab Hl]. constructor; [done|].
  apply IH; [|done]. by eapply bfs_move_in_box.
Qed.

(** Simplifying a shortest walk of the router and making the result dense
    again gives the walk back. *)
Lemma simplified_dense_identity (pf : ACPathfinder) (src target : position)
  (path out : list position) :
  in_box pf src → NoDup path → walk pf src target path →
  (∀ w, walk pf src target w → (length path ≤ length w)%nat) →
  _optimize_path_turns pf path = Ok out →
  _expand_path out = path.
Proof.
  intros Hbox Hnd (Hhead & Hlast & Hch) Hshort Hout.
  destruct path as [|p0 rest]; [done|]. injection Hhead as ->.
  pose proof (walk_in_box pf rest src Hbox Hch) as Hallbox.
  rewrite optimize_path_turns_cons in Hout.
  destruct (optimize_tail pf src rest) as [out'|e] eqn:Ht; [|done].
  injection Hout as <-. rewrite expand_path_cons. f_equal.
  apply (dense_sections_tile (src :: rest) out' Hnd src [] rest); [done| |].
  - eapply (optimize_tail_chain_before pf (before_on (src :: rest)));
      [| |exact Ht|].
    + intros a b c. by apply before_on_trans.
    + intros a b Hab Hd.
      apply (straight_section_dense pf (src :: rest) a b); try done.
      * destruct Hab as (l1 & mid & l2 & Hp).
        rewrite Forall_forall in Hallbox. apply Hallbox.
        rewrite Hp. apply elem_of_app. right. left.
      * intros w Hh Hl Hc. apply Hshort. split; [done|].
        split; [by rewrite Hl|done].
      * by apply can_go_direct_straight_clear.
    + assert (chain (fun a b => (before_on (src :: rest) a b
                                 ∧ adjacent_in (src :: rest) a b)
                                ∧ bfs_move pf a b) (src :: rest)) as Hboth.
      { apply chain_and; [apply chain_before_on|done]. }
      eapply chain_impl; [|exact Hboth].
      intros a b [[Hb (l1 & l2 & Hadj)] Hmove]. split; [done|].
      exists l1, l2. by rewrite (bfs_move_segment pf a b Hmove).
  - destruct (optimize_tail_sublist _ _ _ _ Ht) as [_ Hl].
    destruct rest as [|p1 rest]; [by injection Ht as <-|].
    destruct out' as [|o out'].
    { symmetry in Hl. by apply last_None in Hl. }
    by rewrite !last_cons_cons.
Qed.

(** Simplified and made dense again, the routes of the router are what
    they were. *)
Lemma optimized_visual_paths (b : matrix) (pf : ACPathfinder) (fuel : nat)
  (results optimized_paths_info : list path_info) :
  init b = Ok pf →
  bfs_pathfinding fuel pf = Some (Ok results) →
  optimize_energy_usage pf results = Ok optimized_paths_info →
  (λ info, _expand_path (path info)) <$> optimized_paths_info
  = path <$> results.
Proof.
  intros Hinit Hrun Hopt.
  destruct (bfs_pathfinding_sound _ pf fuel _ Hinit Hrun)
    as [[-> _]|(src & Hsrc & Hres)]; [by injection Hopt as <-|].
  pose proof Hinit as (_ & _ & Hbox & _)%init_spec.
  specialize (Hbox src Hsrc).
  pose proof (optimize_energy_usage_spec pf _ _ Hopt) as Hspec.
  assert (∀ r, r ∈ results →
               walk pf src (target_position r) (path r) ∧ NoDup (path r) ∧
               ∀ w, walk pf src (target_position r) w →
                    (length (path r) ≤ length w)%nat) as Hgood.
  { intros r Hr.
    destruct (search_results_elem _ _ _ _ _ _ Hres Hr)
      as (idx & t & Ht & _ & (_ & Htp & Hh & Hl & Hc & Hnd & _)).
    split; [by rewrite Htp|]. split; [done|].
    intros w Hw. by eapply bfs_result_shortest. }
  revert Hgood Hspec. generalize results as rs. clear -Hbox.
  intros rs Hgood Hspec.
  induction Hspec as [|r o rs os (_ & _ & optp & Hoptp & Hcase) _ IH]; [done|].
  cbn [fmap list_fmap]. f_equal.
  - destruct (Hgood r) as (Hwalk & Hnd & Hshort); [left|].
    destruct Hcase as [[_ (_ & _ & -> & _)]|[_ (_ & _ & -> & _)]].
    + by eapply simplified_dense_identity.
    + by eapply walk_expand_id.
  - apply IH. intros r' Hr'. apply Hgood. by right.
Qed.

(** X12. The visual paths the main program hands to the drawing routines
    are the paths the router found, one for each record of the router and
    in the same order: simplifying a route and making it dense again
    restores it. With no floor in the file nothing is handed over, and the
    router finds nothing in the empty building. *)
Theorem main_routes_draw_bfs_paths (fuel : nat) (building_matrix : matrix)
  (drawn : list (path_info * list position)) :
  main_routes fuel building_matrix = Some (Ok drawn) →
  ∃ pf results,
    init building_matrix = Ok pf ∧
    bfs_pathfinding fuel pf = Some (Ok results) ∧
    drawn.*2 = path <$> results.
Proof.
  unfold main_routes. intros Hmain.
  destruct building_matrix as [|fl0 b'].
  { injection Hmain as <-. eexists _, []. split; [reflexivity|].
    split; [|done]. by destruct fuel. }
  destruct (init (fl0 :: b')) as [pf|e] eqn:Hinit; [|done].
  destruct (bfs_pathfinding fuel pf) as [[results|e]|] eqn:Hrun; [|done..].
  destruct results as [|r0 results].
  { injection Hmain as <-. by exists pf, []. }
  destruct (optimize_energy_usage pf (r0 :: results)) as [opt|e] eqn:Hopt;
    [|done].
  injection Hmain as <-. exists pf, (r0 :: results).
  split; [done|]. split; [done|].
  rewrite <- list_fmap_compose.
  exact (optimized_visual_paths _ pf fuel _ _ Hinit Hrun Hopt).
Qed.

Lemma main_routes_draw_bfs_paths_witness :
  ∃ pf results,
    init hall = Ok pf ∧
    bfs_pathfinding (bfs_budget hall_pf) pf = Some (Ok results) ∧
    [(hall_optimized, hall_path)].*2 = path <$> results.
Proof.
  apply (main_routes_draw_bfs_paths (bfs_budget hall_pf) hall
           [(hall_optimized, hall_path)]).
  vm_compute. reflexivity.
Defined.

(** ** The helpers of the drawing routines *)

Lemma py_index_Some {A : Type} `{EqDecision A} (l : list A) (x : A) (i : nat) :
  py_index l x = Some i →
  l !! i = Some x ∧ ∀ j, (j < i)%nat → l !! j ≠ Some x.
Proof.
  revert i. induction l as [|y l IH]; intros i; cbn [py_index]; [done|].
  destruct (decide (y = x)) as [->|Hne].
  - intros [= <-]. split; [done|]. intros j Hj. lia.
  - destruct (py_index l x) as [i'|] eqn:Hi; [|done].
    intros [= <-]. destruct (IH i' eq_refl) as [Hl Hfirst].
    split; [done|]. intros [|j] Hj; cbn.
    + congruence.
    + apply Hfirst. lia.
Qed.

Lemma py_index_None {A : Type} `{EqDecision A} (l : list A) (x : A) :
  py_index l x = None ↔ x ∉ l.
Proof.
  induction l as [|y l IH]; cbn [py_index].
  - split; [intros _; apply not_elem_of_nil|done].
  - rewrite not_elem_of_cons. destruct (decide (y = x)) as [->|Hne].
    + split; [done|]. by intros [? _].
    + destruct (py_index l x) eqn:Hi; cbn.
      * split; [done|]. intros [_ Hx]. by apply IH in Hx.
      * split; [|done]. intros _. split; [congruence|]. by apply IH.
Qed.

Lemma py_index_NoDup {A : Type} `{EqDecision A} (l : list A) (x : A) (i : nat) :
  NoDup l → l !! i = Some x → py_index l x = Some i.
Proof.
  intros Hnd Hl.
  destruct (py_index l x) as [j|] eqn:Hj.
  - apply py_index_Some in Hj as [Hj _]. f_equal.
    by eapply NoDup_lookup.
  - apply py_index_None in Hj. destruct Hj. by eapply list_elem_of_lookup_2.
Qed.

Lemma get_path_info_loop_spec (pos : position) (paths : list (list position)) :
  ∀ (i : nat) (acc : list nat),
    ∃ found,
      get_path_info_loop pos i paths acc = acc ++ found ∧
      chain (λ a b : nat, (a < b)%nat) found ∧
      Forall (λ j, (i ≤ j)%nat) found ∧
      ∀ j, j ∈ found ↔
           ∃ k path, j = (i + k)%nat ∧ paths !! k = Some path ∧ pos ∈ path.
Proof.
  induction paths as [|path paths IH]; intros i acc; cbn [get_path_info_loop].
  - exists []. rewrite app_nil_r. split; [done|]. split; [done|].
    split; [done|]. intros j. split; [by intros ?%elem_of_nil|].
    by intros (k & p & _ & ? & _).
  - case_bool_decide as Hin.
    + destruct (IH (S i) (acc ++ [i])) as (found & -> & Hch & Hge & Hmem).
      exists (i :: found). rewrite <- app_assoc. split; [done|].
      split; [|split].
      * destruct found as [|j found]; [done|]. split; [|done].
        apply Forall_cons in Hge as [? _]. lia.
      * constructor; [lia|]. eapply Forall_impl; [done|]. cbn. lia.
      * intros j. rewrite elem_of_cons, Hmem. split.
        -- intros [->|(k & p & -> & Hk & Hp)].
           ++ exists 0%nat, path. split; [lia|]. done.
           ++ exists (S k), p. split; [lia|]. done.
        -- intros ([|k] & p & -> & Hk & Hp).
           ++ left. lia.
           ++ right. exists k, p. split; [lia|]. done.
    + destruct (IH (S i) acc) as (found & -> & Hch & Hge & Hmem).
      exists found. split; [done|]. split; [done|]. split.
      * eapply Forall_impl; [done|]. cbn. lia.
      * intros j. rewrite Hmem. split.
        -- intros (k & p & -> & Hk & Hp). exists (S k), p. split; [lia|]. done.
        -- intros ([|k] & p & -> & Hk & Hp).
           ++ cbn in Hk. injection Hk as <-. done.
           ++ exists k, p. split; [lia|]. done.
Qed.

Lemma get_path_info_None (floor_idx row col : Z) (paths : list (list position)) :
  _get_path_info floor_idx row col paths = None ↔
  ∀ path, path ∈ paths → (floor_idx, row, col) ∉ path.
Proof.
  unfold _get_path_info.
  destruct (get_path_info_loop_spec (floor_idx, row, col) paths 0 [])
    as (found & -> & _ & _ & Hmem).
  cbn [app]. destruct found as [|j found].
  - split; [|done]. intros _ path Hpath Hin.
    apply list_elem_of_lookup in Hpath as [k Hk].
    eapply elem_of_nil, Hmem. by exists k, path.
  - split; [done|]. intros Hnone.
    destruct (Hmem j) as [(k & p & _ & Hk & Hp) _]; [left|].
    destruct (Hnone p); [by eapply list_elem_of_lookup_2|done].
Qed.

(** X13. [_get_path_info] answers [None] exactly when no path passes
    through the cell; otherwise it answers the indices of the paths that
    do, each once, in increasing order, and never an empty list. *)
Theorem get_path_info_exact (floor_idx row col : Z)
  (paths : list (list position)) :
  (_get_path_info floor_idx row col paths = None ↔
   ∀ path, path ∈ paths → (floor_idx, row, col) ∉ path) ∧
  ∀ path_indices,
    _get_path_info floor_idx row col paths = Some path_indices →
    path_indices ≠ [] ∧
    chain (λ a b : nat, (a < b)%nat) path_indices ∧
    ∀ i, i ∈ path_indices ↔
         ∃ path, paths !! i = Some path ∧ (floor_idx, row, col) ∈ path.
Proof.
  split; [apply get_path_info_None|].
  unfold _get_path_info.
  destruct (get_path_info_loop_spec (floor_idx, row, col) paths 0 [])
    as (found & -> & Hch & _ & Hmem).
  cbn [app].
  intros l Hl. destruct found as [|j found]; [done|].
    injection Hl as <-. split; [done|]. split; [done|].
    intros i. rewrite Hmem. split.
  - intros (k & p & -> & Hk & Hp). by exists p.
  - intros (p & Hk & Hp). by exists i, p.
Qed.

Lemma get_path_info_exact_witness :
  [0%nat; 2%nat] ≠ [] ∧
  chain (λ a b : nat, (a < b)%nat) [0%nat; 2%nat] ∧
  ∀ i, i ∈ [0%nat; 2%nat] ↔
       ∃ path, [hall_path; corridor_path; hall_path] !! i = Some path ∧
               (0, 0, 3) ∈ path.
Proof.
  apply (get_path_info_exact 0 0 3 [hall_path; corridor_path; hall_path]).
  vm_compute. reflexivity.
Defined.

Lemma lookup_adjacent_in {A : Type} (l : list A) (i : nat) (a b : A) :
  l !! i = Some a → l !! S i = Some b → adjacent_in l a b.
Proof.
  intros Ha Hb. exists (take i l), (drop (S (S i)) l).
  rewrite <- (take_drop_middle l i a Ha) at 1. do 2 f_equal.
  by apply drop_S.
Qed.

Lemma adjacent_in_lookup {A : Type} (l : list A) (a b : A) :
  adjacent_in l a b → ∃ i, l !! i = Some a ∧ l !! S i = Some b.
Proof.
  intros (l1 & l2 & ->). exists (length l1). split.
  - by rewrite list_lookup_middle.
  - rewrite (lookup_app_r l1); [|lia].
    by replace (S (length l1) - length l1)%nat with 1%nat by lia.
Qed.

Lemma index_distance_is_one_spec (i j : nat) :
  index_distance_is_one i j = true ↔ j = S i ∨ i = S j.
Proof. unfold index_distance_is_one. rewrite Z.eqb_eq. lia. Qed.

Lemma has_vertical_connection_loop_sound (current_pos target_pos : position)
  (paths : list (list position)) :
  has_vertical_connection_loop current_pos target_pos paths = true →
  ∃ path, path ∈ paths ∧
          (adjacent_in path current_pos target_pos ∨
           adjacent_in path target_pos current_pos).
Proof.
  induction paths as [|path paths IH]; cbn [has_vertical_connection_loop];
    [done|].
  assert (has_vertical_connection_loop current_pos target_pos paths = true →
          ∃ path0, path0 ∈ path :: paths ∧
                   (adjacent_in path0 current_pos target_pos ∨
                    adjacent_in path0 target_pos current_pos)) as Hrest.
  { intros (p & Hp & Hadj)%IH. exists p. split; [by right|done]. }
  destruct (py_index path current_pos) as [i|] eqn:Hi; [|done].
  destruct (py_index path target_pos) as [j|] eqn:Hj; [|done].
  destruct (index_distance_is_one i j) eqn:Hd; [|done].
  intros _. exists path. split; [left|].
  apply py_index_Some in Hi as [Hi _]. apply py_index_Some in Hj as [Hj _].
  apply index_distance_is_one_spec in Hd as [->| ->].
  - left. by eapply lookup_adjacent_in.
  - right. by eapply lookup_adjacent_in.
Qed.

Lemma has_vertical_connection_loop_complete (current_pos target_pos : position)
  (paths : list (list position)) (path : list position) :
  Forall NoDup paths →
  path ∈ paths →
  adjacent_in path current_pos target_pos ∨
  adjacent_in path target_pos current_pos →
  has_vertical_connection_loop current_pos target_pos paths = true.
Proof.
  intros Hnd Hpath Hadj.
  induction paths as [|path0 paths IH]; [by apply elem_of_nil in Hpath|].
  apply Forall_cons in Hnd as [Hnd0 Hnd].
  cbn [has_vertical_connection_loop].
  apply elem_of_cons in Hpath as [<-|Hpath].
  - assert (∃ i j, path !! i = Some current_pos ∧ path !! j = Some target_pos ∧
                   (j = S i ∨ i = S j)) as (i & j & Hi & Hj & Hd).
    { destruct Hadj as [(i & ? & ?)%adjacent_in_lookup
                       |(j & ? & ?)%adjacent_in_lookup].
      - exists i, (S i). auto.
      - exists (S j), j. auto. }
    rewrite (py_index_NoDup path current_pos i), (py_index_NoDup path target_pos j)
      by done.
    apply index_distance_is_one_spec in Hd. by rewrite Hd.
  - specialize (IH Hnd Hpath). rewrite IH.
    by repeat case_match.
Qed.

(** X14. [_has_vertical_connection] answers [True] only when some path
    holds the cell and the cell one row above (below, when [is_top] is off)
    next to each other, in either order.  On paths that visit no position
    twice it answers [True] for every such path; a path that returns to the
    cell can hide the connection, because only the first occurrence of each
    position is compared. *)
Theorem has_vertical_connection_adjacent (floor_idx row col : Z)
  (paths : list (list position)) (is_top : bool) :
  let current_pos := (floor_idx, row, col) in
  let target_pos := (floor_idx, if is_top then row - 1 else row + 1, col) in
  let connected :=
    ∃ path, path ∈ paths ∧
            (adjacent_in path current_pos target_pos ∨
             adjacent_in path target_pos current_pos) in
  (_has_vertical_connection floor_idx row col paths is_top = true → connected) ∧
  (Forall NoDup paths → connected →
   _has_vertical_connection floor_idx row col paths is_top = true) ∧
  (_has_vertical_connection floor_idx row col paths is_top = true →
   _get_path_info floor_idx row col paths ≠ None).
Proof.
  cbn zeta. unfold _has_vertical_connection.
  split; [apply has_vertical_connection_loop_sound|].
  split.
  - intros Hnd (path & Hpath & Hadj).
    by eapply has_vertical_connection_loop_complete.
  - intros (path & Hpath & Hadj)%has_vertical_connection_loop_sound Hnone.
    pose proof (proj1 (get_path_info_None _ _ _ _) Hnone) as Hnot.
    destruct (Hnot path Hpath).
    destruct Hadj as [(l1 & l2 & ->)|(l1 & l2 & ->)]; set_solver.
Qed.

(** A path that comes back to the cell before it goes up: the cells are
    next to each other on the path, yet the answer is [False]. *)
Lemma has_vertical_connection_first_occurrence_only :
  adjacent_in [(0, 1, 0); (0, 1, 1); (0, 1, 0); (0, 0, 0)] (0, 1, 0) (0, 0, 0) ∧
  _has_vertical_connection 0 1 0
    [[(0, 1, 0); (0, 1, 1); (0, 1, 0); (0, 0, 0)]] true = false.
Proof. split; [|done]. by exists [(0, 1, 0); (0, 1, 1)], []. Qed.

Lemma has_vertical_connection_adjacent_witness :
  _has_vertical_connection 1 2 1 [hall_path; two_floors_path] true = true.
Proof.
  apply (has_vertical_connection_adjacent 1 2 1 [hall_path; two_floors_path] true).
  - repeat constructor; vm_compute; set_solver.
  - exists two_floors_path. split; [set_solver|].
    right. by exists [(0, 0, 0); (0, 1, 0); (0, 1, 1)], [(1, 2, 2)].
Defined.

Lemma path_char_of_cases (k : connections) :
  path_char_of k ∈ ["│"; "─"; "┌"; "┐"; "└"; "┘"; "·"]%string.
Proof. destruct k as [[] [] [] []]; cbn; repeat constructor. Qed.

Lemma connect_comm (pos a b : position) (k : connections) :
  connect pos a (connect pos b k) = connect pos b (connect pos a k).
Proof.
  destruct pos as [[f r] c], a as [[af ar] ac], b as [[bf br] bc].
  unfold connect. destruct (f =? af), (f =? bf); cbn; [|done..].
  f_equal; repeat case_match; done.
Qed.

Lemma get_path_char_for_pos_unfold (pf : ACPathfinder) (f r c : Z)
  (path : list position) (symbol : string) :
  building_at (building pf) f r c = Ok symbol →
  _get_path_char_for_pos pf (f, r, c) path =
  if String.eqb symbol "S" || String.eqb symbol "R" || String.eqb symbol "T"
  then Ok symbol
  else match py_index path (f, r, c) with
       | None => Ok "·"%string
       | Some idx => Ok (path_char_of (path_connections (f, r, c) path idx))
       end.
Proof. intros H. unfold _get_path_char_for_pos. by rewrite H. Qed.

(** X15. The character [_get_path_char_for_pos] picks for a cell: the
    cell's own symbol when that is S, R or T (whatever the path), otherwise
    one of the seven pipe characters, and the dot when the cell is not on
    the path.  The crossing character is never returned: its branch comes
    after the six pair tests and cannot be reached. *)
Theorem get_path_char_never_crossing (pf : ACPathfinder) (pos : position)
  (path : list position) (ch : string) :
  _get_path_char_for_pos pf pos path = Ok ch →
  ch ≠ "┼"%string ∧
  ∃ symbol,
    building_at (building pf) pos.1.1 pos.1.2 pos.2 = Ok symbol ∧
    ((symbol ∈ ["S"; "R"; "T"]%string ∧ ch = symbol) ∨
     ((symbol ∉ ["S"; "R"; "T"]%string) ∧
      ch ∈ ["│"; "─"; "┌"; "┐"; "└"; "┘"; "·"]%string ∧
      (pos ∉ path → ch = "·"%string))).
Proof.
  destruct pos as [[f r] c]. cbn [fst snd].
  destruct (building_at (building pf) f r c) as [symbol|e] eqn:Hcell;
    [|unfold _get_path_char_for_pos; by rewrite Hcell].
  rewrite (get_path_char_for_pos_unfold _ _ _ _ _ _ Hcell).
  destruct (String.eqb symbol "S" || String.eqb symbol "R"
            || String.eqb symbol "T") eqn:Hsym.
  - intros [= <-].
    assert (symbol ∈ ["S"; "R"; "T"]%string) as Hin.
    { apply orb_true_iff in Hsym as [[->%String.eqb_eq| ->%String.eqb_eq]%orb_true_iff
                                    | ->%String.eqb_eq]; repeat constructor. }
    split; [|exists symbol; split; [done|by left]].
    intros ->. revert Hin. rewrite !elem_of_cons, elem_of_nil. naive_solver.
  - assert (symbol ∉ ["S"; "R"; "T"]%string) as Hout.
    { rewrite !not_elem_of_cons.
      apply orb_false_iff in Hsym as [[H1 H2]%orb_false_iff H3].
      apply String.eqb_neq in H1, H2, H3.
      repeat split; [done..|apply not_elem_of_nil]. }
    assert (∀ ch0 : string,
              ch0 ∈ ["│"; "─"; "┌"; "┐"; "└"; "┘"; "·"]%string →
              ch0 ≠ "┼"%string) as Hpipe.
    { intros ch0 Hch0 ->. revert Hch0. rewrite !elem_of_cons, elem_of_nil.
      naive_solver. }
    destruct (py_index path (f, r, c)) as [idx|] eqn:Hidx.
    + intros [= <-]. split; [apply Hpipe, path_char_of_cases|].
      exists symbol. split; [done|]. right. split; [done|].
      split; [apply path_char_of_cases|].
      intros Hnot. apply py_index_None in Hnot. congruence.
    + intros [= <-]. split; [done|]. exists symbol. split; [done|]. right.
      split; [done|]. split; [repeat constructor|done].
Qed.

Lemma get_path_char_never_crossing_witness :
  "─"%string ≠ "┼"%string ∧
  ∃ symbol,
    building_at (building hall_pf) 0 0 2 = Ok symbol ∧
    ((symbol ∈ ["S"; "R"; "T"]%string ∧ "─"%string = symbol) ∨
     ((symbol ∉ ["S"; "R"; "T"]%string) ∧
      "─"%string ∈ ["│"; "─"; "┌"; "┐"; "└"; "┘"; "·"]%string ∧
      ((0, 0, 2) ∉ hall_path → "─"%string = "·"%string))).
Proof.
  apply (get_path_char_never_crossing hall_pf (0, 0, 2) hall_path "─").
  vm_compute. reflexivity.
Defined.

Lemma path_connections_reverse (pos : position) (path : list position)
  (idx : nat) :
  (idx < length path)%nat →
  path_connections pos (reverse path) (length path - S idx) =
  path_connections pos path idx.
Proof.
  intros Hlt. unfold path_connections. rewrite length_reverse.
  set (n := length path) in *.
  assert ((0 <? n - S idx)%nat = (idx <? n - 1)%nat) as ->.
  { destruct (Nat.ltb_spec 0 (n - S idx)), (Nat.ltb_spec idx (n - 1));
      first [done|lia]. }
  assert ((n - S idx <? n - 1)%nat = (0 <? idx)%nat) as ->.
  { destruct (Nat.ltb_spec (n - S idx) (n - 1)), (Nat.ltb_spec 0 idx);
      first [done|lia]. }
  assert ((idx < n - 1)%nat →
          reverse path !! (n - S idx - 1)%nat = path !! (idx + 1)%nat) as Hnext.
  { intros. rewrite reverse_lookup by (fold n; lia). fold n. f_equal. lia. }
  assert ((0 < idx)%nat →
          reverse path !! (n - S idx + 1)%nat = path !! (idx - 1)%nat) as Hprev.
  { intros. rewrite reverse_lookup by (fold n; lia). fold n. f_equal. lia. }
  destruct (Nat.ltb_spec 0 idx), (Nat.ltb_spec idx (n - 1));
    rewrite ?Hnext, ?Hprev by done; try done.
  destruct (path !! (idx + 1)%nat), (path !! (idx - 1)%nat); try done.
  by rewrite connect_comm.
Qed.

(** X16. On a path that visits no position twice the character of a cell
    does not depend on the direction of travel: the reversed path gives
    the same character. *)
Theorem get_path_char_for_pos_reverse (pf : ACPathfinder) (pos : position)
  (path : list position) :
  NoDup path →
  _get_path_char_for_pos pf pos (reverse path) =
  _get_path_char_for_pos pf pos path.
Proof.
  intros Hnd. destruct pos as [[f r] c].
  destruct (building_at (building pf) f r c) as [symbol|e] eqn:Hcell.
  - rewrite !(get_path_char_for_pos_unfold _ _ _ _ _ _ Hcell).
    destruct (String.eqb symbol "S" || String.eqb symbol "R"
              || String.eqb symbol "T"); [done|].
    destruct (py_index path (f, r, c)) as [idx|] eqn:Hidx.
    + apply py_index_Some in Hidx as [Hidx _].
      pose proof (lookup_lt_Some _ _ _ Hidx) as Hlt.
      rewrite (py_index_NoDup (reverse path) (f, r, c) (length path - S idx)).
      * by rewrite path_connections_reverse.
      * by rewrite reverse_Permutation.
      * rewrite reverse_lookup by lia.
        by replace (length path - S (length path - S idx))%nat with idx by lia.
    + apply py_index_None in Hidx.
      assert (py_index (reverse path) (f, r, c) = None) as ->; [|done].
      apply py_index_None. by rewrite elem_of_reverse.
  - unfold _get_path_char_for_pos. by rewrite Hcell.
Qed.

Lemma get_path_char_for_pos_reverse_witness :
  _get_path_char_for_pos two_floors_pf (0, 1, 0) (reverse two_floors_path) =
  _get_path_char_for_pos two_floors_pf (0, 1, 0) two_floors_path.
Proof.
  apply (get_path_char_for_pos_reverse two_floors_pf (0, 1, 0) two_floors_path).
  repeat constructor; vm_compute; set_solver.
Defined.

(** ** The main program raises nothing of its own *)







(** ** Reading the building from a file *)

Lemma row_of_line_cells (line : pystr) : Forall plan_cell (row_of_line line).
Proof.
  unfold row_of_line. apply Forall_fmap, Forall_forall.
  intros c [Hc _]%list_elem_of_filter. unfold plan_cell, map_chars in *.
  cbn. rewrite !elem_of_cons, elem_of_nil in Hc.
  destruct Hc as [->|[->|[->|[->|[->|[]]]]]]; cbn; repeat constructor.
Qed.

Lemma push_floor_plan (building : matrix) (floor_data : list (list string)) :
  plan_floors building → plan_rows floor_data →
  plan_floors match floor_data with
              | [] => building
              | _ => building ++ [floor_data]
              end.
Proof.
  intros Hb Hf. destruct floor_data as [|row floor_data]; [done|].
  apply Forall_app. split; [done|]. constructor; [|constructor]. by split.
Qed.

Lemma read_line_plan (isspace : N → bool) (st : matrix * list (list string))
  (raw : pystr) :
  plan_floors st.1 ∧ plan_rows st.2 →
  plan_floors (read_line isspace st raw).1 ∧
  plan_rows (read_line isspace st raw).2.
Proof.
  destruct st as [building floor_data]. intros [Hb Hf]. unfold read_line.
  destruct (strip isspace raw) as [|c line]; [done|].
  case_bool_decide.
  - cbn [fst snd]. split; [by apply push_floor_plan|constructor].
  - match goal with |- context [row_of_line ?l] =>
      pose proof (row_of_line_cells l) as Hrow;
      destruct (row_of_line l) as [|cell row] end; [done|].
    cbn [fst snd]. split; [done|].
    apply Forall_app. split; [done|]. constructor; [|constructor]. by split.
Qed.

Lemma read_lines_plan (isspace : N → bool) (lines : list pystr) :
  ∀ st, plan_floors st.1 ∧ plan_rows st.2 →
        plan_floors (foldl (read_line isspace) st lines).1 ∧
        plan_rows (foldl (read_line isspace) st lines).2.
Proof.
  induction lines as [|raw lines IH]; intros st Hst; [done|].
  cbn [foldl]. by apply IH, read_line_plan.
Qed.

(** The inner loop of the search for [max_cols]. *)
Lemma max_cols_floor (floor : list (list string)) :
  ∀ m : Z,
    let m' := foldl (λ max_cols (row : list string),
                       if Z.of_nat (length row) >? max_cols
                       then Z.of_nat (length row) else max_cols) m floor in
    m ≤ m' ∧ Forall (λ row, Z.of_nat (length row) ≤ m') floor.
Proof.
  induction floor as [|row floor IH]; intros m; cbn zeta; [by split|].
  cbn [foldl]. destruct (IH (if Z.of_nat (length row) >? m
                             then Z.of_nat (length row) else m)) as [Hle Hall].
  cbn zeta in Hle, Hall. split.
  - destruct (Z.gtb_spec (Z.of_nat (length row)) m); lia.
  - constructor; [|done]. destruct (Z.gtb_spec (Z.of_nat (length row)) m); lia.
Qed.

Lemma max_cols_fold (building : matrix) :
  ∀ m : Z,
    let m' := foldl (λ max_cols floor,
                       foldl (λ max_cols (row : list string),
                                if Z.of_nat (length row) >? max_cols
                                then Z.of_nat (length row) else max_cols)
                             max_cols floor) m building in
    m ≤ m' ∧
    Forall (λ floor, Forall (λ row : list string, Z.of_nat (length row) ≤ m')
                            floor) building.
Proof.
  induction building as [|floor building IH]; intros m; cbn zeta; [by split|].
  cbn [foldl]. destruct (max_cols_floor floor m) as [Hm Hfloor].
  cbn zeta in Hm, Hfloor.
  match goal with |- context [foldl _ ?m0 building] =>
    destruct (IH m0) as [Hle Hall] end.
  cbn zeta in Hle, Hall. split; [lia|]. constructor; [|done].
  eapply Forall_impl; [done|]. cbn. lia.
Qed.

Lemma max_cols_of_bound (building : matrix) :
  Forall (λ floor, Forall (λ row : list string,
                             Z.of_nat (length row) ≤ max_cols_of building)
                          floor) building.
Proof. apply (max_cols_fold building 0). Qed.

Lemma sanitize_row_length (max_cols : Z) (row : list string) :
  Z.of_nat (length row) ≤ max_cols →
  Z.of_nat (length (sanitize_row max_cols row)) = max_cols.
Proof.
  intros Hle. unfold sanitize_row.
  destruct (Z.ltb_spec (Z.of_nat (length row)) max_cols); [|lia].
  rewrite length_app, length_replicate. lia.
Qed.

Lemma sanitize_row_cells (max_cols : Z) (row : list string) :
  Forall plan_cell row → Forall plan_cell (sanitize_row max_cols row).
Proof.
  intros Hrow. unfold sanitize_row. case_match; [|done].
  apply Forall_app. split; [done|].
  apply Forall_replicate. unfold plan_cell. repeat constructor.
Qed.

(** What the two sanitising loops return for a list of floors that
    satisfies the invariant of the reading loop. *)
Lemma sanitized_plan (building : matrix) :
  plan_floors building → building ≠ [] →
  let b := (λ floor : list (list string),
              sanitize_row (max_cols_of building) <$> floor) <$> building in
  rows_of b = rows_of building ∧
  cols_of b = max_cols_of building ∧
  0 < rows_of b ∧ 0 < cols_of b ∧
  Forall2 (λ floor floor', length floor' = length floor) building b ∧
  Forall (λ floor,
            floor ≠ [] ∧
            Forall (λ row, Z.of_nat (length row) = max_cols_of building ∧
                           Forall plan_cell row) floor) b.
Proof.
  intros Hplan Hne. cbn zeta.
  pose proof (max_cols_of_bound building) as Hmax.
  set (m := max_cols_of building) in *.
  destruct building as [|floor0 building]; [done|].
  pose proof Hplan as [[Hne0 Hrows0] _]%Forall_cons.
  pose proof Hmax as [Hmax0 _]%Forall_cons.
  destruct floor0 as [|row0 floor0]; [done|].
  apply Forall_cons in Hrows0 as [[Hrow0 _] _].
  apply Forall_cons in Hmax0 as [Hlen0 _].
  assert (0 < m) as Hpos.
  { destruct row0; [done|]. cbn [length] in Hlen0. lia. }
  split; [cbn; by rewrite length_fmap|].
  split; [cbn [fmap list_fmap cols_of]; by apply sanitize_row_length|].
  split; [cbn [fmap list_fmap rows_of length]; lia|].
  split; [cbn [fmap list_fmap cols_of]; by rewrite sanitize_row_length|].
  split.
  - apply Forall2_fmap_r, Forall_Forall2_diag, Forall_forall.
    intros floor _. cbn. by rewrite length_fmap.
  - apply Forall_fmap. revert Hplan Hmax.
    generalize ((row0 :: floor0) :: building). intros floors Hplan Hmax.
    induction Hplan as [|floor floors [Hfne Hrows] _ IH]; [done|].
    apply Forall_cons in Hmax as [Hfloor Hmax].
    constructor; [|by apply IH]. cbn. split.
    + destruct floor; [done|]. done.
    + apply Forall_fmap. clear Hfne.
      induction Hrows as [|row floor [_ Hcells] _ IHr]; [done|].
      apply Forall_cons in Hfloor as [Hlen Hfloor].
      constructor; [|by apply IHr]. cbn.
      split; [by apply sanitize_row_length|by apply sanitize_row_cells].
Qed.

(** The list of floors before the columns are evened out. *)
Lemma read_building_unfold (isspace : N → bool) (lines : list pystr) :
  ∃ building : matrix,
    plan_floors building ∧
    read_building_from_file isspace (Some lines) =
    match building with
    | [] => []
    | _ => (λ floor : list (list string),
              sanitize_row (max_cols_of building) <$> floor) <$> building
    end.
Proof.
  unfold read_building_from_file.
  destruct (read_lines_plan isspace lines ([], [])) as [Hb Hf];
    [by split; constructor|].
  destruct (foldl (read_line isspace) ([], []) lines) as [building floor_data].
  cbn [fst snd] in Hb, Hf.
  eexists. split; [by apply (push_floor_plan building floor_data)|done].
Qed.

(** X18. Whatever the file holds, [read_building_from_file] returns a
    rectangular plan: no floor is empty, every row has as many cells as
    the first row of the first floor, at least one, and every cell is one
    of S, R, T, W and the dot. *)
Theorem read_building_is_rectangular (isspace : N → bool)
  (file : option (list pystr)) :
  let b := read_building_from_file isspace file in
  Forall (λ floor,
            floor ≠ [] ∧
            Forall (λ row, Z.of_nat (length row) = cols_of b ∧
                           Forall (λ cell, cell ∈ ["S"; "R"; "T"; "W"; "."]%string)
                                  row) floor) b ∧
  (b ≠ [] → 0 < rows_of b ∧ 0 < cols_of b).
Proof.
  cbn zeta. destruct file as [lines|]; [|by split].
  destruct (read_building_unfold isspace lines) as (building & Hplan & ->).
  destruct (decide (building = [])) as [->|Hne]; [by split|].
  destruct (sanitized_plan building Hplan Hne)
    as (_ & Hcols & Hr & Hc & _ & Hall).
  cbn zeta in *. destruct building as [|floor0 building]; [done|].
  split; [|done]. by rewrite Hcols.
Qed.

Lemma read_building_is_rectangular_witness :
  let b := read_building_from_file ascii_isspace plan_file in
  Forall (λ floor,
            floor ≠ [] ∧
            Forall (λ row, Z.of_nat (length row) = cols_of b ∧
                           Forall (λ cell, cell ∈ ["S"; "R"; "T"; "W"; "."]%string)
                                  row) floor) b ∧
  (b ≠ [] → 0 < rows_of b ∧ 0 < cols_of b).
Proof. apply (read_building_is_rectangular ascii_isspace plan_file). Defined.

Lemma read_building_is_rectangular_example :
  read_building_from_file ascii_isspace plan_file
  = [[["S"; "."; "R"]; ["."; "T"; "."]];
     [["."; "."; "."]; ["W"; "T"; "R"]]]%string.
Proof. vm_compute. reflexivity. Qed.

Lemma lstrip_elem (isspace : N → bool) (s : pystr) (c : N) :
  c ∈ lstrip isspace s → c ∈ s.
Proof.
  induction s as [|c0 s IH]; [done|]. cbn [lstrip].
  destruct (isspace c0); [|done]. intros ?%IH. by right.
Qed.

Lemma strip_elem (isspace : N → bool) (s : pystr) (c : N) :
  c ∈ strip isspace s → c ∈ s.
Proof.
  unfold strip. rewrite elem_of_reverse. intros ?%lstrip_elem.
  by eapply lstrip_elem, elem_of_reverse.
Qed.

Lemma split_once_last_elem (sep : N) (s : pystr) (c : N) :
  c ∈ split_once_last sep s → c ∈ s.
Proof.
  unfold split_once_last.
  destruct (after_first sep s) as [rest|] eqn:Hrest; [|done]. cbn.
  revert Hrest. induction s as [|c0 s IH]; [done|]. cbn [after_first].
  destruct (c0 =? sep)%N.
  - intros [= ->] ?. by right.
  - intros Hrest ?. right. by apply IH.
Qed.

Lemma row_of_line_nil (line : pystr) :
  Forall (λ c, c ∉ map_chars) line → row_of_line line = [].
Proof.
  intros Hnone. unfold row_of_line.
  match goal with |- _ <$> ?l = _ => destruct l as [|c l'] eqn:Hl end; [done|].
  assert (c ∈ c :: l') as Hc by left. rewrite <- Hl in Hc.
  apply list_elem_of_filter in Hc as [Hmap [_ Hin]%list_elem_of_filter].
  rewrite Forall_forall in Hnone. by destruct (Hnone c Hin).
Qed.

(** X19. Lines without a plan symbol are skipped, wherever they stand:
    a title, a floor label, a blank line.  Only the separator of floors,
    three dashes, is read although it holds no plan symbol. *)
Theorem read_building_skips_notes (isspace : N → bool)
  (before after : list pystr) (note : pystr) :
  Forall (λ c, c ∉ map_chars) note →
  strip isspace note ≠ [chars.dash; chars.dash; chars.dash] →
  read_building_from_file isspace (Some (before ++ note :: after)) =
  read_building_from_file isspace (Some (before ++ after)).
Proof.
  intros Hnote Hsep. unfold read_building_from_file.
  rewrite !foldl_app. cbn [foldl].
  assert (∀ st, read_line isspace st note = st) as ->; [|done].
  intros [building floor_data]. unfold read_line.
  destruct (strip isspace note) as [|c line] eqn:Hstrip; [done|].
  rewrite bool_decide_false by done.
  rewrite row_of_line_nil; [done|].
  apply Forall_forall. intros c' Hc'.
  assert (c' ∈ strip isspace note) as Hin.
  { rewrite Hstrip. case_bool_decide; [|done].
    by eapply split_once_last_elem, strip_elem. }
  rewrite Forall_forall in Hnote. by eapply Hnote, strip_elem.
Qed.

Lemma read_building_skips_notes_witness :
  read_building_from_file ascii_isspace
    (Some ((codes <$> ["S . R"]%string) ++ codes "Lantai 2:"
           :: (codes <$> [". . ."]%string))) =
  read_building_from_file ascii_isspace
    (Some ((codes <$> ["S . R"]%string) ++ (codes <$> [". . ."]%string))).
Proof.
  apply (read_building_skips_notes ascii_isspace).
  - repeat constructor; vm_compute; set_solver.
  - vm_compute. discriminate.
Defined.

(** ** The blueprint *)

Lemma py_setitem_Ok {A : Type} (l : list A) (i : Z) (x : A) :
  0 ≤ i < Z.of_nat (length l) → py_setitem l i x = Ok (<[Z.to_nat i := x]> l).
Proof.
  intros Hi. unfold py_setitem.
  destruct (Z.ltb_spec i 0); [lia|].
  destruct (Z.leb_spec 0 i); [|lia].
  destruct (Z.ltb_spec i (Z.of_nat (length l))); [done|lia].
Qed.

Lemma canvas_set_spec (cv : canvas) (nr nc r c : Z) (char : string) :
  canvas_shape cv nr nc → 0 ≤ r < nr → 0 ≤ c < nc →
  ∃ cv', canvas_set cv r c char = Ok cv' ∧ canvas_shape cv' nr nc ∧
         ∀ r' c', 0 ≤ r' → 0 ≤ c' →
                  canvas_at cv' r' c' =
                  if decide (r' = r ∧ c' = c) then Some char
                  else canvas_at cv r' c'.
Proof.
  intros [Hlen Hrows] Hr Hc.
  destruct (lookup_lt_is_Some_2 cv (Z.to_nat r)) as [row Hrow]; [lia|].
  assert (Z.of_nat (length row) = nc) as Hrowlen.
  { rewrite Forall_forall in Hrows. apply Hrows.
    by eapply list_elem_of_lookup_2. }
  exists (<[Z.to_nat r := <[Z.to_nat c := char]> row]> cv).
  split; [|split].
  - unfold canvas_set.
    rewrite (proj2 (py_getitem_Ok cv r row (proj1 Hr)) Hrow). cbn.
    rewrite py_setitem_Ok by lia. cbn. by rewrite py_setitem_Ok by lia.
  - split; [by rewrite length_insert|].
    apply Forall_insert; [done|]. by rewrite length_insert.
  - intros r' c' Hr' Hc'. unfold canvas_at.
    destruct (decide (r' = r ∧ c' = c)) as [[-> ->]|Hne].
    + rewrite list_lookup_insert_eq by lia. cbn.
      by rewrite list_lookup_insert_eq by lia.
    + destruct (decide (r' = r)) as [->|Hr'r].
      * rewrite list_lookup_insert_eq by lia. cbn. rewrite Hrow. cbn.
        rewrite list_lookup_insert_ne; [done|]. lia.
      * by rewrite list_lookup_insert_ne by lia.
Qed.

Lemma grid_cells_elem (nr nc r c : Z) :
  (r, c) ∈ grid_cells nr nc ↔ 0 ≤ r < nr ∧ 0 ≤ c < nc.
Proof.
  unfold grid_cells, py_range. rewrite list_elem_of_bind. split.
  - intros (r' & (c' & Hc%list_elem_of_singleton & Hc')%list_elem_of_bind & Hr').
    injection Hc as -> ->. apply elem_of_seqZ in Hr', Hc'. lia.
  - intros [Hr Hc]. exists r. split; [|apply elem_of_seqZ; lia].
    apply list_elem_of_bind. exists c.
    split; [by apply list_elem_of_singleton|apply elem_of_seqZ; lia].
Qed.

Lemma blank_canvas (nr nc : Z) :
  0 ≤ nr → 0 ≤ nc →
  let cv := replicate (Z.to_nat nr) (replicate (Z.to_nat nc) " "%string) in
  canvas_shape cv nr nc ∧
  ∀ r c, 0 ≤ r < nr → 0 ≤ c < nc → canvas_at cv r c = Some " "%string.
Proof.
  intros Hnr Hnc. cbn zeta. split; [split|].
  - rewrite length_replicate. lia.
  - apply Forall_replicate. rewrite length_replicate. lia.
  - intros r c Hr Hc. unfold canvas_at.
    rewrite lookup_replicate_2 by lia. cbn.
    by rewrite lookup_replicate_2 by lia.
Qed.

(** The first pass writes each cell from the symbol of the building. *)
Lemma draw_building_spec (pf : ACPathfinder) (floor_idx : Z)
  (all_path_coords : gset position) (cells : list (Z * Z)) :
  grid_ok pf →
  Forall (λ rc : Z * Z, in_bounds pf floor_idx rc.1 rc.2 = true) cells →
  ∀ cv, canvas_shape cv (rows pf) (cols pf) →
    ∃ cv', draw_building pf floor_idx all_path_coords cells cv = Ok cv' ∧
           canvas_shape cv' (rows pf) (cols pf) ∧
           ∀ r c symbol,
             0 ≤ r → 0 ≤ c →
             building_at (building pf) floor_idx r c = Ok symbol →
             canvas_at cv' r c =
             if decide ((r, c) ∈ cells)
             then match base_char symbol
                          (bool_decide ((floor_idx, r, c) ∈ all_path_coords)) with
                  | Some char => Some char
                  | None => canvas_at cv r c
                  end
             else canvas_at cv r c.
Proof.
  intros Hgrid. induction cells as [|[r0 c0] cells IH]; intros Hcells cv Hshape.
  - exists cv. split; [done|]. split; [done|]. intros r c symbol _ _ _.
    by rewrite decide_False by apply not_elem_of_nil.
  - apply Forall_cons in Hcells as [Hin0 Hcells]. cbn [fst snd] in Hin0.
    destruct (Hgrid _ _ _ Hin0) as [symbol0 Hsym0].
    apply in_bounds_spec in Hin0 as (_ & Hr0 & Hc0).
    cbn [draw_building]. rewrite Hsym0. cbn [mbind result_bind].
    set (written := base_char symbol0
                      (bool_decide ((floor_idx, r0, c0) ∈ all_path_coords))).
    assert (∃ cv1,
              match written with
              | Some char => canvas_set cv r0 c0 char
              | None => Ok cv
              end = Ok cv1 ∧
              canvas_shape cv1 (rows pf) (cols pf) ∧
              ∀ r c, 0 ≤ r → 0 ≤ c →
                     canvas_at cv1 r c =
                     if decide (r = r0 ∧ c = c0)
                     then match written with
                          | Some char => Some char
                          | None => canvas_at cv r c
                          end
                     else canvas_at cv r c) as (cv1 & -> & Hshape1 & Hat1).
    { destruct written as [char|].
      - by apply canvas_set_spec.
      - exists cv. split; [done|]. split; [done|]. intros. by case_decide. }
    cbn. destruct (IH Hcells cv1 Hshape1) as (cv' & -> & Hshape' & Hat').
    exists cv'. split; [done|]. split; [done|].
    intros r c symbol Hr Hc Hsym. rewrite (Hat' r c symbol Hr Hc Hsym).
    rewrite (Hat1 r c Hr Hc).
    destruct (decide (r = r0 ∧ c = c0)) as [[-> ->]|Hne].
    + assert (symbol = symbol0) as -> by congruence. fold written.
      rewrite (decide_True (P := (r0, c0) ∈ (r0, c0) :: cells)) by left.
      destruct written; by case_decide.
    + destruct (decide ((r, c) ∈ cells)) as [Hin|Hout].
      * by rewrite decide_True by by right.
      * rewrite decide_False; [done|].
        intros [[= -> ->]|?]%elem_of_cons; [by destruct Hne|done].
Qed.

Lemma get_path_char_for_pos_total (pf : ACPathfinder) (pos : position)
  (path : list position) :
  grid_ok pf → in_box pf pos →
  ∃ char, _get_path_char_for_pos pf pos path = Ok char.
Proof.
  intros Hgrid Hbox. destruct pos as [[f r] c].
  destruct (Hgrid f r c Hbox) as [symbol Hsym].
  rewrite (get_path_char_for_pos_unfold _ _ _ _ _ _ Hsym).
  repeat case_match; by eexists.
Qed.

(** One path of the second pass writes the cells it visits on the floor. *)
Lemma draw_path_spec (pf : ACPathfinder) (floor_idx : Z)
  (path rest : list position) :
  grid_ok pf → Forall (in_box pf) rest →
  ∀ cv, canvas_shape cv (rows pf) (cols pf) →
    ∃ cv', draw_path pf floor_idx path rest cv = Ok cv' ∧
           canvas_shape cv' (rows pf) (cols pf) ∧
           ∀ r c, 0 ≤ r → 0 ≤ c →
                  if decide ((floor_idx, r, c) ∈ rest)
                  then ∃ char,
                         _get_path_char_for_pos pf (floor_idx, r, c) path
                         = Ok char ∧
                         canvas_at cv' r c = Some char
                  else canvas_at cv' r c = canvas_at cv r c.
Proof.
  intros Hgrid. induction rest as [|[[f0 r0] c0] rest IH]; intros Hrest cv Hshape.
  - exists cv. split; [done|]. split; [done|]. intros r c _ _.
    by rewrite decide_False by apply not_elem_of_nil.
  - apply Forall_cons in Hrest as [Hbox0 Hrest]. cbn [draw_path].
    destruct (Z.eqb_spec f0 floor_idx) as [->|Hfloor].
    + destruct (get_path_char_for_pos_total pf (floor_idx, r0, c0) path
                  Hgrid Hbox0) as [char0 Hchar0].
      rewrite Hchar0. cbn [mbind result_bind].
      apply in_bounds_spec in Hbox0 as (_ & Hr0 & Hc0).
      destruct (canvas_set_spec cv _ _ r0 c0 char0 Hshape Hr0 Hc0)
        as (cv1 & -> & Hshape1 & Hat1). cbn [mbind result_bind].
      destruct (IH Hrest cv1 Hshape1) as (cv' & -> & Hshape' & Hat').
      exists cv'. split; [done|]. split; [done|].
      intros r c Hr Hc. specialize (Hat' r c Hr Hc).
      destruct (decide ((floor_idx, r, c) ∈ rest)) as [Hin|Hout].
      * by rewrite decide_True by by right.
      * rewrite Hat', (Hat1 r c Hr Hc).
        destruct (decide (r = r0 ∧ c = c0)) as [[-> ->]|Hne].
        -- rewrite decide_True by left. by exists char0.
        -- rewrite decide_False; [done|].
           intros [[= -> ->]|?]%elem_of_cons; [by destruct Hne|done].
    + destruct (IH Hrest cv Hshape) as (cv' & -> & Hshape' & Hat').
      exists cv'. split; [done|]. split; [done|].
      intros r c Hr Hc. specialize (Hat' r c Hr Hc).
      destruct (decide ((floor_idx, r, c) ∈ rest)) as [Hin|Hout].
      * by rewrite decide_True by by right.
      * rewrite decide_False; [done|].
        intros [[= <- <- <-]|?]%elem_of_cons; done.
Qed.

Lemma last_path_through_cons (pos : position) (p : list position)
  (paths : list (list position)) :
  last_path_through pos (p :: paths) =
  match last_path_through pos paths with
  | Some q => Some q
  | None => if decide (pos ∈ p) then Some p else None
  end.
Proof.
  unfold last_path_through. rewrite filter_cons.
  destruct (decide (pos ∈ p)); [|by destruct (last _)].
  by rewrite last_cons.
Qed.

Lemma last_path_through_None (pos : position) (paths : list (list position)) :
  last_path_through pos paths = None ↔ ∀ p, p ∈ paths → pos ∉ p.
Proof.
  unfold last_path_through. rewrite last_None. split.
  - intros Hnil p Hp Hin.
    assert (p ∈ filter (λ p, pos ∈ p) paths) as Hf
      by by apply list_elem_of_filter.
    rewrite Hnil in Hf. by apply elem_of_nil in Hf.
  - intros Hnone. destruct (filter _ paths) as [|p l] eqn:Hf; [done|].
    assert (p ∈ filter (λ p, pos ∈ p) paths) as [Hin Hp]%list_elem_of_filter
      by (rewrite Hf; left).
    by destruct (Hnone p Hp).
Qed.

Lemma last_path_through_Some (pos : position) (paths : list (list position))
  (p : list position) :
  last_path_through pos paths = Some p → p ∈ paths ∧ pos ∈ p.
Proof.
  unfold last_path_through. intros Hlast%last_Some_elem_of.
  apply list_elem_of_filter in Hlast as [? ?]. done.
Qed.

(** The second pass: the last path through a cell decides its character,
    the other cells stay as they are. *)
Lemma draw_paths_spec (pf : ACPathfinder) (floor_idx : Z)
  (paths_info : list blueprint_info) :
  grid_ok pf →
  Forall (λ info, Forall (in_box pf) (path_to_use info)) paths_info →
  ∀ cv, canvas_shape cv (rows pf) (cols pf) →
    ∃ cv', draw_paths pf floor_idx paths_info cv = Ok cv' ∧
           canvas_shape cv' (rows pf) (cols pf) ∧
           ∀ r c, 0 ≤ r → 0 ≤ c →
                  match last_path_through (floor_idx, r, c)
                          (path_to_use <$> paths_info) with
                  | Some p => ∃ char,
                                _get_path_char_for_pos pf (floor_idx, r, c) p
                                = Ok char ∧
                                canvas_at cv' r c = Some char
                  | None => canvas_at cv' r c = canvas_at cv r c
                  end.
Proof.
  intros Hgrid. induction paths_info as [|info infos IH]; intros Hbox cv Hshape.
  - exists cv. split; [done|]. split; [done|]. by intros.
  - apply Forall_cons in Hbox as [Hbox0 Hbox]. cbn [draw_paths].
    destruct (draw_path_spec pf floor_idx (path_to_use info) (path_to_use info)
                Hgrid Hbox0 cv Hshape) as (cv1 & -> & Hshape1 & Hat1). cbn [mbind result_bind].
    destruct (IH Hbox cv1 Hshape1) as (cv' & -> & Hshape' & Hat').
    exists cv'. split; [done|]. split; [done|].
    intros r c Hr Hc. specialize (Hat' r c Hr Hc). specialize (Hat1 r c Hr Hc).
    cbn [fmap list_fmap]. rewrite last_path_through_cons.
    destruct (last_path_through (floor_idx, r, c) (path_to_use <$> infos));
      [done|].
    destruct (decide ((floor_idx, r, c) ∈ path_to_use info)) as [Hin|Hout].
    + rewrite decide_True by done.
      destruct Hat1 as (char & Hchar & Hat1). exists char.
      split; [done|]. by rewrite Hat'.
    + rewrite decide_False by done. by rewrite Hat'.
Qed.

(** The canvas of one floor. *)
Lemma draw_floor_spec (pf : ACPathfinder) (floor_idx : Z)
  (paths_info : list blueprint_info) (all_path_coords : gset position) :
  grid_ok pf → 0 ≤ floor_idx < floors pf → 0 ≤ rows pf → 0 ≤ cols pf →
  Forall (λ info, Forall (in_box pf) (path_to_use info)) paths_info →
  ∃ cv, _draw_floor_blueprint_revised pf floor_idx paths_info all_path_coords
        = Ok cv ∧
        canvas_shape cv (rows pf) (cols pf) ∧
        ∀ r c symbol,
          in_bounds pf floor_idx r c = true →
          building_at (building pf) floor_idx r c = Ok symbol →
          match last_path_through (floor_idx, r, c)
                  (path_to_use <$> paths_info) with
          | Some p => ∃ char,
                        _get_path_char_for_pos pf (floor_idx, r, c) p = Ok char ∧
                        canvas_at cv r c = Some char
          | None =>
              canvas_at cv r c
              = Some (default " "%string
                        (base_char symbol
                           (bool_decide ((floor_idx, r, c) ∈ all_path_coords))))
          end.
Proof.
  intros Hgrid Hfloor Hnr Hnc Hbox. unfold _draw_floor_blueprint_revised.
  destruct (blank_canvas (rows pf) (cols pf) Hnr Hnc) as [Hshape0 Hat0].
  cbn zeta in Hshape0, Hat0.
  destruct (draw_building_spec pf floor_idx all_path_coords
              (grid_cells (rows pf) (cols pf)) Hgrid) with
    (cv := replicate (Z.to_nat (rows pf))
             (replicate (Z.to_nat (cols pf)) " "%string))
    as (cv1 & -> & Hshape1 & Hat1); [|done|].
  { apply Forall_forall. intros [r c] Hin%grid_cells_elem.
    apply in_bounds_spec. cbn. lia. }
  cbn [mbind result_bind].
  destruct (draw_paths_spec pf floor_idx paths_info Hgrid Hbox cv1 Hshape1)
    as (cv & -> & Hshape & Hat).
  exists cv. split; [done|]. split; [done|].
  intros r c symbol Hin Hsym.
  apply in_bounds_spec in Hin as (_ & Hr & Hc).
  specialize (Hat r c (proj1 Hr) (proj1 Hc)).
  destruct (last_path_through _ _); [done|].
  rewrite Hat, (Hat1 r c symbol (proj1 Hr) (proj1 Hc) Hsym).
  rewrite decide_True by by apply grid_cells_elem.
  rewrite (Hat0 r c Hr Hc). by destruct (base_char _ _).
Qed.

Lemma draw_floors_spec (pf : ACPathfinder) (floor_idxs : list Z)
  (paths_info : list blueprint_info) (all_path_coords : gset position) :
  grid_ok pf → 0 ≤ rows pf → 0 ≤ cols pf →
  Forall (λ floor_idx, 0 ≤ floor_idx < floors pf) floor_idxs →
  Forall (λ info, Forall (in_box pf) (path_to_use info)) paths_info →
  ∃ cvs, draw_floors pf floor_idxs paths_info all_path_coords = Ok cvs ∧
         Forall2 (λ floor_idx cv,
                    _draw_floor_blueprint_revised pf floor_idx paths_info
                      all_path_coords = Ok cv)
                 floor_idxs cvs.
Proof.
  intros Hgrid Hnr Hnc Hidx Hbox.
  induction Hidx as [|floor_idx floor_idxs Hfloor _ (cvs & IH & Hall)].
  - by exists [].
  - cbn [draw_floors].
    destruct (draw_floor_spec pf floor_idx paths_info all_path_coords
                Hgrid Hfloor Hnr Hnc Hbox) as (cv & Hcv & _).
    rewrite Hcv, IH. exists (cv :: cvs). split; [done|]. by constructor.
Qed.

Lemma init_symbols (b : matrix) (pf : ACPathfinder) :
  init b = Ok pf →
  0 ≤ floors pf ∧ 0 ≤ rows pf ∧ 0 ≤ cols pf ∧
  (∀ src, source pf = Some src → has_symbol (building pf) "S" src = true) ∧
  (∀ t, t ∈ targets pf → has_symbol (building pf) "R" t = true).
Proof.
  rewrite init_unfold. unfold _find_position, _find_all_positions.
  set (ps := scan_order (Z.of_nat (length b)) (rows_of b) (cols_of b)).
  destruct (find_position_in b "S" ps) as [src|e] eqn:Hs; [|done]. cbn.
  destruct (find_all_positions_in b "R" ps []) as [tgts|e] eqn:Ht; [|done]. cbn.
  destruct (find_all_positions_in b "T" ps []) as [strs|e] eqn:Hst; [|done]. cbn.
  intros [= <-]. cbn.
  split; [lia|]. split; [unfold rows_of; destruct b; lia|].
  split; [unfold cols_of; destruct b as [|[|rw0 fl0] b]; lia|].
  rewrite (find_position_in_head b "S" ps) in Hs
    by by apply (find_all_positions_in_readable _ _ _ _ _ Ht).
  injection Hs as <-.
  rewrite (find_all_positions_in_filter _ _ _ _ _ Ht). split.
  - intros p Hp%head_Some_elem_of. by apply list_elem_of_filter in Hp as [? _].
  - intros p Hp. by apply list_elem_of_filter in Hp as [? _].
Qed.

Lemma base_char_off_path (symbol : string) :
  ∃ char, base_char symbol false = Some char ∧
          char ∈ ["█"; "S"; "R"; "T"; "·"]%string.
Proof.
  unfold base_char. repeat case_match; eexists; (split; [done|]);
    repeat constructor.
Qed.

Lemma create_professional_blueprint_spec (b : matrix) (pf : ACPathfinder)
  (paths_info : list blueprint_info) :
  init b = Ok pf →
  paths_info ≠ [] →
  Forall (λ info, Forall (in_box pf) (path_to_use info)) paths_info →
  ∃ canvases,
    create_professional_blueprint pf paths_info = Ok canvases ∧
    Z.of_nat (length canvases) = floors pf ∧
    ∀ f r c, in_box pf (f, r, c) →
      ∃ cv symbol char,
        canvases !! Z.to_nat f = Some cv ∧
        canvas_shape cv (rows pf) (cols pf) ∧
        building_at (building pf) f r c = Ok symbol ∧
        canvas_at cv r c = Some char ∧
        match last_path_through (f, r, c) (path_to_use <$> paths_info) with
        | Some p => _get_path_char_for_pos pf (f, r, c) p = Ok char
        | None => base_char symbol false = Some char
        end.
Proof.
  intros Hinit Hne Hbox.
  pose proof Hinit as (_ & Hgrid & _)%init_spec.
  pose proof Hinit as (Hnf & Hnr & Hnc & _)%init_symbols.
  unfold create_professional_blueprint.
  destruct paths_info as [|info0 infos]; [done|].
  set (paths_info := info0 :: infos) in *.
  set (coords := list_to_set _).
  destruct (draw_floors_spec pf (py_range 0 (floors pf)) paths_info coords
              Hgrid Hnr Hnc) as (cvs & -> & Hall); [|done|].
  { apply Forall_forall. intros f Hf%elem_of_seqZ. lia. }
  exists cvs. split; [done|].
  pose proof (Forall2_length _ _ _ Hall) as Hlen.
  unfold py_range in Hlen, Hall. rewrite length_seqZ in Hlen.
  split; [lia|].
  intros f r c Hin. pose proof Hin as (Hf & Hr & Hc)%in_bounds_spec.
  destruct (Forall2_lookup_l _ _ _ (Z.to_nat f) f Hall) as (cv & Hcv & Hdraw).
  { rewrite lookup_seqZ. lia. }
  destruct (draw_floor_spec pf f paths_info coords Hgrid Hf Hnr Hnc Hbox)
    as (cv' & Hcv' & Hshape & Hat).
  assert (cv' = cv) as -> by congruence.
  destruct (Hgrid f r c Hin) as [symbol Hsym].
  specialize (Hat r c symbol Hin Hsym).
  exists cv, symbol.
  destruct (last_path_through (f, r, c) (path_to_use <$> paths_info))
    as [p|] eqn:Hlast.
  - destruct Hat as (char & Hchar & Hat). by exists char.
  - assert ((f, r, c) ∉ coords) as Hout.
    { unfold coords. rewrite elem_of_list_to_set, list_elem_of_bind.
      intros (info & Hpos & Hinfo).
      eapply (proj1 (last_path_through_None _ _) Hlast); [|done].
      apply list_elem_of_fmap. by exists info. }
    rewrite bool_decide_false in Hat by done.
    destruct (base_char_off_path symbol) as (char & Hbase & Hchar).
    rewrite Hbase in Hat. cbn in Hat. by exists char.
Qed.

(** X20. The canvases of [create_professional_blueprint], for routes that
    stay inside the building: one canvas of [rows] by [cols] cells for
    each floor; a cell that some route visits shows the character that
    [_get_path_char_for_pos] gives it on the last such route, and any
    other cell shows the block for a wall, its own letter for S, R and T,
    and the dot otherwise.  No cell is left blank and none shows the
    crossing. *)
Theorem create_professional_blueprint_cells (b : matrix) (pf : ACPathfinder)
  (paths_info : list blueprint_info) :
  init b = Ok pf →
  paths_info ≠ [] →
  Forall (λ info, Forall (in_box pf) (path_to_use info)) paths_info →
  ∃ canvases,
    create_professional_blueprint pf paths_info = Ok canvases ∧
    Z.of_nat (length canvases) = floors pf ∧
    ∀ f r c, in_box pf (f, r, c) →
      ∃ cv symbol char,
        canvases !! Z.to_nat f = Some cv ∧
        canvas_shape cv (rows pf) (cols pf) ∧
        building_at (building pf) f r c = Ok symbol ∧
        canvas_at cv r c = Some char ∧
        match last_path_through (f, r, c) (path_to_use <$> paths_info) with
        | Some p => _get_path_char_for_pos pf (f, r, c) p = Ok char
        | None => base_char symbol false = Some char
        end ∧
        char ≠ " "%string ∧ char ≠ "┼"%string.
Proof.
  intros Hinit Hne Hbox.
  destruct (create_professional_blueprint_spec b pf paths_info Hinit Hne Hbox)
    as (canvases & Hrun & Hlen & Hcells).
  exists canvases. split; [done|]. split; [done|].
  intros f r c Hin.
  destruct (Hcells f r c Hin) as (cv & symbol & char & Hcv & Hshape & Hsym
                                  & Hat & Hchar).
  exists cv, symbol, char. repeat (split; [done|]).
  destruct (last_path_through (f, r, c) (path_to_use <$> paths_info)) as [p|].
  - rewrite (get_path_char_for_pos_unfold pf f r c p symbol Hsym) in Hchar.
    destruct (String.eqb symbol "S" || String.eqb symbol "R"
              || String.eqb symbol "T") eqn:Hspecial.
    + injection Hchar as <-.
      apply orb_true_iff in Hspecial
          as [[->%String.eqb_eq| ->%String.eqb_eq]%orb_true_iff
             | ->%String.eqb_eq]; done.
    + assert (char ∈ ["│"; "─"; "┌"; "┐"; "└"; "┘"; "·"]%string) as Hpipe.
      { destruct (py_index p (f, r, c)); injection Hchar as <-;
          [apply path_char_of_cases|repeat constructor]. }
      rewrite !elem_of_cons, elem_of_nil in Hpipe.
      split; intros ->; naive_solver.
  - destruct (base_char_off_path symbol) as (char' & Hbase & Hin').
    assert (char' = char) as -> by congruence.
    rewrite !elem_of_cons, elem_of_nil in Hin'.
    split; intros ->; naive_solver.
Qed.

Lemma create_professional_blueprint_cells_witness :
  ∃ canvases,
    create_professional_blueprint two_floors_pf [(two_floors_info, None)]
    = Ok canvases ∧
    Z.of_nat (length canvases) = floors two_floors_pf ∧
    ∀ f r c, in_box two_floors_pf (f, r, c) →
      ∃ cv symbol char,
        canvases !! Z.to_nat f = Some cv ∧
        canvas_shape cv (rows two_floors_pf) (cols two_floors_pf) ∧
        building_at (building two_floors_pf) f r c = Ok symbol ∧
        canvas_at cv r c = Some char ∧
        match last_path_through (f, r, c)
                (path_to_use <$> [(two_floors_info, None)]) with
        | Some p => _get_path_char_for_pos two_floors_pf (f, r, c) p = Ok char
        | None => base_char symbol false = Some char
        end ∧
        char ≠ " "%string ∧ char ≠ "┼"%string.
Proof.
  apply (create_professional_blueprint_cells two_floors two_floors_pf
           [(two_floors_info, None)]).
  - reflexivity.
  - done.
  - repeat constructor.
Defined.

(** Between two neighbours on its floor a cell gets a straight piece or a
    corner. *)
Lemma path_char_between (pf : ACPathfinder) (prev pos next : position) :
  horizontal_step pf prev pos → horizontal_step pf pos next → prev ≠ next →
  path_char_of (connect pos next (connect pos prev no_connection))
  ∈ ["│"; "─"; "┌"; "┐"; "└"; "┘"]%string.
Proof.
  destruct prev as [[pf0 pr] pc], pos as [[f r] c], next as [[nf nr] nc].
  intros (dr1 & dc1 & Hd1 & [= -> -> ->] & _)
         (dr2 & dc2 & Hd2 & [= -> -> ->] & _) Hne.
  unfold directions in Hd1, Hd2.
  rewrite !elem_of_cons, elem_of_nil in Hd1, Hd2.
  unfold connect, path_char_of, no_connection. cbn [has_up has_down has_left has_right].
  rewrite !Z.eqb_refl. cbn [has_up has_down has_left has_right].
  destruct Hd1 as [[= -> ->]|[[= -> ->]|[[= -> ->]|[[= -> ->]|[]]]]];
    destruct Hd2 as [[= -> ->]|[[= -> ->]|[[= -> ->]|[[= -> ->]|[]]]]];
    try (exfalso; apply Hne; repeat f_equal; lia);
    repeat match goal with
           | |- context [(?a <? ?b)] => destruct (Z.ltb_spec a b); try lia
           | |- context [(?a >? ?b)] => destruct (Z.gtb_spec a b); try lia
           end;
    cbn; repeat constructor.
Qed.

Lemma path_connections_middle (pos prev next : position)
  (l1 l2 : list position) :
  path_connections pos (l1 ++ prev :: pos :: next :: l2) (S (length l1)) =
  connect pos next (connect pos prev no_connection).
Proof.
  unfold path_connections.
  assert ((0 <? S (length l1))%nat = true) as -> by by apply Nat.ltb_lt; lia.
  assert ((S (length l1) <?
           length (l1 ++ prev :: pos :: next :: l2) - 1)%nat = true) as ->.
  { apply Nat.ltb_lt. rewrite length_app. cbn [length]. lia. }
  replace (S (length l1) - 1)%nat with (length l1) by lia.
  rewrite (list_lookup_middle l1 _ prev (length l1) eq_refl).
  assert ((l1 ++ prev :: pos :: next :: l2) !! (S (length l1) + 1)%nat
          = Some next) as ->; [|done].
  replace (l1 ++ prev :: pos :: next :: l2)
    with ((l1 ++ [prev; pos]) ++ next :: l2) by by rewrite <- app_assoc.
  apply list_lookup_middle. rewrite length_app. cbn [length]. lia.
Qed.

(** A cell of a route of the router is no wall, and when it is neither the
    source, a room nor a stair it has a neighbour of the route on either
    side, both on its floor. *)
Lemma route_cell_char (b : matrix) (pf : ACPathfinder) (fuel : nat)
  (results : list path_info) (info : path_info) (f r c : Z) (symbol : string) :
  init b = Ok pf →
  bfs_pathfinding fuel pf = Some (Ok results) →
  info ∈ results → (f, r, c) ∈ path info →
  building_at (building pf) f r c = Ok symbol →
  symbol ≠ "W"%string ∧
  (symbol ∉ ["S"; "R"; "T"]%string →
   ∃ char, _get_path_char_for_pos pf (f, r, c) (path info) = Ok char ∧
           char ∈ ["│"; "─"; "┌"; "┐"; "└"; "┘"]%string).
Proof.
  intros Hinit Hrun Hinfo Hpos Hsym.
  destruct (bfs_pathfinding_sound _ pf fuel _ Hinit Hrun)
    as [[-> _]|(src & Hsrc & Hres)]; [by apply elem_of_nil in Hinfo|].
  pose proof Hinit as (_ & _ & Hbox & _)%init_spec.
  specialize (Hbox src Hsrc).
  pose proof Hinit as (_ & _ & _ & HS & HR)%init_symbols.
  specialize (HS src Hsrc).
  destruct (search_results_elem _ _ _ _ _ _ Hres Hinfo)
    as (idx & t & Ht & _ & (_ & _ & Hhead & Hlast & Hch & Hnd & _)).
  specialize (HR t Ht).
  destruct (path info) as [|p0 rest] eqn:Hpath; [done|].
  injection Hhead as ->.
  pose proof (walk_valid_cells pf rest src Hbox Hch) as Hvalid.
  assert (building_at (building pf) src.1.1 src.1.2 src.2 = Ok "S"%string)
    as HsrcS.
  { destruct src as [[sf sr] sc]. unfold has_symbol in HS. cbn [fst snd].
    destruct (building_at (building pf) sf sr sc) as [cell|]; [|done].
    by apply String.eqb_eq in HS as ->. }
  assert (building_at (building pf) t.1.1 t.1.2 t.2 = Ok "R"%string) as HtR.
  { destruct t as [[tf tr] tc]. unfold has_symbol in HR. cbn [fst snd].
    destruct (building_at (building pf) tf tr tc) as [cell|]; [|done].
    by apply String.eqb_eq in HR as ->. }
  split.
  - apply elem_of_cons in Hpos as [<-|Hpos].
    + cbn [fst snd] in HsrcS. intros ->. congruence.
    + rewrite Forall_forall in Hvalid.
      destruct (Hvalid _ Hpos) as (_ & cell & Hcell & Hwall). congruence.
  - intros Hplain. rewrite !not_elem_of_cons in Hplain.
    destruct Hplain as (HnS & HnR & HnT & _).
    assert ((f, r, c) ≠ src) as Hnsrc.
    { intros <-. cbn [fst snd] in HsrcS. congruence. }
    assert ((f, r, c) ≠ t) as Hnt.
    { intros <-. cbn [fst snd] in HtR. congruence. }
    apply list_elem_of_split in Hpos as (l1 & l2 & Hsplit).
    destruct l1 as [|p1 l1 _] using rev_ind.
    { cbn [app] in Hsplit. by injection Hsplit as -> _. }
    destruct l2 as [|next l2].
    { rewrite Hsplit, last_snoc in Hlast. by injection Hlast as <-. }
    rename p1 into prev. rewrite <- app_assoc in Hsplit. cbn [app] in Hsplit.
    rewrite Hsplit in Hch, Hnd.
    apply chain_app_inv in Hch as [_ (Hprev & Hnext & _)].
    assert (∀ a b, bfs_move pf a b →
                   (a = (f, r, c) ∨ b = (f, r, c)) → horizontal_step pf a b)
      as Hflat.
    { intros [[af ar] ac] [[bf br] bc] [Hh|Hstair] Hab; [done|].
      destruct Hstair as (_ & -> & -> & _ & HTa & HTb).
      destruct Hab as [[= -> -> ->]|[= -> -> ->]]; congruence. }
    apply Hflat in Hprev; [|by right]. apply Hflat in Hnext; [|by left].
    assert (prev ≠ next) as Hne.
    { intros ->. apply NoDup_app in Hnd as (_ & _ & Hnd).
      apply NoDup_cons in Hnd as [Hnotin _]. apply Hnotin. right. left. }
    rewrite (get_path_char_for_pos_unfold _ _ _ _ _ _ Hsym).
    apply String.eqb_neq in HnS, HnR, HnT. rewrite HnS, HnR, HnT. cbn [orb].
    rewrite Hsplit.
    rewrite (py_index_NoDup _ (f, r, c) (S (length l1)));
      [|done|].
    + rewrite path_connections_middle. eexists. split; [done|].
      by eapply path_char_between.
    + replace (l1 ++ prev :: (f, r, c) :: next :: l2)
        with ((l1 ++ [prev]) ++ (f, r, c) :: next :: l2)
        by by rewrite <- app_assoc.
      rewrite <- (list_lookup_middle (l1 ++ [prev]) (next :: l2) (f, r, c)
                    (S (length l1))); [done|].
      rewrite length_app. cbn [length]. lia.
Qed.

Lemma base_char_plain (symbol : string) :
  symbol ∉ ["W"; "S"; "R"; "T"]%string →
  base_char symbol false = Some "·"%string.
Proof.
  rewrite !not_elem_of_cons. intros (HW & HS & HR & HT & _).
  apply String.eqb_neq in HW, HS, HR, HT.
  unfold base_char. by rewrite HW, HS, HR, HT.
Qed.

(** The records the main program hands to the blueprint carry the routes
    of the router, which stay inside the building. *)
Lemma visual_paths_in_box (b : matrix) (pf : ACPathfinder) (fuel : nat)
  (results optimized_paths_info : list path_info) :
  init b = Ok pf →
  bfs_pathfinding fuel pf = Some (Ok results) →
  optimize_energy_usage pf results = Ok optimized_paths_info →
  path_to_use <$> with_visual_paths optimized_paths_info = path <$> results ∧
  Forall (λ info, Forall (in_box pf) (path_to_use info))
         (with_visual_paths optimized_paths_info).
Proof.
  intros Hinit Hrun Hopt.
  assert (path_to_use <$> with_visual_paths optimized_paths_info
          = path <$> results) as Hpaths.
  { unfold with_visual_paths. rewrite <- list_fmap_compose.
    exact (optimized_visual_paths _ pf fuel _ _ Hinit Hrun Hopt). }
  split; [done|].
  assert (Forall (Forall (in_box pf))
                 (path_to_use <$> with_visual_paths optimized_paths_info)) as H;
    [|exact (proj1 (Forall_fmap _ _ _) H)].
  rewrite Hpaths.
  apply Forall_fmap, Forall_forall. intros info Hinfo. cbn.
  pose proof Hinit as (_ & _ & Hsrcbox & _)%init_spec.
  destruct (bfs_pathfinding_sound _ pf fuel _ Hinit Hrun)
    as [[-> _]|(src & Hsrc & Hres)]; [by apply elem_of_nil in Hinfo|].
  destruct (search_results_elem _ _ _ _ _ _ Hres Hinfo)
    as (idx & t & _ & _ & (_ & _ & Hhead & _ & Hch & _)).
  destruct (path info) as [|p0 rest]; [done|]. injection Hhead as ->.
  apply walk_in_box; [by apply Hsrcbox|done].
Qed.

(** With iterations enough for the searches the main program reaches the
    end of the blueprint. *)
Lemma main_blueprint_runs (b : matrix) (pf : ACPathfinder) (fuel : nat) :
  init b = Ok pf → (bfs_budget pf ≤ fuel)%nat →
  ∃ canvases, main_blueprint fuel b = Some (Ok canvases).
Proof.
  intros Hinit Hfuel. unfold main_blueprint.
  destruct b as [|fl0 b']; [by eexists|]. rewrite Hinit.
  destruct (bfs_pathfinding_total _ pf fuel Hinit Hfuel) as [results Hrun].
  rewrite Hrun. destruct results as [|r0 results']; [by eexists|].
  pose proof Hinit as (_ & Hgrid & _)%init_spec.
  destruct (optimize_energy_usage_total pf (r0 :: results') Hgrid)
    as [opt Hopt].
  rewrite Hopt.
  destruct (visual_paths_in_box _ pf fuel _ _ Hinit Hrun Hopt)
    as [Hpaths Hbox].
  destruct (create_professional_blueprint_spec _ pf (with_visual_paths opt)
              Hinit) as (canvases & -> & _); [|done|by eexists].
  intros Hnil. by rewrite Hnil in Hpaths.
Qed.

(** X21. The blueprint of the main program.  When the router found no
    route nothing is drawn.  Otherwise there is one canvas for each floor,
    drawn without an exception, and every cell of the building shows: the
    block on a wall; its own letter on the source, a room or a stair; a
    straight piece or a corner on any other cell that a route of the
    router visits; and the dot exactly on the remaining cells. *)
Theorem main_blueprint_shows_routes (fuel : nat) (b : matrix)
  (pf : ACPathfinder) (results : list path_info) :
  init b = Ok pf →
  bfs_pathfinding fuel pf = Some (Ok results) →
  (results = [] → main_blueprint fuel b = Some (Ok [])) ∧
  (results ≠ [] →
   ∃ canvases,
     main_blueprint fuel b = Some (Ok canvases) ∧
     Z.of_nat (length canvases) = floors pf ∧
     ∀ f r c, in_box pf (f, r, c) →
       ∃ cv symbol char,
         canvases !! Z.to_nat f = Some cv ∧
         building_at (building pf) f r c = Ok symbol ∧
         canvas_at cv r c = Some char ∧
         (symbol = "W"%string → char = "█"%string) ∧
         (symbol ∈ ["S"; "R"; "T"]%string → char = symbol) ∧
         (symbol ∉ ["W"; "S"; "R"; "T"]%string →
          ((∃ info, info ∈ results ∧ (f, r, c) ∈ path info) →
           char ∈ ["│"; "─"; "┌"; "┐"; "└"; "┘"]%string) ∧
          ((∀ info, info ∈ results → (f, r, c) ∉ path info) →
           char = "·"%string))).
Proof.
  intros Hinit Hrun. unfold main_blueprint. split.
  - intros ->. destruct b; [done|]. by rewrite Hinit, Hrun.
  - intros Hne.
    destruct b as [|fl0 b'].
    { injection Hinit as <-. cbn in Hrun. by injection Hrun as <-. }
    rewrite Hinit, Hrun.
    destruct results as [|r0 results']; [done|].
    set (results := r0 :: results') in *.
    pose proof Hinit as (_ & Hgrid & Hsrcbox & _)%init_spec.
    destruct (optimize_energy_usage_total pf results Hgrid) as [opt Hopt].
    rewrite Hopt.
    set (paths_info := with_visual_paths opt).
    destruct (visual_paths_in_box _ pf fuel _ _ Hinit Hrun Hopt)
      as [Hpaths Hbox]. fold paths_info in Hpaths, Hbox.
    assert (paths_info ≠ []) as Hne'.
    { intros Hnil. rewrite Hnil in Hpaths. done. }
    destruct (create_professional_blueprint_spec _ pf paths_info
                Hinit Hne' Hbox) as (canvases & -> & Hlen & Hcells).
    exists canvases. split; [done|]. split; [done|].
    intros f r c Hin.
    destruct (Hcells f r c Hin)
      as (cv & symbol & char & Hcv & _ & Hsym & Hat & Hchar).
    exists cv, symbol, char. repeat (split; [done|]).
    rewrite Hpaths in Hchar.
    destruct (last_path_through (f, r, c) (path <$> results)) as [p|]
      eqn:Hlast.
    + apply last_path_through_Some in Hlast
          as [(info & -> & Hinfo)%list_elem_of_fmap Hpos].
      destruct (route_cell_char _ pf fuel results info f r c symbol
                  Hinit Hrun Hinfo Hpos Hsym) as [Hwall Hplain].
      split; [done|]. split.
      * intros Hspecial.
        rewrite (get_path_char_for_pos_unfold _ _ _ _ _ _ Hsym) in Hchar.
        rewrite !elem_of_cons, elem_of_nil in Hspecial.
        destruct Hspecial as [->|[->|[->|[]]]]; by injection Hchar as <-.
      * intros Hnone. split; [|intros Hoff; by destruct (Hoff info Hinfo)].
        intros _. destruct Hplain as (char' & Hchar' & Hpipe).
        { rewrite !not_elem_of_cons in Hnone.
          rewrite !not_elem_of_cons. tauto. }
        assert (char' = char) as -> by congruence. done.
    + pose proof (proj1 (last_path_through_None _ _) Hlast) as Hoff.
      split; [intros ->; cbn in Hchar; by injection Hchar as <-|].
      split.
      * rewrite !elem_of_cons, elem_of_nil.
        intros [->|[->|[->|[]]]]; cbn in Hchar; by injection Hchar as <-.
      * intros Hplain. rewrite (base_char_plain symbol Hplain) in Hchar.
        injection Hchar as <-. split; [|done].
        intros (info & Hinfo & Hpos). destruct (Hoff (path info)); [|done].
        apply list_elem_of_fmap. by exists info.
Qed.

Lemma main_blueprint_shows_routes_witness :
  ∃ canvases,
    main_blueprint (bfs_budget two_floors_pf) two_floors = Some (Ok canvases) ∧
    Z.of_nat (length canvases) = floors two_floors_pf ∧
    ∀ f r c, in_box two_floors_pf (f, r, c) →
      ∃ cv symbol char,
        canvases !! Z.to_nat f = Some cv ∧
        building_at (building two_floors_pf) f r c = Ok symbol ∧
        canvas_at cv r c = Some char ∧
        (symbol = "W"%string → char = "█"%string) ∧
        (symbol ∈ ["S"; "R"; "T"]%string → char = symbol) ∧
        (symbol ∉ ["W"; "S"; "R"; "T"]%string →
         ((∃ info, info ∈ [two_floors_info] ∧ (f, r, c) ∈ path info) →
          char ∈ ["│"; "─"; "┌"; "┐"; "└"; "┘"]%string) ∧
         ((∀ info, info ∈ [two_floors_info] → (f, r, c) ∉ path info) →
          char = "·"%string)).
Proof.
  destruct (main_blueprint_shows_routes (bfs_budget two_floors_pf)
              two_floors two_floors_pf [two_floors_info]) as [_ Hdrawn].
  - reflexivity.
  - vm_compute. reflexivity.
  - apply Hdrawn. done.
Defined.

(** ** The numbers of the legend *)





(** The printed steps and the [steps] of the record differ on the hall:
    five positions are drawn, the optimised record counts two. *)
Lemma legend_steps_hall :
  legend_steps (hall_optimized, Some hall_path) = 5%nat ∧
  steps hall_optimized = 2%nat.
Proof. done. Qed.

(** ** The test for a direct run *)

Lemma all_valid_Forall (pf : ACPathfinder) (cells : list position) :
  Forall (valid_cell pf) cells → all_valid pf cells = Ok true.
Proof.
  induction 1 as [|[[f r] c] cells Hv _ IH]; [done|]. cbn [all_valid].
  apply is_valid_position_true in Hv. rewrite Hv. cbn. done.
Qed.

(** X23. [_can_go_direct] is exact and symmetric: it answers [True]
    exactly when the two positions are on one floor, share their row or
    their column, and every cell strictly between them is in bounds and
    no wall; it gives the same answer, or raises alike, with the two
    positions swapped.  The end cells themselves are never looked at. *)
Theorem can_go_direct_exact (pf : ACPathfinder) (pos1 pos2 : position) :
  (_can_go_direct pf pos1 pos2 = Ok true ↔ straight_clear pf pos1 pos2) ∧
  _can_go_direct pf pos1 pos2 = _can_go_direct pf pos2 pos1 ∧
  _can_go_direct pf pos1 pos1 = Ok true.
Proof.
  split; [split; [apply can_go_direct_straight_clear|]|split].
  - destruct pos1 as [[f1 r1] c1], pos2 as [[f2 r2] c2].
    unfold _can_go_direct, straight_clear.
    intros (<- & Hline & Hclear). rewrite Z.eqb_refl. cbn [negb].
    destruct (Z.eqb_spec r1 r2) as [<-|Hr]; cbn [negb andb].
    + apply all_valid_Forall, Forall_fmap, Forall_forall.
      intros c Hc%elem_of_seqZ. cbn. apply (Hclear (f1, r1, c)).
      split; [done|]. left. lia.
    + destruct Hline as [?|<-]; [done|]. rewrite Z.eqb_refl. cbn [negb].
      apply all_valid_Forall, Forall_fmap, Forall_forall.
      intros r Hrr%elem_of_seqZ. cbn. apply (Hclear (f1, r, c1)).
      split; [done|]. right. lia.
  - destruct pos1 as [[f1 r1] c1], pos2 as [[f2 r2] c2].
    unfold _can_go_direct. rewrite (Z.eqb_sym f2 f1).
    destruct (Z.eqb_spec f1 f2) as [<-|Hf]; cbn [negb]; [|done].
    rewrite (Z.eqb_sym r2 r1), (Z.eqb_sym c2 c1), (Z.min_comm c2 c1),
      (Z.max_comm c2 c1), (Z.min_comm r2 r1), (Z.max_comm r2 r1).
    destruct (Z.eqb_spec r1 r2) as [<-|Hr]; cbn [negb andb]; [done|].
    by destruct (Z.eqb_spec c1 c2) as [<-|Hc].
  - destruct pos1 as [[f1 r1] c1]. unfold _can_go_direct.
    rewrite !Z.eqb_refl. cbn [negb andb].
    rewrite Z.min_id, Z.max_id. unfold py_range.
    by replace (c1 - (c1 + 1)) with (-1) by lia.
Qed.

(** Between two walls next to each other the answer is [True]. *)
Lemma can_go_direct_between_walls :
  _can_go_direct corridor_pf (0, 1, 0) (0, 1, 1) = Ok true.
Proof. reflexivity. Qed.

(** ** The program on a file *)

(** X24. The program on what the reader returns.  When the file gives
    every floor at least the rows of the first floor, the constructor
    accepts the plan and, with iterations enough for the searches, the
    main program reaches the end of the blueprint without an exception.
    When some floor has fewer rows than the first, the constructor raises
    [IndexError] and that ends the program: the reader evens out the
    rows, not the floors. *)
Theorem program_runs_unless_floor_short (isspace : N → bool)
  (file : option (list pystr)) :
  let b := read_building_from_file isspace file in
  let tall :=
    Forall (λ floor : list (list string), rows_of b ≤ Z.of_nat (length floor)) b in
  (tall →
   ∃ pf, init b = Ok pf ∧
         ∀ fuel, (bfs_budget pf ≤ fuel)%nat →
                 ∃ canvases, main_blueprint fuel b = Some (Ok canvases)) ∧
  (¬ tall →
   init b = Raise IndexError ∧
   ∀ fuel, main_blueprint fuel b = Some (Raise IndexError)).
Proof.
  cbn zeta.
  set (b := read_building_from_file isspace file).
  assert ((∃ pf, init b = Ok pf) ↔
          Forall (λ floor : list (list string),
                    rows_of b ≤ Z.of_nat (length floor)) b) as Hiff.
  { unfold b. clear b. destruct file as [lines|];
      [|split; [constructor|by eexists]].
    destruct (read_building_unfold isspace lines) as (building & Hplan & ->).
    destruct (decide (building = [])) as [->|Hne];
      [split; [constructor|by eexists]|].
    destruct (sanitized_plan building Hplan Hne)
      as (_ & Hcols & Hr & Hc & _ & Hall).
    cbn zeta in Hcols, Hr, Hc, Hall.
    set (m := max_cols_of building) in *.
    set (b := (λ floor : list (list string), sanitize_row m <$> floor)
              <$> building) in *.
    clearbody b m. destruct building as [|floor0 building]; [done|].
    rewrite init_returns_iff. split.
    - intros [H0|[H0|Hcov]]; [lia..|].
      eapply Forall_impl; [exact Hcov|]. by intros floor [? _].
    - intros Htall. right; right. unfold covers.
      rewrite Forall_forall in Htall, Hall. apply Forall_forall.
      intros floor Hin. split; [by apply Htall|].
      destruct (Hall floor Hin) as [_ Hrows].
      apply Forall_take. eapply Forall_impl; [exact Hrows|].
      intros row. cbn beta. intros [Hlen _]. lia. }
  split.
  - intros [pf Hinit]%Hiff. exists pf. split; [done|].
    intros fuel Hfuel. by apply (main_blueprint_runs b pf fuel).
  - intros Hshort.
    destruct (init b) as [pf|[]] eqn:Hinit.
    { destruct Hshort. apply Hiff. by exists pf. }
    split; [done|]. intros fuel. unfold main_blueprint. rewrite Hinit.
    destruct b; [|done]. destruct Hshort. constructor.
Qed.

Lemma program_runs_unless_floor_short_witness :
  ∃ pf, init (read_building_from_file ascii_isspace plan_file) = Ok pf ∧
        ∀ fuel, (bfs_budget pf ≤ fuel)%nat →
                ∃ canvases,
                  main_blueprint fuel
                    (read_building_from_file ascii_isspace plan_file)
                  = Some (Ok canvases).
Proof.
  apply (proj1 (program_runs_unless_floor_short ascii_isspace plan_file)).
  repeat constructor; vm_compute; done.
Defined.

(** A plan whose second floor is shorter than the first. *)
Lemma program_stops_on_short_floor :
  init (read_building_from_file ascii_isspace
          (Some (codes <$> ["S ."; ". R"; "---"; ". ."]%string)))
  = Raise IndexError.
Proof. reflexivity. Qed.
